(** * Embedded-controller port driver (src/main.c)

    The driver talks to the embedded controller through two I/O ports and
    busy-waits on the status port, so its functions are modelled as
    interaction trees over the calls the C code makes to the outside
    (inb, outb, ioperm, perror, exit, printf, sleep, pthread_create,
    pthread_join).  Two semantics give the trees a meaning:

    - [run], the execution of one context on its own against a world that
      answers port reads and permission requests;
    - [exec], the execution of the whole process under a schedule that
      picks, step by step, which thread makes its next move. *)

From Stdlib Require Import ZArith List String Lia Bool.
From ITree Require Import ITree Eq.Shallow.
Import ListNotations.
Import ITreeNotations.
Local Open Scope string_scope.
Local Open Scope list_scope.
Local Open Scope Z_scope.
Local Open Scope itree_scope.

(** ** Data *)

(** Port numbers and bytes are integers; a byte read from a port is kept in
    [0, 256) by [to_u8], as the [unsigned char] result of inb is. *)
Definition port := Z.
Definition u8 := Z.

Definition to_u8 (z : Z) : u8 := z mod 256.
Definition is_u8 (z : Z) : Prop := 0 <= z < 256.

Definition EC_SC : port := 0x66.
Definition EC_DATA : port := 0x62.

(** Thread start routines (the function pointer given to pthread_create)
    and thread identifiers (the index of the thread in the process). *)
Inductive routine : Type := Ec_monitor_loop_routine.
Definition tid := nat.

(** ** The calls to the outside *)

Variant ecE : Type -> Type :=
| Inb (p : port) : ecE u8
| Outb (v : u8) (p : port) : ecE unit
| Ioperm (from num turn_on : Z) : ecE Z
| Perror (s : string) : ecE unit
| Exit (code : Z) : ecE Empty_set
| Printf (fmt : string) (args : list Z) : ecE unit
| Sleep (seconds : Z) : ecE unit
| Pthread_create (start : routine) : ecE tid
| Pthread_join (t : tid) : ecE unit.

Definition inb (p : port) : itree ecE u8 := ITree.trigger (Inb p).
Definition outb (v : u8) (p : port) : itree ecE unit := ITree.trigger (Outb v p).
Definition ioperm (from num turn_on : Z) : itree ecE Z :=
  ITree.trigger (Ioperm from num turn_on).
Definition perror (s : string) : itree ecE unit := ITree.trigger (Perror s).
Definition exit {R} (code : Z) : itree ecE R :=
  x <- ITree.trigger (Exit code) ;; match x : Empty_set with end.
Definition printf (fmt : string) (args : list Z) : itree ecE unit :=
  ITree.trigger (Printf fmt args).
Definition sleep (seconds : Z) : itree ecE unit := ITree.trigger (Sleep seconds).
Definition pthread_create (start : routine) : itree ecE tid :=
  ITree.trigger (Pthread_create start).
Definition pthread_join (t : tid) : itree ecE unit :=
  ITree.trigger (Pthread_join t).

(** C control flow: [while (cond) body] evaluates [cond], which may itself
    perform calls, and leaves the loop when it is zero. *)
Definition while (cond : itree ecE bool) (body : itree ecE unit) : itree ecE unit :=
  ITree.iter (fun _ : unit =>
    c <- cond ;;
    if c then body ;; Ret (inl tt) else Ret (inr tt)) tt.

(** [for (int i = 0; i < n; i++) body(i)] *)
Definition for_upto (n : Z) (body : Z -> itree ecE unit) : itree ecE unit :=
  ITree.iter (fun i : Z =>
    if i <? n then body i ;; Ret (inl (i + 1)) else Ret (inr tt)) 0.

(** The same loop entered with the counter at [i]. *)
Definition for_from (n : Z) (body : Z -> itree ecE unit) (i : Z) : itree ecE unit :=
  ITree.iter (fun i : Z =>
    if i <? n then body i ;; Ret (inl (i + 1)) else Ret (inr tt)) i.

(** C truth value of an int. *)
Definition truthy (z : Z) : bool := negb (z =? 0).

(** ** The program *)

Definition ec_wait_ibf : itree ecE unit :=
  while (s <- inb EC_SC ;; Ret (truthy (Z.land s 0x02))) (Ret tt).

Definition ec_wait_obf : itree ecE unit :=
  while (s <- inb EC_SC ;; Ret (negb (truthy (Z.land s 0x01)))) (Ret tt).

Definition ec_init : itree ecE unit :=
  r1 <- ioperm EC_SC 1 1 ;;
  if truthy r1 then perror "ioperm" ;; exit 1
  else
    r2 <- ioperm EC_DATA 1 1 ;;
    if truthy r2 then perror "ioperm" ;; exit 1
    else Ret tt.

Definition ec_read (addr : u8) : itree ecE u8 :=
  ec_wait_ibf ;;
  outb 0x80 EC_SC ;;
  ec_wait_ibf ;;
  outb addr EC_DATA ;;
  ec_wait_obf ;;
  inb EC_DATA.

Definition ec_write (addr value : u8) : itree ecE unit :=
  ec_wait_ibf ;;
  outb 0x81 EC_SC ;;
  ec_wait_ibf ;;
  outb addr EC_DATA ;;
  ec_wait_ibf ;;
  outb value EC_DATA.

Definition registers : list u8 :=
  [0x50; 0x51; 0x52; 0x53; 0x54; 0x55; 0x56; 0x57; 0x58; 0x59].

Definition nl : string := String (Ascii.ascii_of_nat 10) EmptyString.

Definition fmt_dump_header : string := ("Dumping SSRM region (0x50-0x59)..." ++ nl)%string.
Definition fmt_register : string := ("Register 0x%02X: 0x%02X" ++ nl)%string.
Definition fmt_temperature : string := ("Temperature: %d" ++ nl)%string.
Definition fmt_fan_speed : string := ("Fan Speed: %d" ++ nl)%string.
Definition fmt_flag : string := ("Flag: %d" ++ nl)%string.
Definition fmt_monitor_start : string := ("Starting EC monitor loop..." ++ nl)%string.
Definition fmt_warning : string := ("Warning: High temperature detected: %d" ++ nl)%string.
Definition fmt_acpi_header : string := ("Checking ACPI flags..." ++ nl)%string.
Definition fmt_acpi_flag : string := ("ACPI Flag: 0x%02X" ++ nl)%string.

(** The switch of ec_dump_selected on the register address. *)
Definition interpret (reg value : u8) : itree ecE unit :=
  if reg =? 0x50 then printf fmt_temperature [value]
  else if reg =? 0x51 then printf fmt_fan_speed [value]
  else if reg =? 0x52 then printf fmt_flag [Z.land value 0x01]
  else Ret tt.

Definition dump_register (i : Z) : itree ecE unit :=
  let reg := nth (Z.to_nat i) registers 0 in
  value <- ec_read reg ;;
  printf fmt_register [reg; value] ;;
  interpret reg value.

Definition ec_dump_selected : itree ecE unit :=
  printf fmt_dump_header [] ;;
  for_upto (Z.of_nat (List.length registers)) dump_register.

(** The loop of ec_dump_selected entered with the counter at [i]. *)
Definition dump_loop (i : Z) : itree ecE unit :=
  for_from (Z.of_nat (List.length registers)) dump_register i.

(** One pass through the body of the monitor's [while (true)]. *)
Definition monitor_tick : itree ecE unit :=
  temp <- ec_read 0x00 ;;
  (if temp >? 75 then printf fmt_warning [temp] else Ret tt) ;;
  sleep 1.

(** The thread routine; its result is the returned pointer (NULL is 0). *)
Definition ec_monitor_loop : itree ecE Z :=
  printf fmt_monitor_start [] ;;
  while (Ret true) monitor_tick ;;
  Ret 0.

Definition acpi_check : itree ecE unit :=
  printf fmt_acpi_header [] ;;
  acpi_flag <- ec_read 0x01 ;;
  printf fmt_acpi_flag [acpi_flag].

Definition main : itree ecE Z :=
  ec_init ;;
  ec_dump_selected ;;
  monitor_thread <- pthread_create Ec_monitor_loop_routine ;;
  acpi_check ;;
  pthread_join monitor_thread ;;
  Ret 0.

Definition routine_body (r : routine) : itree ecE Z :=
  match r with Ec_monitor_loop_routine => ec_monitor_loop end.

(** ** The world outside the process *)

(** The hardware behind the two ports and the operating system's answer to
    ioperm.  A world is a state machine: a port read may change it (reading
    the data port empties the controller's output buffer). *)
Class World (W : Type) : Type := {
  w_inb : port -> W -> Z * W;
  w_outb : u8 -> port -> W -> W;
  w_ioperm : Z -> Z -> Z -> W -> Z * W
}.

(** What an execution leaves behind: every call with its arguments and its
    answer. *)
Inductive ev : Type :=
| EvIn (p : port) (v : u8)
| EvOut (v : u8) (p : port)
| EvIoperm (from num turn_on r : Z)
| EvPerror (s : string)
| EvExit (code : Z)
| EvPrintf (fmt : string) (args : list Z)
| EvSleep (seconds : Z)
| EvCreate (start : routine) (t : tid)
| EvJoin (t : tid).

(** Classes of logged calls. *)
Definition is_write (e : ev) : bool :=
  match e with EvOut _ _ => true | _ => false end.

Definition is_data_read (e : ev) : bool :=
  match e with EvIn p _ => p =? EC_DATA | _ => false end.

Definition is_line (e : ev) : bool :=
  match e with EvPrintf _ _ => true | _ => false end.

Definition is_port_access (e : ev) : bool :=
  match e with EvIn _ _ | EvOut _ _ => true | _ => false end.

(** A busy-wait on the status port: read it for as long as [again] holds
    of the byte read.  ec_wait_ibf and ec_wait_obf are the two instances. *)
Definition poll_loop (again : u8 -> bool) : itree ecE unit :=
  while (s <- inb EC_SC ;; Ret (again s)) (Ret tt).

(** How the process ended. *)
Inductive halt : Type :=
| Exit_called (code : Z)       (* a thread called exit *)
| Main_returned (code : Z).    (* main returned *)

(** Replace the [i]-th element of a list; nothing happens past its end. *)
Fixpoint set_nth {A} (i : nat) (x : A) (l : list A) : list A :=
  match l, i with
  | [], _ => []
  | _ :: l, O => x :: l
  | y :: l, S i => y :: set_nth i x l
  end.

(** How the run of one execution context ends. *)
Inductive outcome (R : Type) : Type :=
| Returned (r : R)        (* the function returned r *)
| Exited (code : Z)       (* the function called exit *)
| Unscheduled             (* a thread call: only [exec] gives it a meaning *)
| Spinning.               (* still running when the fuel ran out *)
Arguments Returned {R} r.
Arguments Exited {R} code.
Arguments Unscheduled {R}.
Arguments Spinning {R}.

Definition stop {R X} (e : ecE X) : outcome R * list ev :=
  match e with
  | Exit code => (Exited code, [EvExit code])
  | _ => (Unscheduled, [])
  end.

(** An outcome other than [Returned], seen from the enclosing sequence. *)
Definition carry {R T} (o : outcome R) : outcome T :=
  match o with
  | Returned _ => Spinning
  | Exited c => Exited c
  | Unscheduled => Unscheduled
  | Spinning => Spinning
  end.

Definition finished {R} (o : outcome R) : Prop := o <> Spinning.

Section Semantics.
Context {W : Type} `{World W}.

(** The calls the world answers by itself.  exit and the two thread calls
    are not among them: they act on the process. *)
Definition answer {X} (e : ecE X) (w : W) : option (X * W * ev) :=
  match e in ecE X return option (X * W * ev) with
  | Inb p => let (v, w') := w_inb p w in Some (to_u8 v, w', EvIn p (to_u8 v))
  | Outb v p => Some (tt, w_outb v p w, EvOut v p)
  | Ioperm f n o => let (r, w') := w_ioperm f n o w in Some (r, w', EvIoperm f n o r)
  | Perror s => Some (tt, w, EvPerror s)
  | Printf fmt args => Some (tt, w, EvPrintf fmt args)
  | Sleep s => Some (tt, w, EvSleep s)
  | Exit _ => None
  | Pthread_create _ => None
  | Pthread_join _ => None
  end.

(** *** One execution context on its own *)

Fixpoint run {R} (fuel : nat) (t : itree ecE R) (w : W)
  : outcome R * W * list ev :=
  match fuel with
  | O => (Spinning, w, [])
  | S fuel =>
    match observe t with
    | RetF r => (Returned r, w, [])
    | TauF t' => run fuel t' w
    | VisF e k =>
      match answer e w with
      | Some (x, w', v) =>
        let '(o, w'', tr) := run fuel (k x) w' in (o, w'', v :: tr)
      | None => let (o, tr) := stop e in (o, w, tr)
      end
    end
  end.

(** *** The whole process under a schedule *)

(** A process is its threads (thread 0 is main, the others are in the order
    of their creation), the world, the log of the calls made so far, each
    with the thread that made it, and the way the process ended if it
    has. *)
Record process : Type := {
  threads : list (itree ecE Z);
  world : W;
  log : list (tid * ev);
  halted : option halt
}.

Definition boot (w : W) : process :=
  {| threads := [main]; world := w; log := []; halted := None |}.

(** A thread can be joined once its routine has returned. *)
Definition joinable (ts : list (itree ecE Z)) (j : tid) : bool :=
  match nth_error ts j with
  | Some t => match observe t with RetF _ => true | _ => false end
  | None => false
  end.

Definition resume (i : tid) (t : itree ecE Z) (w : W) (es : list (tid * ev))
    (c : process) : process :=
  {| threads := set_nth i t (threads c); world := w;
     log := log c ++ es; halted := halted c |}.

(** exit ends the process; pthread_create appends a thread that starts in
    its routine; pthread_join goes on only if the thread joined has
    returned, and otherwise leaves the caller where it is. *)
Definition control {X} (i : tid) (e : ecE X) (k : X -> itree ecE Z)
    (c : process) : process :=
  match e in ecE X return (X -> itree ecE Z) -> process with
  | Exit code => fun _ =>
    {| threads := threads c; world := world c;
       log := log c ++ [(i, EvExit code)];
       halted := Some (Exit_called code) |}
  | Pthread_create r => fun k =>
    let j := List.length (threads c) in
    {| threads := set_nth i (k j) (threads c) ++ [routine_body r];
       world := world c;
       log := log c ++ [(i, EvCreate r j)];
       halted := halted c |}
  | Pthread_join j => fun k =>
    if joinable (threads c) j
    then resume i (k tt) (world c) [(i, EvJoin j)] c
    else c
  | _ => fun _ => c
  end k.

(** Thread [i] makes its next move: a silent step, a call, or, for main,
    the return that ends the process.  Nothing moves once the process has
    ended, and a thread that does not exist or has returned does not
    move. *)
Definition step (i : tid) (c : process) : process :=
  match halted c with
  | Some _ => c
  | None =>
    match nth_error (threads c) i with
    | None => c
    | Some t =>
      match observe t with
      | RetF r =>
        if Nat.eqb i 0
        then {| threads := threads c; world := world c; log := log c;
                halted := Some (Main_returned r) |}
        else c
      | TauF t' => resume i t' (world c) [] c
      | VisF e k =>
        match answer e (world c) with
        | Some (x, w', v) => resume i (k x) w' [(i, v)] c
        | None => control i e k c
        end
      end
    end
  end.

Fixpoint exec (sched : list tid) (c : process) : process :=
  match sched with
  | [] => c
  | i :: sched => exec sched (step i c)
  end.

(** What a logged call did to the world. *)
Definition apply_ev (w : W) (v : ev) : W :=
  match v with
  | EvIn p _ => snd (w_inb p w)
  | EvOut b p => w_outb b p w
  | EvIoperm f n o _ => snd (w_ioperm f n o w)
  | _ => w
  end.

(** *** Polling the status port *)

(** The byte a read of the status port gives in world [w], and the world
    after it. *)
Definition status (w : W) : u8 := to_u8 (fst (w_inb EC_SC w)).
Definition polled (w : W) : W := snd (w_inb EC_SC w).

(** The status byte of the [j]-th successive read of the status port,
    counted from 0. *)
Definition nth_status (j : nat) (w : W) : u8 := status (Nat.iter j polled w).

(** [k] reads of the status port in a row: what they log and the world
    they leave. *)
Fixpoint poll_trace (k : nat) (w : W) : list ev :=
  match k with
  | O => []
  | S k => EvIn EC_SC (status w) :: poll_trace k (polled w)
  end.

Definition poll_world (k : nat) (w : W) : W := Nat.iter k polled w.

(** The loop conditions of ec_wait_ibf and ec_wait_obf as functions of the
    status byte, and the bits they test. *)
Definition ibf_busy (s : u8) : bool := truthy (Z.land s 0x02).
Definition obf_empty (s : u8) : bool := negb (truthy (Z.land s 0x01)).

Definition IBF (s : u8) : bool := Z.testbit s 1.
Definition OBF (s : u8) : bool := Z.testbit s 0.

(** The first [k] status reads keep a loop with condition [again] going
    and the next one ends it. *)
Definition ends_at (again : u8 -> bool) (k : nat) (w : W) : Prop :=
  (forall j, (j < k)%nat -> again (nth_status j w) = true) /\
  again (nth_status k w) = false.

(** *** What a snapshot leaves in the log *)

(** The interpreted line of a register, if it has one: the rule of the
    switch in ec_dump_selected, as a function of address and value. *)
Definition interpretation (reg value : u8) : list ev :=
  if reg =? 0x50 then [EvPrintf fmt_temperature [value]]
  else if reg =? 0x51 then [EvPrintf fmt_fan_speed [value]]
  else if reg =? 0x52 then [EvPrintf fmt_flag [Z.land value 0x01]]
  else [].

(** The warning of a tick, if the value read calls for one. *)
Definition warning (temp : u8) : list ev :=
  if temp >? 75 then [EvPrintf fmt_warning [temp]] else [].

(** One completed read transaction of register [a]: it starts in world
    [w], returns [v], leaves world [w'] and logs [tr]. *)
Definition reads (a v : u8) (w w' : W) (tr : list ev) : Prop :=
  exists n, run n (ec_read a) w = (Returned v, w', tr).

(** A log made of one read transaction per register of [rs], in order,
    with values [vs], each followed by the raw line of the register and by
    its interpreted line if it has one. *)
Fixpoint snapshot (rs vs : list u8) (w w' : W) (tr : list ev) : Prop :=
  match rs, vs with
  | [], [] => w' = w /\ tr = []
  | r :: rs, v :: vs =>
    exists w1 t1 t2,
      reads r v w w1 t1 /\ snapshot rs vs w1 w' t2 /\
      tr = t1 ++ EvPrintf fmt_register [r; v] :: interpretation r v ++ t2
  | _, _ => False
  end.

(** [n] completed ticks of the monitor in a row. *)
Fixpoint ticks (n : nat) (w w' : W) (tr : list ev) : Prop :=
  match n with
  | O => w' = w /\ tr = []
  | S n =>
    exists w1 t1 t2,
      (exists m, run m monitor_tick w = (Returned tt, w1, t1)) /\
      ticks n w1 w' t2 /\ tr = t1 ++ t2
  end.

End Semantics.

Arguments process W : clear implicits.

(** ** A simulated controller *)

Inductive ec_mode : Type :=
| Idle
| Read_cmd                 (* 0x80 taken, address awaited *)
| Write_cmd                (* 0x81 taken, address awaited *)
| Write_addr (a : u8).     (* address taken, value awaited *)

(** Modelled from the spec: the test double of section 8, a simulated EC
    that implements the IBF/OBF handshake and echoes writes.  After every
    byte the host writes the controller is busy for [latency] status polls,
    during which IBF (bit 1) reads as set and OBF (bit 0) as clear.  Both
    halves of the handshake are enforced: a byte written while IBF shows is
    lost, and the data port hands out the byte of the output buffer only
    while OBF shows; read at any other time it gives 0 and keeps what it
    holds. *)
Record sim_ec : Type := {
  regs : Z -> u8;
  mode : ec_mode;
  outbuf : option u8;
  busy : nat;
  latency : nat;
  granted : bool
}.

Definition sim_status (s : sim_ec) : u8 :=
  Z.lor (if Nat.eqb (busy s) 0 then 0 else 0x02)
        (match outbuf s with
         | Some _ => if Nat.eqb (busy s) 0 then 0x01 else 0
         | None => 0
         end).

Definition sim_tick (s : sim_ec) : sim_ec :=
  {| regs := regs s; mode := mode s; outbuf := outbuf s;
     busy := Nat.pred (busy s); latency := latency s; granted := granted s |}.

Definition sim_inb (p : port) (s : sim_ec) : Z * sim_ec :=
  if p =? EC_SC then (sim_status s, sim_tick s)
  else if p =? EC_DATA then
    match outbuf s with
    | Some v =>
      if Nat.eqb (busy s) 0
      then (v, {| regs := regs s; mode := mode s; outbuf := None;
                  busy := busy s; latency := latency s;
                  granted := granted s |})
      else (0, s)
    | None => (0, s)
    end
  else (0xFF, s).

Definition sim_command (v : u8) : ec_mode :=
  if v =? 0x80 then Read_cmd else if v =? 0x81 then Write_cmd else Idle.

Definition sim_outb (v : u8) (p : port) (s : sim_ec) : sim_ec :=
  if negb (Nat.eqb (busy s) 0) then s
  else if p =? EC_SC then
    {| regs := regs s; mode := sim_command v; outbuf := outbuf s;
       busy := latency s; latency := latency s; granted := granted s |}
  else if p =? EC_DATA then
    match mode s with
    | Idle => s
    | Read_cmd =>
      {| regs := regs s; mode := Idle; outbuf := Some (regs s v);
         busy := latency s; latency := latency s; granted := granted s |}
    | Write_cmd =>
      {| regs := regs s; mode := Write_addr v; outbuf := outbuf s;
         busy := latency s; latency := latency s; granted := granted s |}
    | Write_addr a =>
      {| regs := fun x => if x =? a then v else regs s x; mode := Idle;
         outbuf := outbuf s;
         busy := latency s; latency := latency s; granted := granted s |}
    end
  else s.

Definition sim_ioperm (f n o : Z) (s : sim_ec) : Z * sim_ec :=
  (if granted s then 0 else -1, s).

#[export] Instance sim_world : World sim_ec := {
  w_inb := sim_inb;
  w_outb := sim_outb;
  w_ioperm := sim_ioperm
}.

Definition sim_boot (r : Z -> u8) (lat : nat) (g : bool) : sim_ec :=
  {| regs := r; mode := Idle; outbuf := None; busy := 0; latency := lat;
     granted := g |}.

(** The controller once it has taken the last byte. *)
Definition sim_settled (s : sim_ec) : sim_ec :=
  {| regs := regs s; mode := mode s; outbuf := outbuf s; busy := 0;
     latency := latency s; granted := granted s |}.

(** The simulated controller between write transactions. *)
Definition sim_quiet (s : sim_ec) : Prop := mode s = Idle \/ mode s = Read_cmd.

(** ** The order of calls of a thread *)

(** The log entry of a call that got the answer [x]. *)
Definition ev_of {X} (e : ecE X) : X -> ev :=
  match e in ecE X return X -> ev with
  | Inb p => fun v => EvIn p v
  | Outb v p => fun _ => EvOut v p
  | Ioperm f n o => fun r => EvIoperm f n o r
  | Perror s => fun _ => EvPerror s
  | Exit code => fun _ => EvExit code
  | Printf fmt args => fun _ => EvPrintf fmt args
  | Sleep s => fun _ => EvSleep s
  | Pthread_create r => fun j => EvCreate r j
  | Pthread_join j => fun _ => EvJoin j
  end.

(** Where a thread is in the startup sequence of section 4.5 of the design:
    acquire port access (abort on failure), snapshot, launch of the
    sampler, diagnostic read, join.  The sampler has one phase of its
    own. *)
Inductive phase : Type :=
| Acquire_sc        (* main: ioperm for the command port comes next *)
| Acquire_data      (* main: ioperm for the data port comes next *)
| Denied            (* main: permission refused, perror comes next *)
| Fatal             (* main: exit(1) comes next *)
| Dead              (* main: exit was called *)
| Granted           (* main: the header of the snapshot comes next *)
| In_snapshot       (* main: reading and printing the ten registers *)
| Launched          (* main: sampler created, header of the diagnostic next *)
| In_diagnostic     (* main: in the read of the diagnostic *)
| Diagnosed (v : u8) (* main: [v] read from the data port, its line next *)
| At_join           (* main: the join comes next *)
| Past_join         (* main: the join has returned *)
| Sampling.         (* the sampler thread *)

(** A port access that belongs to a read transaction: any read of the two
    ports, the command byte 0x80, any byte to the data port. *)
Definition read_access (v : ev) : bool :=
  match v with
  | EvIn p _ => (p =? EC_SC) || (p =? EC_DATA)
  | EvOut b p => ((p =? EC_SC) && (b =? 0x80)) || (p =? EC_DATA)
  | _ => false
  end.

Definition snapshot_line (fmt : string) : bool :=
  String.eqb fmt fmt_register || String.eqb fmt fmt_temperature ||
  String.eqb fmt fmt_fan_speed || String.eqb fmt fmt_flag.

Definition sampler_line (fmt : string) : bool :=
  String.eqb fmt fmt_monitor_start || String.eqb fmt fmt_warning.

(** The calls a thread may make in each phase, and the phase each leads
    to.  [None]: the call does not belong there. *)
Definition delta (p : phase) (v : ev) : option phase :=
  match p with
  | Acquire_sc =>
    match v with
    | EvIoperm f n o r =>
      if (f =? EC_SC) && (n =? 1) && (o =? 1)
      then Some (if truthy r then Denied else Acquire_data) else None
    | _ => None
    end
  | Acquire_data =>
    match v with
    | EvIoperm f n o r =>
      if (f =? EC_DATA) && (n =? 1) && (o =? 1)
      then Some (if truthy r then Denied else Granted) else None
    | _ => None
    end
  | Denied =>
    match v with
    | EvPerror s => if String.eqb s "ioperm" then Some Fatal else None
    | _ => None
    end
  | Fatal =>
    match v with
    | EvExit code => if code =? 1 then Some Dead else None
    | _ => None
    end
  | Dead => None
  | Granted =>
    match v with
    | EvPrintf fmt [] =>
      if String.eqb fmt fmt_dump_header then Some In_snapshot else None
    | _ => None
    end
  | In_snapshot =>
    match v with
    | EvPrintf fmt _ => if snapshot_line fmt then Some In_snapshot else None
    | EvCreate Ec_monitor_loop_routine _ => Some Launched
    | _ => if read_access v then Some In_snapshot else None
    end
  | Launched =>
    match v with
    | EvPrintf fmt [] =>
      if String.eqb fmt fmt_acpi_header then Some In_diagnostic else None
    | _ => None
    end
  | In_diagnostic =>
    match v with
    | EvIn p x =>
      if p =? EC_DATA then Some (Diagnosed x)
      else if p =? EC_SC then Some In_diagnostic else None
    | EvOut _ _ => if read_access v then Some In_diagnostic else None
    | _ => None
    end
  | Diagnosed x =>
    match v with
    | EvPrintf fmt [y] =>
      if String.eqb fmt fmt_acpi_flag && (y =? x) then Some At_join else None
    | _ => None
    end
  | At_join =>
    match v with
    | EvJoin _ => Some Past_join
    | _ => None
    end
  | Past_join => Some Past_join
  | Sampling =>
    match v with
    | EvPrintf fmt _ => if sampler_line fmt then Some Sampling else None
    | EvSleep _ => Some Sampling
    | _ => if read_access v then Some Sampling else None
    end
  end.

(** The calls main makes between the header of the snapshot and the
    launch, and between the header of the diagnostic and the read of the
    data port that ends its one transaction. *)
Definition snapshot_call (v : ev) : bool :=
  match v with
  | EvPrintf fmt _ => snapshot_line fmt
  | _ => read_access v
  end.

Definition diagnostic_call (v : ev) : bool :=
  match v with
  | EvIn p _ => p =? EC_SC
  | EvOut _ _ => read_access v
  | _ => false
  end.

(** The log of main when permission was given for both ports, and when it
    was refused for one. *)
Definition granted_log : list ev :=
  [EvIoperm EC_SC 1 1 0; EvIoperm EC_DATA 1 1 0].

Definition refused_log (l : list ev) : Prop :=
  (exists r, r <> 0 /\ l = [EvIoperm EC_SC 1 1 r]) \/
  (exists r, r <> 0 /\ l = [EvIoperm EC_SC 1 1 0; EvIoperm EC_DATA 1 1 r]).

(** The startup sequence, spelled out: what the log of main looks like in
    each phase. *)
Definition startup_order (p : phase) (l : list ev) : Prop :=
  match p with
  | Acquire_sc => l = []
  | Acquire_data => l = [EvIoperm EC_SC 1 1 0]
  | Denied => refused_log l
  | Fatal => exists l0, refused_log l0 /\ l = l0 ++ [EvPerror "ioperm"]
  | Dead =>
    exists l0, refused_log l0 /\ l = l0 ++ [EvPerror "ioperm"; EvExit 1]
  | Granted => l = granted_log
  | In_snapshot =>
    exists s,
      l = granted_log ++ EvPrintf fmt_dump_header [] :: s /\
      forallb snapshot_call s = true
  | Launched =>
    exists s j,
      l = granted_log ++ EvPrintf fmt_dump_header [] :: s ++
          [EvCreate Ec_monitor_loop_routine j] /\
      forallb snapshot_call s = true
  | In_diagnostic =>
    exists s j d,
      l = granted_log ++ EvPrintf fmt_dump_header [] :: s ++
          EvCreate Ec_monitor_loop_routine j ::
          EvPrintf fmt_acpi_header [] :: d /\
      forallb snapshot_call s = true /\ forallb diagnostic_call d = true
  | Diagnosed x =>
    exists s j d,
      l = granted_log ++ EvPrintf fmt_dump_header [] :: s ++
          EvCreate Ec_monitor_loop_routine j ::
          EvPrintf fmt_acpi_header [] :: d ++ [EvIn EC_DATA x] /\
      forallb snapshot_call s = true /\ forallb diagnostic_call d = true
  | At_join =>
    exists s j d x,
      l = granted_log ++ EvPrintf fmt_dump_header [] :: s ++
          EvCreate Ec_monitor_loop_routine j ::
          EvPrintf fmt_acpi_header [] :: d ++
          [EvIn EC_DATA x; EvPrintf fmt_acpi_flag [x]] /\
      forallb snapshot_call s = true /\ forallb diagnostic_call d = true
  | Past_join => True
  | Sampling => False
  end.

(** The phase a thread is in after the calls [l], from phase [p]. *)
Fixpoint replay (p : phase) (l : list ev) : option phase :=
  match l with
  | [] => Some p
  | v :: l => match delta p v with Some p' => replay p' l | None => None end
  end.

(** exit gets no answer, so its place in the order is checked apart. *)
Definition exit_ok {X} (p : phase) (e : ecE X) : Prop :=
  match e with
  | Exit code => delta p (EvExit code) <> None
  | _ => True
  end.

(** For its next [n] steps, [t] started in phase [p] makes only calls that
    belong where it is, and if it returns within them, [Q] holds of the
    phase it has reached and of its result. *)
Fixpoint conforms {R} (n : nat) (p : phase) (t : itree ecE R)
    (Q : phase -> R -> Prop) : Prop :=
  match n with
  | O => True
  | S n =>
    match observe t with
    | RetF r => Q p r
    | TauF t' => conforms n p t' Q
    | VisF e k =>
      exit_ok p e /\
      forall x, exists p', delta p (ev_of e x) = Some p' /\ conforms n p' (k x) Q
    end
  end.

(** A thread keeps to the order for ever, and returns only past the
    join. *)
Definition follows (p : phase) (t : itree ecE Z) : Prop :=
  forall n, conforms n p t (fun p' _ => p' = Past_join).

(** The calls of thread [i] in a log, and the phase a thread starts in. *)
Definition thread_log (i : tid) (l : list (tid * ev)) : list ev :=
  map snd (filter (fun x => Nat.eqb (fst x) i) l).

Definition start_phase (i : tid) : phase :=
  match i with O => Acquire_sc | S _ => Sampling end.

(** The phases in which transactions are made. *)
Definition port_phase (p : phase) : Prop :=
  p = In_snapshot \/ p = In_diagnostic \/ p = Sampling.

(** The phase after the read of the data port that ends a transaction. *)
Definition data_read (p : phase) (v : u8) : phase :=
  match p with
  | In_diagnostic => Diagnosed v
  | _ => p
  end.

(** The phases of main before the sampler exists. *)
Definition pre_launch (p : phase) : bool :=
  match p with
  | Acquire_sc | Acquire_data | Denied | Fatal | Dead | Granted
  | In_snapshot => true
  | _ => false
  end.

(** The postcondition of a function that ends in phase [p]. *)
Abbreviation stays p := (fun p' _ => p' = p) (only parsing).

(** The moves a schedule gives to main. *)
Definition main_moves (sched : list tid) : nat :=
  List.length (filter (Nat.eqb 0) sched).

(** A call that is not a write, or is a write of a read transaction. *)
Definition harmless (v : ev) : Prop :=
  forall b q, v = EvOut b q -> read_access v = true.

(** ** Transactions in a log *)

(** How far a thread is into a transaction, going by its port accesses: a
    transaction starts at the first access after the one before it ended;
    a read ends with the read of the data port, a write with the second
    byte to the data port after the command 0x81. *)
Inductive tx : Type :=
| Quiet
| Started
| Writing (bytes : nat).

Definition tx_next (s : tx) (v : ev) : tx :=
  match v with
  | EvIn p _ => if p =? EC_DATA then Quiet else
                  match s with Quiet => Started | _ => s end
  | EvOut b p =>
    if p =? EC_SC then (if b =? 0x81 then Writing 0 else Started)
    else match s with
         | Writing O => Writing 1
         | Writing (S _) => Quiet
         | _ => Started
         end
  | _ => s
  end.

(** No port access of one thread falls inside a transaction of another:
    what a lock around every transaction would guarantee. *)
Fixpoint serialized_from (open : option (tid * tx)) (l : list (tid * ev)) : bool :=
  match l with
  | [] => true
  | (i, v) :: l =>
    if is_port_access v then
      match open with
      | Some (j, s) =>
        if Nat.eqb i j then
          match tx_next s v with
          | Quiet => serialized_from None l
          | s' => serialized_from (Some (i, s')) l
          end
        else false
      | None =>
        match tx_next Quiet v with
        | Quiet => serialized_from None l
        | s' => serialized_from (Some (i, s')) l
        end
      end
    else serialized_from open l
  end.

Definition serialized (l : list (tid * ev)) : bool := serialized_from None l.

(** Thread [i] stands at a pthread_join that cannot go on. *)
Definition blocked_at_join {W} (i : tid) (c : process W) : bool :=
  match halted c, nth_error (threads c) i with
  | None, Some t =>
    match observe t with
    | VisF e _ =>
      match e with
      | Pthread_join j => negb (joinable (threads c) j)
      | _ => false
      end
    | _ => false
    end
  | _, _ => false
  end.

(** ** Two executions against the simulated controller *)

(** A controller that answers at once and holds [a + 10] in register [a]. *)
Definition demo_ec : sim_ec := sim_boot (fun a => a + 10) 0 true.

(** main alone up to the creation of the sampler (87 moves). *)
Definition until_launch : list tid := repeat 0%nat 87.

(** After the launch: main prints the header of the diagnostic and gets as
    far as writing the address 0x01; the sampler prints its first line and
    gets as far as writing the address 0x00; main reads the data port and
    prints. *)
Definition racing_schedule : list tid :=
  (until_launch ++ [0; 0; 0; 0; 0] ++ [1; 1; 1; 1; 1] ++ [0; 0; 0])%nat.

(** After the launch: main alone, until it stands at the join. *)
Definition main_only_schedule : list tid := (until_launch ++ repeat 0 8)%nat.

(** ** What holds of the process in every execution *)

Section Consistency.
Context {W : Type} `{World W}.

(** The phase of thread [i], read off the log. *)
Definition phase_of (c : process W) (i : tid) : option phase :=
  replay (start_phase i) (thread_log i (log c)).

(** What holds of the process at every point of every execution. *)
Record consistent (c : process W) : Prop := {
  cons_main : threads c <> [];
  cons_tids : forall i v, In (i, v) (log c) -> (i < List.length (threads c))%nat;
  cons_threads : forall i t,
    nth_error (threads c) i = Some t ->
    exists p, phase_of c i = Some p /\ p <> Past_join /\
              (i <> 0%nat -> p = Sampling) /\
              (halted c = None -> follows p t);
  cons_halted : forall h,
    halted c = Some h -> h = Exit_called 1 /\ phase_of c 0%nat = Some Dead;
  cons_alone : forall p,
    phase_of c 0%nat = Some p -> pre_launch p = true ->
    List.length (threads c) = 1%nat
}.

End Consistency.

(** ** Calls the program can make at all *)

(** The register addresses the program asks for: the monitored register,
    the register of the diagnostic, and the table of ec_dump_selected. *)
Definition catalog : list u8 := 0x00 :: 0x01 :: registers.

(** The percent sign. *)
Definition percent : Ascii.ascii := Ascii.ascii_of_nat 37.

(** The conversion specifications of a printf format: every percent sign
    that is not followed by a second one starts one. *)
Fixpoint conversions (fmt : string) : nat :=
  match fmt with
  | EmptyString => O
  | String c rest =>
    if Ascii.eqb c percent then
      match rest with
      | String c' rest' =>
        if Ascii.eqb c' percent then conversions rest'
        else S (conversions rest)
      | EmptyString => O
      end
    else conversions rest
  end.

(** A call with the arguments the source gives it somewhere: the two ports
    and no other, 0x80 as the only command byte, an address of the catalog
    as the only byte to the data port, permission for one port at a time,
    exit status 1, one second of sleep, and as many printf arguments as the
    format has conversions. *)
Definition expected_call (v : ev) : bool :=
  match v with
  | EvIn p _ => (p =? EC_SC) || (p =? EC_DATA)
  | EvOut b p =>
    ((p =? EC_SC) && (b =? 0x80)) ||
    ((p =? EC_DATA) && existsb (Z.eqb b) catalog)
  | EvIoperm f n o _ => ((f =? EC_SC) || (f =? EC_DATA)) && (n =? 1) && (o =? 1)
  | EvPerror s => String.eqb s "ioperm"
  | EvExit code => code =? 1
  | EvPrintf fmt args => Nat.eqb (conversions fmt) (List.length args)
  | EvSleep s => s =? 1
  | EvCreate _ _ => true
  | EvJoin _ => true
  end.

(** *** Watching the calls of a thread *)

(** A rule on the calls of one thread: a state, and for each state the
    calls allowed in it with the state each leads to. *)
Section Rules.
Context {St : Type}.
Variable rule : St -> ev -> option St.

(** The states in which a thread may take time of its own before its next
    call. *)
Variable quiet : St -> Prop.

(** The state after the calls [l], if the rule allows them all. *)
Fixpoint accepts (q : St) (l : list ev) : option St :=
  match l with
  | [] => Some q
  | v :: l => match rule q v with Some q' => accepts q' l | None => None end
  end.

Definition exit_allowed {X} (q : St) (e : ecE X) : Prop :=
  match e with
  | Exit code => rule q (EvExit code) <> None
  | _ => True
  end.

(** For its next [n] steps, [t] started in state [q] makes only calls the
    rule allows, whatever the answers it gets, makes a silent step only in
    a quiet state, and if it returns within them, [Q] holds of the state it
    has reached and of its result. *)
Fixpoint obeys {R} (n : nat) (q : St) (t : itree ecE R)
    (Q : St -> R -> Prop) : Prop :=
  match n with
  | O => True
  | S n =>
    match observe t with
    | RetF r => Q q r
    | TauF t' => quiet q /\ obeys n q t' Q
    | VisF e k =>
      exit_allowed q e /\
      forall x, exists q', rule q (ev_of e x) = Some q' /\ obeys n q' (k x) Q
    end
  end.

Definition always_obeys (q : St) (t : itree ecE Z) : Prop :=
  forall n, obeys n q t (fun _ _ => True).

End Rules.

(** Every state is quiet: the rule is on the calls alone. *)
Definition anywhere {St} (q : St) : Prop := True.

(** Every thread of the process has kept to the rule so far, thread [i]
    from the state [q0 i], and will keep to it. *)
Definition watched {W St} (rule : St -> ev -> option St) (quiet : St -> Prop)
    (q0 : tid -> St) (c : process W) : Prop :=
  forall i t,
    nth_error (threads c) i = Some t ->
    exists q, accepts rule (q0 i) (thread_log i (log c)) = Some q /\
              (halted c = None -> always_obeys rule quiet q t).

(** The rule with one state that allows the expected calls. *)
Definition expected (q : unit) (v : ev) : option unit :=
  if expected_call v then Some q else None.

(** The handshake, as a rule: what a thread knows of the controller is the
    status byte it read last, and only if it has made no other call
    since. *)
Inductive shake : Type :=
| Unpolled
| Polled (s : u8).

(** A write to a port is allowed straight after a status byte with IBF
    clear, a read of the data port straight after a status byte with OBF
    set. *)
Definition shake_next (q : shake) (v : ev) : option shake :=
  match v with
  | EvIn p s =>
    if p =? EC_SC then Some (Polled s)
    else match q with
         | Polled s0 => if OBF s0 then Some Unpolled else None
         | Unpolled => None
         end
  | EvOut _ _ =>
    match q with
    | Polled s0 => if IBF s0 then None else Some Unpolled
    | Unpolled => None
    end
  | _ => Some Unpolled
  end.

(** The sampler, as a rule on the calls of its thread: its first line,
    then tick after tick; in a tick the port accesses of the read of
    register 0x00, ended by the read of the data port, then the warning if
    and only if the value read is above 75, then one second of sleep. *)
Inductive sampler_state : Type :=
| Fresh                (* nothing done yet *)
| Fetching             (* in the read transaction of a tick *)
| Fetched (temp : u8)  (* the data port gave [temp] *)
| Warned               (* the warning is out *)
| Unwatched.           (* not a sampler *)

Definition sampler_next (q : sampler_state) (v : ev) : option sampler_state :=
  match q with
  | Fresh =>
    match v with
    | EvPrintf fmt [] =>
      if String.eqb fmt fmt_monitor_start then Some Fetching else None
    | _ => None
    end
  | Fetching =>
    match v with
    | EvIn p x => if p =? EC_DATA then Some (Fetched x) else Some Fetching
    | EvOut b p =>
      if ((p =? EC_SC) && (b =? 0x80)) || ((p =? EC_DATA) && (b =? 0x00))
      then Some Fetching else None
    | _ => None
    end
  | Fetched temp =>
    match v with
    | EvPrintf fmt [x] =>
      if String.eqb fmt fmt_warning && (x =? temp) && (temp >? 75)
      then Some Warned else None
    | EvSleep s => if (s =? 1) && negb (temp >? 75) then Some Fetching else None
    | _ => None
    end
  | Warned =>
    match v with
    | EvSleep s => if s =? 1 then Some Fetching else None
    | _ => None
    end
  | Unwatched => Some Unwatched
  end.

(** main is not a sampler; every other thread is. *)
Definition sampler_start (i : tid) : sampler_state :=
  match i with O => Unwatched | S _ => Fresh end.

(** *** Where a thread stands in its code *)

(** [t'] is where the code [t] stands once it has made the calls [l] and
    got the answers logged with them. *)
Inductive stands_after {R} : itree ecE R -> list ev -> itree ecE R -> Prop :=
| stands_here t : stands_after t [] t
| stands_silent t t1 l t' :
    observe t = TauF t1 -> stands_after t1 l t' -> stands_after t l t'
| stands_call t X (e : ecE X) k x l t' :
    observe t = VisF e k -> stands_after (k x) l t' ->
    stands_after t (ev_of e x :: l) t'.

(** The code of a thread: thread 0 runs main, and a thread that was created
    runs ec_monitor_loop, the routine main passes to pthread_create. *)
Definition code_of (i : tid) : itree ecE Z :=
  match i with O => main | S _ => ec_monitor_loop end.

(** As long as the process has not ended, every thread stands in its code
    where the calls of its log have taken it. *)
Definition in_code {W} (c : process W) : Prop :=
  halted c = None ->
  forall i t, nth_error (threads c) i = Some t ->
              stands_after (code_of i) (thread_log i (log c)) t.

(** The thread that thread [i] stands to join, if its next call is a
    pthread_join. *)
Definition join_target {W} (i : tid) (c : process W) : option tid :=
  match halted c, nth_error (threads c) i with
  | None, Some t =>
    match observe t with
    | VisF e _ =>
      match e with
      | Pthread_join j => Some j
      | _ => None
      end
    | _ => None
    end
  | _, _ => None
  end.

(** The thread calls of main, as a rule on the calls of a thread: it
    creates one thread at most; the line of the diagnostic is printed after
    the creation, and what comes after this line is the join of the thread
    created, at once. *)
Inductive stage : Type :=
| Working (created : option tid)   (* before the line of the diagnostic *)
| Joining (j : tid).               (* the line is out: thread [j] is joined next *)

Definition stage_next (q : stage) (v : ev) : option stage :=
  match q with
  | Working created =>
    match v with
    | EvCreate _ j =>
      match created with None => Some (Working (Some j)) | Some _ => None end
    | EvJoin _ => None
    | EvPrintf fmt _ =>
      if String.eqb fmt fmt_acpi_flag
      then match created with Some j => Some (Joining j) | None => None end
      else Some q
    | _ => Some q
    end
  | Joining j =>
    match v with
    | EvJoin j' => if Nat.eqb j' j then Some (Working None) else None
    | _ => None
    end
  end.

(** Once the line of the diagnostic is out main takes no step of its own:
    it stands at the join. *)
Definition may_idle (q : stage) : Prop :=
  match q with Working _ => True | Joining _ => False end.

(** The thread a stage names: the one created, the one to join. *)
Definition named (q : stage) : option tid :=
  match q with Working created => created | Joining j => Some j end.

Definition is_create (v : ev) : bool :=
  match v with EvCreate _ _ => true | _ => false end.

Definition is_sleep (v : ev) : bool :=
  match v with EvSleep _ => true | _ => false end.

(* ================================================================== *)
(** * Facts *)

(** ** [run]: fuel, sequencing *)

Section RunFacts.
Context {W : Type} `{World W}.

Lemma run_observe {R} (t t' : itree ecE R) n w :
  observe t = observe t' -> run n t w = run n t' w.
Proof. intros E. destruct n; simpl; [reflexivity | now rewrite E]. Qed.

Lemma run_tau {R} (t : itree ecE R) n w : run (S n) (Tau t) w = run n t w.
Proof. reflexivity. Qed.

Lemma run_vis {R X} (e : ecE X) (k : X -> itree ecE R) n w :
  run (S n) (Vis e k) w =
  match answer e w with
  | Some (x, w', v) => let '(o, w'', tr) := run n (k x) w' in (o, w'', v :: tr)
  | None => let (o, tr) := stop e in (o, w, tr)
  end.
Proof. reflexivity. Qed.

Lemma run_mono {R} n : forall (t : itree ecE R) w o w' tr,
  run n t w = (o, w', tr) -> finished o ->
  forall m, (n <= m)%nat -> run m t w = (o, w', tr).
Proof.
  induction n as [|n IH]; intros t w o w' tr E F m L.
  - simpl in E. inversion E; subst. now elim F.
  - destruct m as [|m]; [lia|]. simpl in *.
    destruct (observe t) as [r | t' | X e k]; auto.
    + apply IH; auto. lia.
    + destruct (answer e w) as [[[x w1] v]|]; auto.
      destruct (run n (k x) w1) as [[o1 w2] tr1] eqn:E1.
      inversion E; subst.
      rewrite (IH _ _ _ _ _ E1 F m) by lia. reflexivity.
Qed.

Lemma run_deterministic {R} (t : itree ecE R) w n m o1 w1 tr1 o2 w2 tr2 :
  run n t w = (o1, w1, tr1) -> finished o1 ->
  run m t w = (o2, w2, tr2) -> finished o2 ->
  (o1, w1, tr1) = (o2, w2, tr2).
Proof.
  intros E1 F1 E2 F2.
  destruct (Nat.le_ge_cases n m) as [L|L].
  - rewrite <- E2. symmetry. eapply run_mono; eauto.
  - rewrite <- E1. eapply run_mono; eauto.
Qed.

(** Sequencing, forwards: the first part returns, then the rest runs. *)
Lemma run_bind {R T} (t : itree ecE R) (k : R -> itree ecE T) n :
  forall w r w1 tr1 m o w2 tr2,
  run n t w = (Returned r, w1, tr1) ->
  run m (k r) w1 = (o, w2, tr2) -> finished o ->
  run (n + m) (ITree.bind t k) w = (o, w2, tr1 ++ tr2).
Proof.
  revert t. induction n as [|n IH]; intros t w r w1 tr1 m o w2 tr2 E1 E2 F.
  - simpl in E1. discriminate.
  - simpl in E1. destruct (observe t) as [r0 | t' | X e k0] eqn:Ot.
    + inversion E1; subst.
      rewrite (run_observe (ITree.bind t k) (k r)) by (rewrite observe_bind, Ot; reflexivity).
      simpl app. eapply run_mono; eauto. lia.
    + rewrite (run_observe (ITree.bind t k) (Tau (ITree.bind t' k)))
        by (rewrite observe_bind, Ot; reflexivity).
      change (S n + m)%nat with (S (n + m)). rewrite run_tau. eauto.
    + rewrite (run_observe (ITree.bind t k) (Vis e (fun x => ITree.bind (k0 x) k)))
        by (rewrite observe_bind, Ot; reflexivity).
      change (S n + m)%nat with (S (n + m)). simpl.
      destruct (answer e w) as [[[x w'] v]|].
      * destruct (run n (k0 x) w') as [[o1 w1'] tr1'] eqn:E.
        inversion E1; subst.
        rewrite (IH _ _ _ _ _ _ _ _ _ E E2 F). reflexivity.
      * destruct e; simpl in E1; discriminate.
Qed.

(** Sequencing, forwards: the first part stops the run. *)
Lemma run_bind_stop {R T} (t : itree ecE R) (k : R -> itree ecE T) n :
  forall w o w1 tr1,
  run n t w = (o, w1, tr1) -> (forall r, o <> Returned r) ->
  run n (ITree.bind t k) w = (carry o, w1, tr1).
Proof.
  revert t. induction n as [|n IH]; intros t w o w1 tr1 E1 NR.
  - simpl in *. inversion E1; subst. reflexivity.
  - simpl in E1. destruct (observe t) as [r0 | t' | X e k0] eqn:Ot.
    + inversion E1; subst. now elim (NR r0).
    + rewrite (run_observe (ITree.bind t k) (Tau (ITree.bind t' k)))
        by (rewrite observe_bind, Ot; reflexivity).
      rewrite run_tau. eauto.
    + rewrite (run_observe (ITree.bind t k) (Vis e (fun x => ITree.bind (k0 x) k)))
        by (rewrite observe_bind, Ot; reflexivity).
      simpl.
      destruct (answer e w) as [[[x w'] v]|].
      * destruct (run n (k0 x) w') as [[o1 w1'] tr1'] eqn:E.
        inversion E1; subst.
        rewrite (IH _ _ _ _ _ E NR). reflexivity.
      * destruct e; simpl in *; inversion E1; subst; reflexivity.
Qed.

(** Sequencing, backwards: a finished run of a sequence splits. *)
Lemma run_bind_inv {R T} (t : itree ecE R) (k : R -> itree ecE T) n :
  forall w o w2 tr,
  run n (ITree.bind t k) w = (o, w2, tr) -> finished o ->
  (exists r w1 tr1 tr2,
      run n t w = (Returned r, w1, tr1) /\
      run n (k r) w1 = (o, w2, tr2) /\ tr = tr1 ++ tr2)
  \/ (exists o1, run n t w = (o1, w2, tr) /\ finished o1 /\
                 (forall r, o1 <> Returned r) /\ o = carry o1).
Proof.
  revert t. induction n as [|n IH]; intros t w o w2 tr E F.
  - simpl in E. inversion E; subst. now elim F.
  - destruct (observe t) as [r0 | t' | X e k0] eqn:Ot.
    + rewrite (run_observe (ITree.bind t k) (k r0)) in E
        by (rewrite observe_bind, Ot; reflexivity).
      left. exists r0, w, [], tr.
      rewrite (run_observe t (Ret r0)) by (now rewrite Ot). auto.
    + rewrite (run_observe (ITree.bind t k) (Tau (ITree.bind t' k))) in E
        by (rewrite observe_bind, Ot; reflexivity).
      rewrite run_tau in E.
      rewrite (run_observe t (Tau t')) by (now rewrite Ot). rewrite run_tau.
      destruct (IH _ _ _ _ _ E F)
        as [(r & w1 & tr1 & tr2 & E1 & E2 & ->) | (o1 & E1 & F1 & NR & ->)].
      * left. exists r, w1, tr1, tr2. repeat split; auto.
        eapply run_mono; eauto.
      * right. exists o1. auto.
    + rewrite (run_observe (ITree.bind t k) (Vis e (fun x => ITree.bind (k0 x) k))) in E
        by (rewrite observe_bind, Ot; reflexivity).
      rewrite (run_observe t (Vis e k0)) by (now rewrite Ot).
      rewrite run_vis in E. rewrite run_vis.
      destruct (answer e w) as [[[x w'] v]|].
      * destruct (run n (ITree.bind (k0 x) k) w') as [[o' w''] tr'] eqn:E'.
        inversion E; subst.
        destruct (IH _ _ _ _ _ E' F)
          as [(r & w1 & tr1 & tr2 & E1 & E2 & ->) | (o1 & E1 & F1 & NR & ->)].
        -- left. exists r, w1, (v :: tr1), tr2. rewrite E1. repeat split; auto.
           eapply run_mono; eauto.
        -- right. exists o1. rewrite E1. auto.
      * right. destruct e; simpl in *; inversion E; subst;
          eexists; (split; [reflexivity|]); repeat split; try discriminate.
Qed.

(** Sequencing with the fuel counted: the first part uses up [c] units,
    whatever becomes of the rest. *)
Lemma run_bind_exact {R T} (t : itree ecE R) (k : R -> itree ecE T) n :
  forall w r w1 tr1,
  run n t w = (Returned r, w1, tr1) ->
  exists c, forall m,
    run (c + m) (ITree.bind t k) w =
    (let '(o, w2, tr2) := run m (k r) w1 in (o, w2, tr1 ++ tr2)).
Proof.
  revert t. induction n as [|n IH]; intros t w r w1 tr1 E.
  - simpl in E. discriminate.
  - simpl in E. destruct (observe t) as [r0 | t' | X e k0] eqn:Ot.
    + inversion E; subst. exists 0%nat. intros m.
      rewrite (run_observe (ITree.bind t k) (k r))
        by (rewrite observe_bind, Ot; reflexivity).
      simpl. now destruct (run m (k r) w1) as [[o w2] tr2].
    + destruct (IH _ _ _ _ _ E) as [c C]. exists (S c). intros m.
      rewrite (run_observe (ITree.bind t k) (Tau (ITree.bind t' k)))
        by (rewrite observe_bind, Ot; reflexivity).
      change (S c + m)%nat with (S (c + m)). rewrite run_tau. apply C.
    + destruct (answer e w) as [[[x w'] v]|] eqn:A.
      * destruct (run n (k0 x) w') as [[o1 w1'] tr1'] eqn:E1.
        inversion E; subst.
        destruct (IH _ _ _ _ _ E1) as [c C]. exists (S c). intros m.
        rewrite (run_observe (ITree.bind t k)
                   (Vis e (fun x => ITree.bind (k0 x) k)))
          by (rewrite observe_bind, Ot; reflexivity).
        change (S c + m)%nat with (S (c + m)). rewrite run_vis, A, C.
        now destruct (run m (k r) w1) as [[o w2] tr2].
      * destruct e; simpl in E; discriminate.
Qed.

End RunFacts.

(** ** The wait loops *)

Section WaitFacts.
Context {W : Type} `{World W}.

(** One turn of a wait loop costs two units of fuel. *)
Lemma poll_loop_step again n w :
  run (S (S n)) (poll_loop again) w =
  if again (status w)
  then let '(o, w', tr) := run n (poll_loop again) (polled w) in
       (o, w', EvIn EC_SC (status w) :: tr)
  else (Returned tt, polled w, [EvIn EC_SC (status w)]).
Proof.
  unfold status, polled.
  simpl. destruct (w_inb EC_SC w) as [v w1]. simpl.
  destruct (again (to_u8 v)); reflexivity.
Qed.

Lemma iter_polled j w : Nat.iter j polled (polled w) = polled (Nat.iter j polled w).
Proof. induction j; simpl; congruence. Qed.

Lemma nth_status_S j w : nth_status (S j) w = nth_status j (polled w).
Proof. unfold nth_status. simpl. now rewrite iter_polled. Qed.

Lemma poll_world_S k w : poll_world (S k) w = poll_world k (polled w).
Proof. unfold poll_world. simpl. now rewrite iter_polled. Qed.

Lemma ends_at_O again w : ends_at again 0 w <-> again (status w) = false.
Proof.
  unfold ends_at. split; [intros [_ E]; exact E | intros E; split; [lia | exact E]].
Qed.

Lemma ends_at_S again k w :
  ends_at again (S k) w <-> again (status w) = true /\ ends_at again k (polled w).
Proof.
  unfold ends_at. split.
  - intros [A B]. split; [exact (A 0%nat ltac:(lia)) | split].
    + intros j L. rewrite <- nth_status_S. apply A. lia.
    + now rewrite <- nth_status_S.
  - intros [A [B C]]. split.
    + intros [|j] L; [exact A | rewrite nth_status_S; apply B; lia].
    + now rewrite nth_status_S.
Qed.

(** A wait that meets its condition at the [k]-th read returns after
    [k + 1] reads. *)
Lemma poll_loop_returns again k : forall w,
  ends_at again k w ->
  run (2 * S k) (poll_loop again) w =
  (Returned tt, poll_world (S k) w, poll_trace (S k) w).
Proof.
  induction k as [|k IH]; intros w E.
  - apply ends_at_O in E. change (2 * 1)%nat with 2%nat.
    rewrite poll_loop_step, E. reflexivity.
  - apply ends_at_S in E. destruct E as [A E].
    replace (2 * S (S k))%nat with (S (S (2 * S k))) by lia.
    rewrite poll_loop_step, A, (IH _ E), (poll_world_S (S k) w). reflexivity.
Qed.

(** A wait that is over met its condition, and did nothing but read the
    status port until then. *)
Lemma poll_loop_finished again n : forall w o w' tr,
  run n (poll_loop again) w = (o, w', tr) -> finished o ->
  exists k, ends_at again k w /\ o = Returned tt /\
            w' = poll_world (S k) w /\ tr = poll_trace (S k) w.
Proof.
  induction n as [n IH] using lt_wf_ind; intros w o w' tr E F.
  destruct n as [|[|n]].
  - simpl in E. inversion E; subst. now elim F.
  - simpl in E. destruct (w_inb EC_SC w) as [v w1]. simpl in E.
    inversion E; subst. now elim F.
  - rewrite poll_loop_step in E.
    destruct (again (status w)) eqn:A.
    + destruct (run n (poll_loop again) (polled w)) as [[o1 w1] tr1] eqn:E1.
      inversion E; subst.
      destruct (IH n ltac:(lia) _ _ _ _ E1 F) as (k & K & -> & -> & ->).
      exists (S k). rewrite ends_at_S, (poll_world_S (S k) w). auto.
    + inversion E; subst. exists 0%nat. rewrite ends_at_O. auto.
Qed.

(** A wait whose condition is never met is still running, whatever the
    fuel. *)
Lemma poll_loop_spins again w :
  (forall j, again (nth_status j w) = true) ->
  forall n, fst (fst (run n (poll_loop again) w)) = Spinning.
Proof.
  intros A n.
  destruct (run n (poll_loop again) w) as [[o w'] tr] eqn:E. simpl.
  destruct o; auto;
    destruct (poll_loop_finished _ _ _ _ _ _ E ltac:(discriminate))
      as (k & [_ K] & _); rewrite A in K; discriminate.
Qed.

End WaitFacts.

(** ** Status bits *)

Lemma land_bit (s : Z) (i : Z) : 0 <= i ->
  Z.land s (2 ^ i) = if Z.testbit s i then 2 ^ i else 0.
Proof.
  intros Hi. apply Z.bits_inj'. intros n Hn.
  rewrite Z.land_spec, Z.pow2_bits_eqb by lia.
  destruct (Z.eqb_spec i n) as [->|N].
  - destruct (Z.testbit s n); simpl.
    + now rewrite Z.pow2_bits_true.
    + now rewrite Z.bits_0.
  - rewrite andb_false_r. destruct (Z.testbit s i).
    + now rewrite Z.pow2_bits_false.
    + now rewrite Z.bits_0.
Qed.

Lemma ibf_busy_bit s : ibf_busy s = IBF s.
Proof.
  unfold ibf_busy, IBF, truthy. change 0x02 with (2 ^ 1).
  rewrite land_bit by lia. now destruct (Z.testbit s 1).
Qed.

Lemma obf_empty_bit s : obf_empty s = negb (OBF s).
Proof.
  unfold obf_empty, OBF, truthy. change 0x01 with (2 ^ 0).
  rewrite land_bit by lia. now destruct (Z.testbit s 0).
Qed.

(** ** Calls and waits in a sequence *)

Section SeqFacts.
Context {W : Type} `{World W}.

Lemma run_call_inv {X} (e : ecE X) n w x w1 v o w' tr :
  answer e w = Some (x, w1, v) ->
  run n (ITree.trigger e) w = (o, w', tr) -> finished o ->
  o = Returned x /\ w' = w1 /\ tr = [v].
Proof.
  intros A E F. destruct n as [|[|n]]; simpl in E.
  - inversion E; subst. now elim F.
  - rewrite A in E. inversion E; subst. now elim F.
  - rewrite A in E. inversion E; subst. auto.
Qed.

Lemma run_call {X} (e : ecE X) n w x w1 v :
  answer e w = Some (x, w1, v) ->
  run (S (S n)) (ITree.trigger e) w = (Returned x, w1, [v]).
Proof. intros A. simpl. now rewrite A. Qed.

(** A call followed by the rest of the function. *)
Lemma run_call_then {X R} (e : ecE X) (k : X -> itree ecE R) m w x w1 v o w' tr :
  answer e w = Some (x, w1, v) ->
  run m (k x) w1 = (o, w', tr) -> finished o ->
  run (2 + m) (ITree.bind (ITree.trigger e) k) w = (o, w', v :: tr).
Proof.
  intros A E F.
  exact (run_bind _ k 2 w x w1 [v] m o w' tr (run_call e 0 w x w1 v A) E F).
Qed.

Lemma run_call_then_inv {X R} (e : ecE X) (k : X -> itree ecE R) n w x w1 v o w' tr :
  answer e w = Some (x, w1, v) ->
  run n (ITree.bind (ITree.trigger e) k) w = (o, w', tr) -> finished o ->
  exists tr2, run n (k x) w1 = (o, w', tr2) /\ tr = v :: tr2.
Proof.
  intros A E F.
  destruct (run_bind_inv _ _ _ _ _ _ _ E F)
    as [(r & w2 & tr1 & tr2 & E1 & E2 & ->) | (o1 & E1 & F1 & NR & ->)].
  - destruct (run_call_inv _ _ _ _ _ _ _ _ _ A E1 ltac:(discriminate))
      as (R1 & -> & ->).
    inversion R1; subst. eauto.
  - destruct (run_call_inv _ _ _ _ _ _ _ _ _ A E1 F1) as (-> & _).
    now elim (NR x).
Qed.

(** A wait followed by the rest of the function. *)
Lemma run_wait_then {R} again (rest : itree ecE R) k m w o w' tr :
  ends_at again k w ->
  run m rest (poll_world (S k) w) = (o, w', tr) -> finished o ->
  run (2 * S k + m) (poll_loop again ;; rest) w =
  (o, w', poll_trace (S k) w ++ tr).
Proof.
  intros K E F.
  exact (run_bind _ (fun _ => rest) _ w tt _ _ m o w' tr
           (poll_loop_returns again k w K) E F).
Qed.

Lemma run_wait_then_inv {R} again (rest : itree ecE R) n w o w' tr :
  run n (poll_loop again ;; rest) w = (o, w', tr) -> finished o ->
  exists k tr2, ends_at again k w /\
    run n rest (poll_world (S k) w) = (o, w', tr2) /\
    tr = poll_trace (S k) w ++ tr2.
Proof.
  intros E F.
  destruct (run_bind_inv _ _ _ _ _ _ _ E F)
    as [(r & w2 & tr1 & tr2 & E1 & E2 & ->) | (o1 & E1 & F1 & NR & ->)].
  - destruct (poll_loop_finished _ _ _ _ _ _ E1 ltac:(discriminate))
      as (k & K & _ & -> & ->).
    eauto.
  - destruct (poll_loop_finished _ _ _ _ _ _ E1 F1) as (k & _ & -> & _).
    now elim (NR tt).
Qed.

(** A wait that never meets its condition keeps the whole sequence
    running. *)
Lemma run_wait_then_spins {R} again (rest : itree ecE R) w :
  (forall j, again (nth_status j w) = true) ->
  forall n, fst (fst (run n (poll_loop again ;; rest) w)) = Spinning.
Proof.
  intros A n.
  destruct (run n (poll_loop again ;; rest) w) as [[o w'] tr] eqn:E. simpl.
  destruct o; auto;
    destruct (run_wait_then_inv _ _ _ _ _ _ _ E ltac:(discriminate))
      as (k & _ & [_ K] & _); rewrite A in K; discriminate.
Qed.

Lemma ends_at_ext (f g : u8 -> bool) k (w : W) :
  (forall s, f s = g s) -> ends_at f k w <-> ends_at g k w.
Proof.
  intros E. unfold ends_at. split; intros [A B]; split;
    try (intros j L; specialize (A j L)); congruence.
Qed.

End SeqFacts.

(** ** The two transactions *)

Section Transactions.
Context {W : Type} `{World W}.

Lemma filter_poll_write k (w : W) : filter is_write (poll_trace k w) = [].
Proof. revert w. induction k; simpl; auto. Qed.

Lemma filter_poll_data_read k (w : W) : filter is_data_read (poll_trace k w) = [].
Proof. revert w. induction k; simpl; auto. Qed.

Lemma ec_wait_ibf_poll : ec_wait_ibf = poll_loop ibf_busy.
Proof. reflexivity. Qed.

Lemma ec_wait_obf_poll : ec_wait_obf = poll_loop obf_empty.
Proof. reflexivity. Qed.

Lemma ends_at_ibf k (w : W) : ends_at ibf_busy k w <-> ends_at IBF k w.
Proof. apply ends_at_ext, ibf_busy_bit. Qed.

Lemma ends_at_obf k (w : W) :
  ends_at obf_empty k w <-> ends_at (fun s => negb (OBF s)) k w.
Proof. apply ends_at_ext, obf_empty_bit. Qed.

Lemma answer_outb v p (w : W) :
  answer (Outb v p) w = Some (tt, w_outb v p w, EvOut v p).
Proof. reflexivity. Qed.

Lemma answer_inb p (w : W) :
  answer (Inb p) w =
  Some (to_u8 (fst (w_inb p w)), snd (w_inb p w), EvIn p (to_u8 (fst (w_inb p w)))).
Proof. simpl. now destruct (w_inb p w). Qed.

Lemma ec_read_finished (addr : u8) (w : W) :
  (forall n o w' tr,
     run n (ec_read addr) w = (o, w', tr) -> finished o ->
     exists k1 k2 k3,
       let w1 := w_outb 0x80 EC_SC (poll_world (S k1) w) in
       let w2 := w_outb addr EC_DATA (poll_world (S k2) w1) in
       let w3 := poll_world (S k3) w2 in
       let v := to_u8 (fst (w_inb EC_DATA w3)) in
       ends_at IBF k1 w /\ ends_at IBF k2 w1 /\
       ends_at (fun s => negb (OBF s)) k3 w2 /\
       tr = poll_trace (S k1) w ++ EvOut 0x80 EC_SC ::
            poll_trace (S k2) w1 ++ EvOut addr EC_DATA ::
            poll_trace (S k3) w2 ++ [EvIn EC_DATA v] /\
       o = Returned v /\ w' = snd (w_inb EC_DATA w3)).
Proof.
  unfold ec_read. rewrite ec_wait_ibf_poll, ec_wait_obf_poll.
  intros n o w' tr E F.
    apply run_wait_then_inv in E; auto. destruct E as (k1 & t1 & K1 & E & ->).
    eapply run_call_then_inv in E; [| apply answer_outb | auto].
    destruct E as (t2 & E & ->).
    apply run_wait_then_inv in E; auto. destruct E as (k2 & t3 & K2 & E & ->).
    eapply run_call_then_inv in E; [| apply answer_outb | auto].
    destruct E as (t4 & E & ->).
    apply run_wait_then_inv in E; auto. destruct E as (k3 & t5 & K3 & E & ->).
    eapply run_call_inv in E; [| apply answer_inb | auto].
    destruct E as (-> & -> & ->).
    exists k1, k2, k3. cbv zeta.
    rewrite <- ends_at_ibf, <- ends_at_ibf, <- ends_at_obf. auto 10.
Qed.

Lemma ec_read_returns (addr : u8) (w : W) :
  (forall k1 k2 k3,
     let w1 := w_outb 0x80 EC_SC (poll_world (S k1) w) in
     let w2 := w_outb addr EC_DATA (poll_world (S k2) w1) in
     let w3 := poll_world (S k3) w2 in
     let v := to_u8 (fst (w_inb EC_DATA w3)) in
     ends_at IBF k1 w -> ends_at IBF k2 w1 ->
     ends_at (fun s => negb (OBF s)) k3 w2 ->
     exists n,
       run n (ec_read addr) w =
       (Returned v, snd (w_inb EC_DATA w3),
        poll_trace (S k1) w ++ EvOut 0x80 EC_SC ::
        poll_trace (S k2) w1 ++ EvOut addr EC_DATA ::
        poll_trace (S k3) w2 ++ [EvIn EC_DATA v])).
Proof.
  unfold ec_read. rewrite ec_wait_ibf_poll, ec_wait_obf_poll.
  intros k1 k2 k3 K1 K2 K3.
    apply ends_at_ibf in K1. apply ends_at_ibf in K2. apply ends_at_obf in K3.
    eexists.
    eapply run_wait_then; [exact K1 | | discriminate].
    eapply run_call_then; [apply answer_outb | | discriminate].
    eapply run_wait_then; [exact K2 | | discriminate].
    eapply run_call_then; [apply answer_outb | | discriminate].
    eapply run_wait_then; [exact K3 | | discriminate].
    eapply (run_call _ 0). apply answer_inb.
Qed.

(** C1.  Whatever the register address and whatever the hardware does, an
    invocation of ec_read that returns has made exactly these port
    accesses, in this order: status reads until one shows bit 1 clear, the
    write of 0x80 to the command port; status reads until one shows bit 1
    clear, the write of the address to the data port; status reads until
    one shows bit 0 set, one read of the data port; and it returns the byte
    of that last read.  It neither exits nor stops any other way.
    Conversely, whenever the three waits are met, the invocation returns. *)
Theorem ec_read_port_accesses (addr : u8) (w : W) :
  (forall n o w' tr,
     run n (ec_read addr) w = (o, w', tr) -> finished o ->
     exists k1 k2 k3,
       let w1 := w_outb 0x80 EC_SC (poll_world (S k1) w) in
       let w2 := w_outb addr EC_DATA (poll_world (S k2) w1) in
       let w3 := poll_world (S k3) w2 in
       let v := to_u8 (fst (w_inb EC_DATA w3)) in
       ends_at IBF k1 w /\ ends_at IBF k2 w1 /\
       ends_at (fun s => negb (OBF s)) k3 w2 /\
       tr = poll_trace (S k1) w ++ EvOut 0x80 EC_SC ::
            poll_trace (S k2) w1 ++ EvOut addr EC_DATA ::
            poll_trace (S k3) w2 ++ [EvIn EC_DATA v] /\
       o = Returned v /\ w' = snd (w_inb EC_DATA w3))
  /\
  (forall k1 k2 k3,
     let w1 := w_outb 0x80 EC_SC (poll_world (S k1) w) in
     let w2 := w_outb addr EC_DATA (poll_world (S k2) w1) in
     let w3 := poll_world (S k3) w2 in
     let v := to_u8 (fst (w_inb EC_DATA w3)) in
     ends_at IBF k1 w -> ends_at IBF k2 w1 ->
     ends_at (fun s => negb (OBF s)) k3 w2 ->
     exists n,
       run n (ec_read addr) w =
       (Returned v, snd (w_inb EC_DATA w3),
        poll_trace (S k1) w ++ EvOut 0x80 EC_SC ::
        poll_trace (S k2) w1 ++ EvOut addr EC_DATA ::
        poll_trace (S k3) w2 ++ [EvIn EC_DATA v])).
Proof.
  split; [apply ec_read_finished | apply ec_read_returns].
Qed.

Lemma ec_write_finished (addr value : u8) (w : W) :
  (forall n o w' tr,
     run n (ec_write addr value) w = (o, w', tr) -> finished o ->
     exists k1 k2 k3,
       let w1 := w_outb 0x81 EC_SC (poll_world (S k1) w) in
       let w2 := w_outb addr EC_DATA (poll_world (S k2) w1) in
       let w3 := w_outb value EC_DATA (poll_world (S k3) w2) in
       ends_at IBF k1 w /\ ends_at IBF k2 w1 /\ ends_at IBF k3 w2 /\
       tr = poll_trace (S k1) w ++ EvOut 0x81 EC_SC ::
            poll_trace (S k2) w1 ++ EvOut addr EC_DATA ::
            poll_trace (S k3) w2 ++ [EvOut value EC_DATA] /\
       o = Returned tt /\ w' = w3 /\
       filter is_write tr =
         [EvOut 0x81 EC_SC; EvOut addr EC_DATA; EvOut value EC_DATA] /\
       filter is_data_read tr = []).
Proof.
  unfold ec_write. rewrite ec_wait_ibf_poll.
  intros n o w' tr E F.
    apply run_wait_then_inv in E; auto. destruct E as (k1 & t1 & K1 & E & ->).
    eapply run_call_then_inv in E; [| apply answer_outb | auto].
    destruct E as (t2 & E & ->).
    apply run_wait_then_inv in E; auto. destruct E as (k2 & t3 & K2 & E & ->).
    eapply run_call_then_inv in E; [| apply answer_outb | auto].
    destruct E as (t4 & E & ->).
    apply run_wait_then_inv in E; auto. destruct E as (k3 & t5 & K3 & E & ->).
    eapply run_call_inv in E; [| apply answer_outb | auto].
    destruct E as (-> & -> & ->).
    exists k1, k2, k3. cbv zeta.
    rewrite <- !ends_at_ibf.
    repeat (rewrite ?filter_app; cbn [filter is_write is_data_read]).
    rewrite !filter_poll_write, !filter_poll_data_read. auto 10.
Qed.

Lemma ec_write_returns (addr value : u8) (w : W) :
  (forall k1 k2 k3,
     let w1 := w_outb 0x81 EC_SC (poll_world (S k1) w) in
     let w2 := w_outb addr EC_DATA (poll_world (S k2) w1) in
     let w3 := w_outb value EC_DATA (poll_world (S k3) w2) in
     ends_at IBF k1 w -> ends_at IBF k2 w1 -> ends_at IBF k3 w2 ->
     exists n,
       run n (ec_write addr value) w =
       (Returned tt, w3,
        poll_trace (S k1) w ++ EvOut 0x81 EC_SC ::
        poll_trace (S k2) w1 ++ EvOut addr EC_DATA ::
        poll_trace (S k3) w2 ++ [EvOut value EC_DATA])).
Proof.
  unfold ec_write. rewrite ec_wait_ibf_poll.
  intros k1 k2 k3 K1 K2 K3.
    apply ends_at_ibf in K1. apply ends_at_ibf in K2. apply ends_at_ibf in K3.
    eexists.
    eapply run_wait_then; [exact K1 | | discriminate].
    eapply run_call_then; [apply answer_outb | | discriminate].
    eapply run_wait_then; [exact K2 | | discriminate].
    eapply run_call_then; [apply answer_outb | | discriminate].
    eapply run_wait_then; [exact K3 | | discriminate].
    eapply (run_call _ 0). apply answer_outb.
Qed.

(** C2.  Whatever the address, the value and the hardware, an invocation
    of ec_write that returns has made exactly these port accesses, in this
    order: status reads until one shows bit 1 clear, the write of 0x81 to
    the command port; the same wait, the write of the address to the data
    port; the same wait, the write of the value to the data port.  Its
    writes are these three and it never reads the data port.  Conversely,
    whenever the three waits are met, the invocation returns. *)
Theorem ec_write_port_accesses (addr value : u8) (w : W) :
  (forall n o w' tr,
     run n (ec_write addr value) w = (o, w', tr) -> finished o ->
     exists k1 k2 k3,
       let w1 := w_outb 0x81 EC_SC (poll_world (S k1) w) in
       let w2 := w_outb addr EC_DATA (poll_world (S k2) w1) in
       let w3 := w_outb value EC_DATA (poll_world (S k3) w2) in
       ends_at IBF k1 w /\ ends_at IBF k2 w1 /\ ends_at IBF k3 w2 /\
       tr = poll_trace (S k1) w ++ EvOut 0x81 EC_SC ::
            poll_trace (S k2) w1 ++ EvOut addr EC_DATA ::
            poll_trace (S k3) w2 ++ [EvOut value EC_DATA] /\
       o = Returned tt /\ w' = w3 /\
       filter is_write tr =
         [EvOut 0x81 EC_SC; EvOut addr EC_DATA; EvOut value EC_DATA] /\
       filter is_data_read tr = [])
  /\
  (forall k1 k2 k3,
     let w1 := w_outb 0x81 EC_SC (poll_world (S k1) w) in
     let w2 := w_outb addr EC_DATA (poll_world (S k2) w1) in
     let w3 := w_outb value EC_DATA (poll_world (S k3) w2) in
     ends_at IBF k1 w -> ends_at IBF k2 w1 -> ends_at IBF k3 w2 ->
     exists n,
       run n (ec_write addr value) w =
       (Returned tt, w3,
        poll_trace (S k1) w ++ EvOut 0x81 EC_SC ::
        poll_trace (S k2) w1 ++ EvOut addr EC_DATA ::
        poll_trace (S k3) w2 ++ [EvOut value EC_DATA])).
Proof.
  split; [apply ec_write_finished | apply ec_write_returns].
Qed.

End Transactions.

(** ** The simulated controller *)

Lemma sim_polled s : polled s = sim_tick s.
Proof. reflexivity. Qed.

Lemma sim_status_busy s : busy s <> 0%nat -> status s = 2.
Proof.
  intros B. unfold status. simpl. unfold sim_status.
  destruct (busy s); [congruence|]. simpl. now destruct (outbuf s).
Qed.

Lemma sim_status_ready s :
  busy s = 0%nat -> status s = match outbuf s with Some _ => 1 | None => 0 end.
Proof.
  intros B. unfold status. simpl. unfold sim_status. rewrite B. simpl.
  now destruct (outbuf s).
Qed.

(** IBF reads as set for exactly [busy s] polls. *)
Lemma sim_ends_at_ibf : forall b s, busy s = b -> ends_at ibf_busy b s.
Proof.
  induction b as [|b IH]; intros s B.
  - apply ends_at_O. rewrite sim_status_ready by assumption.
    now destruct (outbuf s).
  - apply ends_at_S. split.
    + rewrite sim_status_busy by lia. reflexivity.
    + apply IH. rewrite sim_polled. simpl. now rewrite B.
Qed.

(** With a byte in the output buffer, OBF reads as clear for exactly
    [busy s] polls. *)
Lemma sim_ends_at_obf : forall b s v,
  busy s = b -> outbuf s = Some v -> ends_at obf_empty b s.
Proof.
  induction b as [|b IH]; intros s v B O.
  - apply ends_at_O. rewrite sim_status_ready, O by assumption. reflexivity.
  - apply ends_at_S. split.
    + rewrite sim_status_busy by lia. reflexivity.
    + apply (IH _ v); rewrite sim_polled; simpl; [now rewrite B | exact O].
Qed.

Lemma sim_poll_world : forall b s, busy s = b -> poll_world (S b) s = sim_settled s.
Proof.
  induction b as [|b IH]; intros s B.
  - unfold poll_world. simpl. rewrite sim_polled. unfold sim_tick, sim_settled.
    now rewrite B.
  - rewrite poll_world_S, (IH (polled s)) by (rewrite sim_polled; simpl; lia).
    reflexivity.
Qed.

(** A read and a write against a controller that is busy for one poll
    after every byte. *)
Example ec_read_on_sim :
  let '(o, _, tr) := run 20 (ec_read 0x50) (sim_boot (fun a => a + 10) 1 true) in
  o = Returned 0x5A /\
  tr = [EvIn EC_SC 0; EvOut 0x80 EC_SC;
        EvIn EC_SC 2; EvIn EC_SC 0; EvOut 0x50 EC_DATA;
        EvIn EC_SC 2; EvIn EC_SC 1; EvIn EC_DATA 0x5A].
Proof. vm_compute. split; reflexivity. Qed.

Example ec_write_on_sim :
  let '(o, s, tr) := run 20 (ec_write 0x50 0x07) (sim_boot (fun a => a + 10) 1 true) in
  o = Returned tt /\ regs s 0x50 = 0x07 /\ regs s 0x51 = 0x5B /\
  tr = [EvIn EC_SC 0; EvOut 0x81 EC_SC;
        EvIn EC_SC 2; EvIn EC_SC 0; EvOut 0x50 EC_DATA;
        EvIn EC_SC 2; EvIn EC_SC 0; EvOut 0x07 EC_DATA].
Proof. vm_compute. repeat split; reflexivity. Qed.

(** ec_write against the simulated controller, from any state of it. *)
Lemma sim_ec_write (a v : u8) (s : sim_ec) :
  exists n tr,
    run n (ec_write a v) s =
    (Returned tt,
     {| regs := fun x => if x =? a then v else regs s x; mode := Idle;
        outbuf := outbuf s; busy := latency s; latency := latency s;
        granted := granted s |}, tr).
Proof.
  destruct (ec_write_returns a v s (busy s) (latency s) (latency s)) as [n E].
  - apply ends_at_ibf, sim_ends_at_ibf. reflexivity.
  - apply ends_at_ibf, sim_ends_at_ibf.
    rewrite (sim_poll_world (busy s)) by reflexivity. reflexivity.
  - apply ends_at_ibf, sim_ends_at_ibf.
    rewrite (sim_poll_world (busy s)) by reflexivity.
    rewrite (sim_poll_world (latency s)) by reflexivity. reflexivity.
  - exists n. eexists. rewrite E. f_equal. f_equal.
    rewrite (sim_poll_world (busy s)) by reflexivity.
    rewrite (sim_poll_world (latency s) (w_outb 0x81 EC_SC (sim_settled s)))
      by reflexivity.
    rewrite (sim_poll_world (latency s)) by reflexivity. reflexivity.
Qed.

(** ec_read against the simulated controller, from any state of it. *)
Lemma sim_ec_read (a : u8) (s : sim_ec) :
  exists n tr,
    run n (ec_read a) s =
    (Returned (to_u8 (regs s a)),
     {| regs := regs s; mode := Idle; outbuf := None; busy := 0;
        latency := latency s; granted := granted s |}, tr).
Proof.
  destruct (ec_read_returns a s (busy s) (latency s) (latency s)) as [n E].
  - apply ends_at_ibf, sim_ends_at_ibf. reflexivity.
  - apply ends_at_ibf, sim_ends_at_ibf.
    rewrite (sim_poll_world (busy s)) by reflexivity. reflexivity.
  - apply ends_at_obf.
    rewrite (sim_poll_world (busy s)) by reflexivity.
    rewrite (sim_poll_world (latency s)) by reflexivity.
    eapply sim_ends_at_obf; reflexivity.
  - exists n. eexists. rewrite E.
    rewrite (sim_poll_world (busy s)) by reflexivity.
    rewrite (sim_poll_world (latency s) (w_outb 0x80 EC_SC (sim_settled s)))
      by reflexivity.
    rewrite (sim_poll_world (latency s)) by reflexivity. reflexivity.
Qed.

(** The double enforces both halves of the handshake. *)
Lemma sim_ibf_gate (d : sim_ec) :
  IBF (status d) = true -> forall b p, w_outb b p d = d.
Proof.
  intros B b p. destruct (busy d) as [|k] eqn:E.
  - rewrite sim_status_ready in B by assumption.
    destruct (outbuf d); discriminate B.
  - simpl. unfold sim_outb. now rewrite E.
Qed.

Lemma sim_obf_gate (d : sim_ec) :
  OBF (status d) = false -> w_inb EC_DATA d = (0, d).
Proof.
  intros B. simpl. unfold sim_inb.
  change (EC_DATA =? EC_SC) with false. change (EC_DATA =? EC_DATA) with true.
  cbv iota. destruct (outbuf d) as [x|] eqn:O; [| reflexivity].
  destruct (busy d) as [|k] eqn:E; [| reflexivity].
  rewrite sim_status_ready, O in B by assumption. discriminate B.
Qed.

(** C4.  Against the simulated controller, in whatever state it is, writing
    the byte [v] to register [a] and reading register [a] straight after
    returns [v], and leaves [v] in the register; the sequence has no other
    outcome.  The controller enforces both halves of the handshake: in any
    state of it, a byte written to a port while its status shows IBF is
    lost, and a read of the data port while its status does not show OBF
    gives 0 and takes nothing. *)
Theorem write_then_read_round_trip (a v : u8) (s : sim_ec) :
  is_u8 v ->
  (exists n s' tr,
     run n (ec_write a v ;; ec_read a) s = (Returned v, s', tr) /\
     regs s' a = v) /\
  (forall m o s' tr,
     run m (ec_write a v ;; ec_read a) s = (o, s', tr) -> finished o ->
     o = Returned v) /\
  (forall d : sim_ec,
     (IBF (status d) = true -> forall b p, w_outb b p d = d) /\
     (OBF (status d) = false -> w_inb EC_DATA d = (0, d))).
Proof.
  intros V.
  destruct (sim_ec_write a v s) as (n1 & tr1 & E1).
  destruct (sim_ec_read a
    {| regs := fun x => if x =? a then v else regs s x; mode := Idle;
       outbuf := outbuf s; busy := latency s; latency := latency s;
       granted := granted s |}) as (n2 & tr2 & E2).
  pose proof (run_bind _ (fun _ => ec_read a) _ _ _ _ _ _ _ _ _ E1 E2
                ltac:(discriminate)) as E.
  cbn [regs] in E. rewrite Z.eqb_refl in E. unfold to_u8 in E.
  rewrite Z.mod_small in E by exact V.
  split; [| split].
  - exists (n1 + n2)%nat. eexists. exists (tr1 ++ tr2). split; [exact E|].
    cbn [regs]. now rewrite Z.eqb_refl.
  - intros m o s' tr E' F.
    pose proof (run_deterministic _ _ _ _ _ _ _ _ _ _ E' F E
                  ltac:(discriminate)) as D.
    now inversion D.
  - intros d. split; [apply sim_ibf_gate | apply sim_obf_gate].
Qed.

Lemma write_then_read_round_trip_witness :
  exists n s' tr,
    run n (ec_write 0x52 0xA7 ;; ec_read 0x52) (sim_boot (fun _ => 0) 3 true)
      = (Returned 0xA7, s', tr) /\ regs s' 0x52 = 0xA7.
Proof.
  apply (write_then_read_round_trip 0x52 0xA7 (sim_boot (fun _ => 0) 3 true)).
  unfold is_u8. lia.
Defined.

(** ** The waits have no timeout *)

Lemma poll_trace_length {W} `{World W} k (w : W) :
  List.length (poll_trace k w) = k.
Proof. revert w. induction k; simpl; auto. Qed.

(** C5.  In any world, ec_wait_ibf returns exactly at the first read of the
    status port that shows bit 1 clear, and ec_wait_obf exactly at the first
    read that shows bit 0 set: a wait that is over has read the status port
    [k + 1] times, the first [k] reads not meeting the condition and the
    last one meeting it, and has done nothing else; a wait whose condition
    is first met at read [k] does return; a wait whose condition is never
    met is still running after any number of steps, and so is the
    transaction that called it.  The number of polls
    has no bound: for every [k] there is a controller that keeps
    ec_wait_ibf polling [k + 1] times. *)
Theorem ec_waits_have_no_timeout :
  (forall (W : Type) (H : World W) (w : W),
     (forall n o w' tr,
        run n ec_wait_ibf w = (o, w', tr) -> finished o ->
        exists k, ends_at IBF k w /\ o = Returned tt /\
                  w' = poll_world (S k) w /\ tr = poll_trace (S k) w) /\
     (forall k, ends_at IBF k w ->
        run (2 * S k) ec_wait_ibf w =
        (Returned tt, poll_world (S k) w, poll_trace (S k) w)) /\
     ((forall j, IBF (nth_status j w) = true) ->
        forall n, fst (fst (run n ec_wait_ibf w)) = Spinning) /\
     (forall n o w' tr,
        run n ec_wait_obf w = (o, w', tr) -> finished o ->
        exists k, ends_at (fun s => negb (OBF s)) k w /\ o = Returned tt /\
                  w' = poll_world (S k) w /\ tr = poll_trace (S k) w) /\
     (forall k, ends_at (fun s => negb (OBF s)) k w ->
        run (2 * S k) ec_wait_obf w =
        (Returned tt, poll_world (S k) w, poll_trace (S k) w)) /\
     ((forall j, OBF (nth_status j w) = false) ->
        forall n, fst (fst (run n ec_wait_obf w)) = Spinning) /\
     ((forall j, IBF (nth_status j w) = true) ->
        forall addr value n,
          fst (fst (run n (ec_read addr) w)) = Spinning /\
          fst (fst (run n (ec_write addr value) w)) = Spinning))
  /\
  (forall k, exists s : sim_ec,
     run (2 * S k) ec_wait_ibf s =
       (Returned tt, poll_world (S k) s, poll_trace (S k) s) /\
     List.length (poll_trace (S k) s) = S k).
Proof.
  split.
  - intros W H w. rewrite ec_wait_ibf_poll, ec_wait_obf_poll.
    repeat split.
    + intros n o w' tr E F.
      destruct (poll_loop_finished _ _ _ _ _ _ E F) as (k & K & R).
      exists k. now rewrite <- ends_at_ibf.
    + intros k K. apply poll_loop_returns. now apply ends_at_ibf.
    + intros A. apply poll_loop_spins. intros j.
      now rewrite ibf_busy_bit.
    + intros n o w' tr E F.
      destruct (poll_loop_finished _ _ _ _ _ _ E F) as (k & K & R).
      exists k. now rewrite <- ends_at_obf.
    + intros k K. apply poll_loop_returns. now apply ends_at_obf.
    + intros A. apply poll_loop_spins. intros j.
      now rewrite obf_empty_bit, A.
    + unfold ec_read. rewrite ec_wait_ibf_poll.
      apply run_wait_then_spins. intros j. now rewrite ibf_busy_bit.
    + unfold ec_write. rewrite ec_wait_ibf_poll.
      apply run_wait_then_spins. intros j. now rewrite ibf_busy_bit.
  - intros k.
    exists {| regs := fun _ => 0; mode := Idle; outbuf := None; busy := k;
              latency := k; granted := true |}.
    split; [| apply poll_trace_length].
    rewrite ec_wait_ibf_poll. apply poll_loop_returns, sim_ends_at_ibf.
    reflexivity.
Qed.

(** ** Loops over the register table *)

Section DumpFacts.
Context {W : Type} `{World W}.

Lemma run_ret_inv {R} (r : R) n (w : W) o w' tr :
  run n (Ret r) w = (o, w', tr) -> finished o ->
  o = Returned r /\ w' = w /\ tr = [].
Proof.
  intros E F. destruct n; simpl in E; inversion E; subst; auto. now elim F.
Qed.

Lemma run_tau_inv {R} (t : itree ecE R) n (w : W) o w' tr :
  run n (Tau t) w = (o, w', tr) -> finished o -> run n t w = (o, w', tr).
Proof.
  intros E F. destruct n.
  - simpl in E. inversion E; subst. now elim F.
  - rewrite run_tau in E. eapply run_mono; eauto.
Qed.

Lemma for_from_unfold n body i :
  observe (for_from n body i) =
  observe (ITree.bind
             (if i <? n then body i ;; Ret (inl (i + 1)) else Ret (inr tt))
             (fun lr : Z + unit =>
                match lr with
                | inl l => Tau (for_from n body l)
                | inr r => Ret r
                end)).
Proof. reflexivity. Qed.

(** The loop is over when the counter has reached the bound. *)
Lemma for_from_done n body i m (w : W) :
  (i <? n) = false ->
  run (S m) (for_from n body i) w = (Returned tt, w, []).
Proof.
  intros L. rewrite (run_observe _ _ _ _ (for_from_unfold n body i)), L.
  reflexivity.
Qed.

Lemma for_from_done_inv n body i m (w : W) o w' tr :
  (i <? n) = false ->
  run m (for_from n body i) w = (o, w', tr) -> finished o ->
  o = Returned tt /\ w' = w /\ tr = [].
Proof.
  intros L E F. destruct m.
  - simpl in E. inversion E; subst. now elim F.
  - rewrite for_from_done in E by assumption. inversion E; auto.
Qed.

(** One more turn: the body, then the loop with the counter advanced. *)
Lemma for_from_turn n body i (w : W) n1 w1 t1 n2 o w' t2 :
  (i <? n) = true ->
  run n1 (body i) w = (Returned tt, w1, t1) ->
  run n2 (for_from n body (i + 1)) w1 = (o, w', t2) -> finished o ->
  exists m, run m (for_from n body i) w = (o, w', t1 ++ t2).
Proof.
  intros L E1 E2 F.
  exists ((n1 + 1) + S n2)%nat.
  rewrite (run_observe _ _ _ _ (for_from_unfold n body i)), L.
  apply (run_bind _ _ (n1 + 1) w (inl (i + 1)) w1 t1 (S n2) o w' t2); auto.
  rewrite <- (app_nil_r t1).
  eapply run_bind; [exact E1 | | discriminate]. reflexivity.
Qed.

Lemma for_from_turn_inv n body i m (w : W) o w' tr :
  (i <? n) = true ->
  (forall o1 w1 t1, run m (body i) w = (o1, w1, t1) -> finished o1 ->
                    o1 = Returned tt) ->
  run m (for_from n body i) w = (o, w', tr) -> finished o ->
  exists w1 t1 t2,
    run m (body i) w = (Returned tt, w1, t1) /\
    run m (for_from n body (i + 1)) w1 = (o, w', t2) /\ tr = t1 ++ t2.
Proof.
  intros L B E F.
  rewrite (run_observe _ _ _ _ (for_from_unfold n body i)), L in E.
  destruct (run_bind_inv _ _ _ _ _ _ _ E F)
    as [(lr & w2 & ta & tb & E1 & E2 & ->) | (o1 & E1 & F1 & NR & ->)].
  - destruct (run_bind_inv _ _ _ _ _ _ _ E1 ltac:(discriminate))
      as [(r & w3 & tc & td & E3 & E4 & ->) | (o1 & E3 & F1 & NR & C)].
    + destruct (run_ret_inv _ _ _ _ _ _ E4 ltac:(discriminate)) as (R1 & -> & ->).
      inversion R1; subst. destruct r.
      apply run_tau_inv in E2; auto.
      exists w3, tc, tb. rewrite app_nil_r. auto.
    + destruct o1; discriminate.
  - destruct (run_bind_inv _ _ _ _ _ _ _ E1 F1)
      as [(r & w3 & tc & td & E3 & E4 & ->) | (o2 & E3 & F2 & NR2 & ->)].
    + destruct (run_ret_inv _ _ _ _ _ _ E4 F1) as (-> & _). now elim (NR (inl (i + 1))).
    + rewrite (B _ _ _ E3 F2) in NR2. now elim (NR2 tt).
Qed.

Lemma interpret_run reg value (w : W) :
  run 2 (interpret reg value) w = (Returned tt, w, interpretation reg value).
Proof.
  unfold interpret, interpretation.
  destruct (reg =? 0x50); [reflexivity|].
  destruct (reg =? 0x51); [reflexivity|].
  destruct (reg =? 0x52); reflexivity.
Qed.

Lemma answer_printf fmt args (w : W) :
  answer (Printf fmt args) w = Some (tt, w, EvPrintf fmt args).
Proof. reflexivity. Qed.

Lemma ec_read_total a m (w : W) o w' tr :
  run m (ec_read a) w = (o, w', tr) -> finished o -> exists v, o = Returned v.
Proof.
  intros E F. destruct (ec_read_finished a w m o w' tr E F)
    as (k1 & k2 & k3 & _ & _ & _ & _ & -> & _). eauto.
Qed.

(** One turn of the loop of ec_dump_selected. *)
Lemma dump_register_run i v (w w1 : W) t1 :
  let reg := nth (Z.to_nat i) registers 0 in
  reads reg v w w1 t1 ->
  exists n, run n (dump_register i) w =
            (Returned tt, w1,
             t1 ++ EvPrintf fmt_register [reg; v] :: interpretation reg v).
Proof.
  intros reg [n E]. exists (n + (2 + 2))%nat. unfold dump_register.
  eapply run_bind; [exact E | | discriminate].
  eapply run_call_then; [apply answer_printf | | discriminate].
  apply interpret_run.
Qed.

Lemma dump_register_inv i m (w : W) o w' tr :
  let reg := nth (Z.to_nat i) registers 0 in
  run m (dump_register i) w = (o, w', tr) -> finished o ->
  o = Returned tt /\
  exists v t1, reads reg v w w' t1 /\
    tr = t1 ++ EvPrintf fmt_register [reg; v] :: interpretation reg v.
Proof.
  intros reg E F. unfold dump_register in E. fold reg in E.
  destruct (run_bind_inv _ _ _ _ _ _ _ E F)
    as [(v & w1 & t1 & t2 & E1 & E2 & ->) | (o1 & E1 & F1 & NR & ->)].
  - eapply run_call_then_inv in E2; [| apply answer_printf | auto].
    destruct E2 as (t3 & E2 & ->).
    pose proof (run_deterministic _ _ _ _ _ _ _ _ _ _ E2 F
                  (interpret_run reg v w1) ltac:(discriminate)) as D.
    inversion D; subst. split; auto. exists v, t1. split; auto. now exists m.
  - destruct (ec_read_total _ _ _ _ _ _ E1 F1) as [v ->]. now elim (NR v).
Qed.

Lemma skipn_cons_nth {A} (d : A) : forall (l : list A) j r rs,
  skipn j l = r :: rs ->
  nth j l d = r /\ skipn (S j) l = rs /\ (j < List.length l)%nat.
Proof.
  induction l as [|x l IH]; intros j r rs E.
  - destruct j; discriminate.
  - destruct j as [|j].
    + simpl in E. inversion E; subst. simpl. repeat split; lia.
    + simpl in E. destruct (IH _ _ _ E) as (A1 & A2 & A3).
      simpl. repeat split; auto. lia.
Qed.

Lemma skipn_nil_length {A} : forall (l : list A) j,
  skipn j l = [] -> (List.length l <= j)%nat.
Proof.
  induction l as [|x l IH]; intros j E; simpl; [lia|].
  destruct j; [discriminate|]. simpl in E. apply IH in E. lia.
Qed.

(** The loop from position [j] on takes one snapshot of the registers that
    are left, and a snapshot of them is a run of the loop. *)
Lemma dump_loop_inv : forall rs j m (w : W) o w' tr,
  skipn j registers = rs ->
  run m (dump_loop (Z.of_nat j)) w = (o, w', tr) -> finished o ->
  o = Returned tt /\ exists vs, snapshot rs vs w w' tr.
Proof.
  induction rs as [|r rs IH]; intros j m w o w' tr S E F; unfold dump_loop in E.
  - apply skipn_nil_length in S.
    apply for_from_done_inv in E; auto; [| apply Z.ltb_ge; lia].
    destruct E as (-> & -> & ->). split; auto. exists []. simpl. auto.
  - destruct (skipn_cons_nth (A:=u8) 0 _ _ _ _ S) as (N & S' & L).
    apply for_from_turn_inv in E; auto.
    + destruct E as (w1 & t1 & t2 & E1 & E2 & ->).
      destruct (dump_register_inv _ _ _ _ _ _ E1 ltac:(discriminate))
        as (_ & v & t0 & R & ->).
      rewrite Nat2Z.id, N in R.
      replace (Z.of_nat j + 1) with (Z.of_nat (Datatypes.S j)) in E2 by lia.
      destruct (IH _ _ _ _ _ _ S' E2 F) as (-> & vs & SN).
      rewrite Nat2Z.id, N, <- app_assoc.
      split; auto. exists (v :: vs). cbn [snapshot]. exists w1, t0, t2. auto.
    + apply Z.ltb_lt. lia.
    + intros o1 w1 t1 E1 F1. eapply dump_register_inv; eauto.
Qed.

Lemma dump_loop_run : forall rs vs j (w w' : W) tr,
  skipn j registers = rs -> snapshot rs vs w w' tr ->
  exists n, run n (dump_loop (Z.of_nat j)) w = (Returned tt, w', tr).
Proof.
  induction rs as [|r rs IH]; intros vs j w w' tr S SN; unfold dump_loop.
  - destruct vs; simpl in SN; [| contradiction]. destruct SN as [-> ->].
    apply skipn_nil_length in S.
    exists 1%nat. apply for_from_done. apply Z.ltb_ge. lia.
  - destruct vs as [|v vs]; simpl in SN; [contradiction|].
    destruct SN as (w1 & t1 & t2 & R & SN & ->).
    destruct (skipn_cons_nth (A:=u8) 0 _ _ _ _ S) as (N & S' & L).
    destruct (IH _ _ _ _ _ S' SN) as [n2 E2].
    destruct (dump_register_run (Z.of_nat j) v w w1 t1) as [n1 E1].
    { rewrite Nat2Z.id, N. exact R. }
    rewrite Nat2Z.id, N in E1.
    replace (Z.of_nat (Datatypes.S j)) with (Z.of_nat j + 1) in E2 by lia.
    assert (LT : (Z.of_nat j <? Z.of_nat (List.length registers)) = true)
      by (apply Z.ltb_lt; lia).
    destruct (for_from_turn _ _ _ _ _ _ _ _ _ _ _
                LT E1 E2 ltac:(discriminate)) as [m E].
    exists m. rewrite E. now rewrite <- app_assoc.
Qed.

End DumpFacts.

(** ** The snapshot *)

Section SnapshotFacts.
Context {W : Type} `{World W}.

Lemma filter_poll_line k (w : W) : filter is_line (poll_trace k w) = [].
Proof. revert w. induction k; simpl; auto. Qed.

(** What one read transaction contributes to the log. *)
Lemma reads_projections a v (w w' : W) t :
  reads a v w w' t ->
  filter is_line t = [] /\
  filter is_write t = [EvOut 0x80 EC_SC; EvOut a EC_DATA] /\
  filter is_data_read t = [EvIn EC_DATA v].
Proof.
  intros [n E].
  destruct (ec_read_finished a w n _ _ _ E ltac:(discriminate))
    as (k1 & k2 & k3 & _ & _ & _ & -> & V & _).
  inversion V; subst.
  repeat (rewrite ?filter_app; cbn [filter is_line is_write is_data_read]).
  rewrite !filter_poll_line, !filter_poll_write, !filter_poll_data_read.
  change (EC_DATA =? EC_DATA) with true. cbn [app]. auto.
Qed.

Lemma interpretation_projections r v :
  filter is_line (interpretation r v) = interpretation r v /\
  filter is_write (interpretation r v) = [] /\
  filter is_data_read (interpretation r v) = [].
Proof.
  unfold interpretation.
  destruct (r =? 0x50); [auto|].
  destruct (r =? 0x51); [auto|].
  destruct (r =? 0x52); auto.
Qed.

Lemma snapshot_projections : forall rs vs (w w' : W) tr,
  snapshot rs vs w w' tr ->
  filter is_line tr =
    flat_map (fun rv => EvPrintf fmt_register [fst rv; snd rv]
                        :: interpretation (fst rv) (snd rv)) (combine rs vs) /\
  filter is_write tr =
    flat_map (fun r => [EvOut 0x80 EC_SC; EvOut r EC_DATA]) rs /\
  filter is_data_read tr = map (EvIn EC_DATA) vs /\
  List.length vs = List.length rs.
Proof.
  induction rs as [|r rs IH]; intros vs w w' tr SN.
  - destruct vs; simpl in SN; [| contradiction]. destruct SN as [_ ->]. auto.
  - destruct vs as [|v vs]; simpl in SN; [contradiction|].
    destruct SN as (w1 & t1 & t2 & R & SN & ->).
    destruct (reads_projections _ _ _ _ _ R) as (L1 & W1 & D1).
    destruct (interpretation_projections r v) as (L2 & W2 & D2).
    destruct (IH _ _ _ _ SN) as (L3 & W3 & D3 & N3).
    repeat (rewrite ?filter_app; cbn [filter is_line is_write is_data_read]).
    rewrite L1, W1, D1, L2, W2, D2, L3, W3, D3.
    cbn [combine flat_map fst snd map app List.length]. rewrite N3. auto.
Qed.

(** C6.  An invocation of ec_dump_selected that is over has returned, and
    its log is the header line followed by one completed read transaction
    for each of the ten addresses 0x50 .. 0x59, in this order, each followed
    by the raw line of the register and, for 0x50, 0x51 and 0x52 only, by
    the interpreted line (temperature, fan speed, and the flag computed as
    value AND 0x01).  Its port writes, its data-port reads and its printed
    lines are spelled out.  Conversely every such chain of ten completed
    reads is a run of ec_dump_selected. *)
Theorem ec_dump_selected_snapshot (w : W) :
  (forall n o w' tr,
     run n ec_dump_selected w = (o, w', tr) -> finished o ->
     o = Returned tt /\
     exists v0 v1 v2 v3 v4 v5 v6 v7 v8 v9 t,
       tr = EvPrintf fmt_dump_header [] :: t /\
       snapshot [0x50; 0x51; 0x52; 0x53; 0x54; 0x55; 0x56; 0x57; 0x58; 0x59]
                [v0; v1; v2; v3; v4; v5; v6; v7; v8; v9] w w' t /\
       filter is_write tr =
         [EvOut 0x80 EC_SC; EvOut 0x50 EC_DATA;
          EvOut 0x80 EC_SC; EvOut 0x51 EC_DATA;
          EvOut 0x80 EC_SC; EvOut 0x52 EC_DATA;
          EvOut 0x80 EC_SC; EvOut 0x53 EC_DATA;
          EvOut 0x80 EC_SC; EvOut 0x54 EC_DATA;
          EvOut 0x80 EC_SC; EvOut 0x55 EC_DATA;
          EvOut 0x80 EC_SC; EvOut 0x56 EC_DATA;
          EvOut 0x80 EC_SC; EvOut 0x57 EC_DATA;
          EvOut 0x80 EC_SC; EvOut 0x58 EC_DATA;
          EvOut 0x80 EC_SC; EvOut 0x59 EC_DATA] /\
       filter is_data_read tr =
         [EvIn EC_DATA v0; EvIn EC_DATA v1; EvIn EC_DATA v2; EvIn EC_DATA v3; EvIn EC_DATA v4; EvIn EC_DATA v5; EvIn EC_DATA v6; EvIn EC_DATA v7; EvIn EC_DATA v8; EvIn EC_DATA v9] /\
       filter is_line tr =
         [EvPrintf fmt_dump_header [];
          EvPrintf fmt_register [0x50; v0];
          EvPrintf fmt_temperature [v0];
          EvPrintf fmt_register [0x51; v1];
          EvPrintf fmt_fan_speed [v1];
          EvPrintf fmt_register [0x52; v2];
          EvPrintf fmt_flag [Z.land v2 0x01];
          EvPrintf fmt_register [0x53; v3];
          EvPrintf fmt_register [0x54; v4];
          EvPrintf fmt_register [0x55; v5];
          EvPrintf fmt_register [0x56; v6];
          EvPrintf fmt_register [0x57; v7];
          EvPrintf fmt_register [0x58; v8];
          EvPrintf fmt_register [0x59; v9]])
  /\
  (forall vs w' t,
     snapshot registers vs w w' t ->
     exists n, run n ec_dump_selected w =
               (Returned tt, w', EvPrintf fmt_dump_header [] :: t)).
Proof.
  split.
  - intros n o w' tr E F. unfold ec_dump_selected in E.
    eapply run_call_then_inv in E; [| apply answer_printf | auto].
    destruct E as (t & E & ->).
    destruct (dump_loop_inv registers 0 n w o w' t eq_refl E F) as (-> & vs & SN).
    split; auto.
    destruct (snapshot_projections _ _ _ _ _ SN) as (L & Wr & D & N).
    do 10 (destruct vs as [|? vs]; [discriminate N|]).
    destruct vs; [| discriminate N].
    do 10 eexists. exists t. split; [reflexivity|]. split; [exact SN|].
    cbn [filter is_line is_write is_data_read].
    rewrite L, Wr, D. repeat split.
  - intros vs w' t SN.
    destruct (dump_loop_run registers vs 0 w w' t eq_refl SN) as [n E].
    exists (2 + n)%nat. unfold ec_dump_selected.
    eapply run_call_then; [apply answer_printf | exact E | discriminate].
Qed.

End SnapshotFacts.

(** ** One tick of the monitor *)

Section TickFacts.
Context {W : Type} `{World W}.

Lemma warn_run temp (w : W) :
  run 2 (if temp >? 75 then printf fmt_warning [temp] else Ret tt) w =
  (Returned tt, w, warning temp).
Proof. unfold warning. destruct (temp >? 75); reflexivity. Qed.

Lemma monitor_tick_run temp (w w' : W) t1 :
  reads 0x00 temp w w' t1 ->
  exists n, run n monitor_tick w =
            (Returned tt, w', t1 ++ warning temp ++ [EvSleep 1]).
Proof.
  intros [n E]. exists (n + (2 + 2))%nat. unfold monitor_tick.
  eapply run_bind; [exact E | | discriminate].
  rewrite <- (app_nil_r (warning temp ++ [EvSleep 1])), <- app_assoc.
  eapply run_bind; [apply warn_run | | discriminate].
  reflexivity.
Qed.

Lemma monitor_tick_inv n (w : W) o w' tr :
  run n monitor_tick w = (o, w', tr) -> finished o ->
  o = Returned tt /\
  exists temp t1, reads 0x00 temp w w' t1 /\
                  tr = t1 ++ warning temp ++ [EvSleep 1].
Proof.
  intros E F. unfold monitor_tick in E.
  destruct (run_bind_inv _ _ _ _ _ _ _ E F)
    as [(temp & w1 & t1 & t2 & E1 & E2 & ->) | (o1 & E1 & F1 & NR & ->)].
  - destruct (monitor_tick_run temp w w1 t1 (ex_intro _ n E1)) as [m E3].
    unfold monitor_tick in E3.
    pose proof (run_bind _ (fun temp =>
                  (if temp >? 75 then printf fmt_warning [temp] else Ret tt) ;;
                  sleep 1) n w temp w1 t1 n o w' t2 E1 E2 F) as E4.
    pose proof (run_deterministic _ _ _ _ _ _ _ _ _ _ E4 F E3
                  ltac:(discriminate)) as D.
    injection D as EO EW T. apply app_inv_head in T. subst.
    split; auto. exists temp, t1. split; auto. now exists n.
  - destruct (ec_read_total _ _ _ _ _ _ E1 F1) as [v ->]. now elim (NR v).
Qed.

(** The loop of the monitor makes tick after tick: after any number of
    completed ticks it is still running, and has logged these ticks and
    nothing else. *)
Lemma monitor_loop_ticks : forall n (w w' : W) tr,
  ticks n w w' tr ->
  exists m, run m (while (Ret true) monitor_tick) w = (Spinning, w', tr).
Proof.
  induction n as [|n IH]; intros w w' tr T; simpl in T.
  - destruct T as [-> ->]. exists 0%nat. reflexivity.
  - destruct T as (w1 & t1 & t2 & [m1 E1] & T & ->).
    destruct (IH _ _ _ T) as [m2 E2].
    destruct (run_bind_exact monitor_tick (fun _ => Ret (inl tt : unit + unit))
                m1 w tt w1 t1 E1) as [c1 C1].
    assert (E3 : run (c1 + 1) (monitor_tick ;; Ret (inl tt : unit + unit)) w =
                 (Returned (inl tt), w1, t1)).
    { rewrite C1. simpl. now rewrite app_nil_r. }
    set (again := fun lr : unit + unit =>
           match lr with
           | inl l =>
             Tau (ITree.iter (fun _ : unit =>
                    c <- Ret true ;;
                    if c : bool then monitor_tick ;; Ret (inl tt)
                    else Ret (inr tt)) l)
           | inr r => Ret r
           end).
    destruct (run_bind_exact _ again _ w _ w1 t1 E3) as [c2 C2].
    exists (c2 + S m2)%nat.
    rewrite (run_observe (while (Ret true) monitor_tick)
               (ITree.bind (monitor_tick ;; Ret (inl tt : unit + unit)) again))
      by reflexivity.
    eapply eq_trans; [exact (C2 (S m2)) |].
    unfold again. rewrite run_tau.
    change (ITree.iter _ tt) with (while (Ret true) monitor_tick).
    now rewrite E2.
Qed.

Lemma ec_monitor_loop_ticks n (w w' : W) tr :
  ticks n w w' tr ->
  exists m, run m ec_monitor_loop w =
            (Spinning, w', EvPrintf fmt_monitor_start [] :: tr).
Proof.
  intros T. destruct (monitor_loop_ticks n w w' tr T) as [m E].
  exists (S m). unfold ec_monitor_loop.
  rewrite (run_observe _
    (Vis (Printf fmt_monitor_start [])
       (fun x => ITree.bind (Ret x)
          (fun _ => while (Ret true) monitor_tick ;; Ret 0)))) by reflexivity.
  rewrite run_vis. cbn [answer].
  rewrite (run_observe (Ret tt ;; while (Ret true) monitor_tick ;; Ret 0)
             (while (Ret true) monitor_tick ;; Ret 0) m w) by reflexivity.
  rewrite (run_bind_stop _ _ _ _ _ _ _ E) by discriminate. reflexivity.
Qed.

End TickFacts.

(** C7.  A tick of the monitor that is over has made exactly one read
    transaction, of register 0x00, has printed the warning if and only if
    the value read is greater than 75, has printed nothing else, and has
    then slept one second; every completed read of register 0x00 gives such
    a tick.  The loop of ec_monitor_loop makes such ticks one after the
    other: after its first line and any number of completed ticks, each
    started in the world the one before left, the log holds these ticks and
    nothing else, and the loop is still running; a tick takes nothing from
    the tick before it but that world.  Against a simulated controller
    holding 80 the tick prints one warning, holding 50 or 75 it prints
    none. *)
Theorem monitor_tick_warning :
  (forall (W : Type) (H : World W) (w : W),
     (forall n o w' tr,
        run n monitor_tick w = (o, w', tr) -> finished o ->
        o = Returned tt /\
        exists temp t1,
          reads 0x00 temp w w' t1 /\
          tr = t1 ++ warning temp ++ [EvSleep 1] /\
          filter is_write tr = [EvOut 0x80 EC_SC; EvOut 0x00 EC_DATA] /\
          filter is_data_read tr = [EvIn EC_DATA temp] /\
          (temp > 75 -> filter is_line tr = [EvPrintf fmt_warning [temp]]) /\
          (temp <= 75 -> filter is_line tr = [])) /\
     (forall temp w' t1,
        reads 0x00 temp w w' t1 ->
        exists n, run n monitor_tick w =
                  (Returned tt, w', t1 ++ warning temp ++ [EvSleep 1])) /\
     (forall n w' tr,
        ticks n w w' tr ->
        exists m, run m ec_monitor_loop w =
                  (Spinning, w', EvPrintf fmt_monitor_start [] :: tr)))
  /\
  filter is_line (snd (run 40 monitor_tick (sim_boot (fun _ => 80) 2 true)))
    = [EvPrintf fmt_warning [80]] /\
  filter is_line (snd (run 40 monitor_tick (sim_boot (fun _ => 50) 2 true)))
    = [] /\
  filter is_line (snd (run 40 monitor_tick (sim_boot (fun _ => 75) 2 true)))
    = [].
Proof.
  split; [| repeat split].
  intros W H w.
  split; [| split; [intros temp w' t1; apply monitor_tick_run
                   | intros n w' tr; apply ec_monitor_loop_ticks]].
  intros n o w' tr E F.
  destruct (monitor_tick_inv _ _ _ _ _ E F) as (-> & temp & t1 & R & ->).
  split; auto. exists temp, t1.
  destruct (reads_projections _ _ _ _ _ R) as (L1 & W1 & D1).
  repeat (rewrite ?filter_app; cbn [filter is_line is_write is_data_read]).
  rewrite L1, W1, D1. unfold warning.
  destruct (Z.gtb_spec temp 75); cbn [filter is_line is_write is_data_read app];
    repeat split; auto; intros; lia.
Qed.

(** ** Keeping to the order of calls *)

Lemma conforms_observe {R} n p (t t' : itree ecE R) Q :
  observe t = observe t' -> conforms n p t Q -> conforms n p t' Q.
Proof. intros E. destruct n; simpl; [auto | now rewrite E]. Qed.

Lemma conforms_pred {R} n : forall p (t : itree ecE R) Q,
  conforms (S n) p t Q -> conforms n p t Q.
Proof.
  induction n as [|n IH]; intros p t Q C; [exact I|].
  cbn [conforms] in *. destruct (observe t) as [r | t' | X e k]; auto.
  destruct C as [EO C]. split; auto.
  intros x. destruct (C x) as (p' & D & C'). eauto.
Qed.

Lemma conforms_bind {R T} (k : R -> itree ecE T) Q1 Q2 n :
  forall p (t : itree ecE R),
  conforms n p t Q1 ->
  (forall p' r, Q1 p' r -> conforms n p' (k r) Q2) ->
  conforms n p (ITree.bind t k) Q2.
Proof.
  induction n as [|n IH]; intros p t C K; [exact I|].
  cbn [conforms] in C.
  destruct (observe t) as [r | t' | X e k0] eqn:Ot.
  - apply (conforms_observe _ _ (k r)); [now rewrite observe_bind, Ot | auto].
  - apply (conforms_observe _ _ (Tau (ITree.bind t' k)));
      [now rewrite observe_bind, Ot |].
    cbn [conforms observe _observe]. apply IH; auto.
    intros p' r q. apply conforms_pred, K, q.
  - apply (conforms_observe _ _ (Vis e (fun x => ITree.bind (k0 x) k)));
      [now rewrite observe_bind, Ot |].
    cbn [conforms observe _observe]. destruct C as [EO C]. split; auto.
    intros x. destruct (C x) as (p' & D & C'). exists p'. split; auto.
    apply IH; auto. intros p'' r q. apply conforms_pred, K, q.
Qed.

(** A loop keeps to the order if every turn does, from any phase the loop
    can be in. *)
Lemma conforms_iter {R J} (body : J -> itree ecE (J + R))
    (Inv : phase -> J -> Prop) Q :
  (forall n p i, Inv p i ->
     conforms n p (body i)
       (fun p' lr => match lr with inl i' => Inv p' i' | inr r => Q p' r end)) ->
  forall n p i, Inv p i -> conforms n p (ITree.iter body i) Q.
Proof.
  intros B. induction n as [|n IH]; intros p i V; [exact I|].
  apply (conforms_observe _ _
    (ITree.bind (body i) (fun lr : J + R =>
       match lr with inl l => Tau (ITree.iter body l) | inr r => Ret r end)));
    [reflexivity|].
  eapply conforms_bind; [apply B, V|].
  intros p' [i' | r] q; cbn [conforms observe _observe]; auto.
Qed.

(** A call keeps to the order if it belongs to the phase. *)
Lemma conforms_call {X} (e : ecE X) n p (Q : phase -> X -> Prop) :
  exit_ok p e ->
  (forall x, exists p', delta p (ev_of e x) = Some p' /\ Q p' x) ->
  conforms n p (ITree.trigger e) Q.
Proof.
  intros EO D. destruct n; [exact I|]. cbn. split; auto.
  intros x. destruct (D x) as (p' & D' & q). exists p'. split; auto.
  destruct n; [exact I | exact q].
Qed.

Lemma conforms_ret {R} (r : R) n p (Q : phase -> R -> Prop) :
  Q p r -> conforms n p (Ret r) Q.
Proof. intros q. destruct n; [exact I | exact q]. Qed.

(** ** The functions keep to the order *)

Lemma poll_loop_conforms again n p :
  port_phase p -> conforms n p (poll_loop again) (stays p).
Proof.
  intros PP. unfold poll_loop, while.
  apply (conforms_iter _ (fun p' _ => p' = p)); [| reflexivity].
  intros m p' [] ->.
  eapply conforms_bind.
  - eapply conforms_bind.
    + apply (conforms_call (Inb EC_SC) _ _ (stays p)); [exact I|].
      intros x. exists p. split; [| reflexivity].
      destruct PP as [-> | [-> | ->]]; reflexivity.
    + intros p' r ->. apply (conforms_ret _ _ _ (stays p)). reflexivity.
  - intros p' [] ->.
    + eapply conforms_bind; [apply (conforms_ret _ _ _ (stays p)); reflexivity|].
      intros ? ? ->. apply conforms_ret. reflexivity.
    + apply conforms_ret. reflexivity.
Qed.

Lemma ec_read_conforms a n p :
  port_phase p ->
  conforms n p (ec_read a) (fun p' v => p' = data_read p v).
Proof.
  intros PP. unfold ec_read. rewrite ec_wait_ibf_poll, ec_wait_obf_poll.
  eapply conforms_bind; [apply poll_loop_conforms, PP | intros ? ? ->].
  eapply (conforms_bind _ (stays p)); [| intros ? ? ->].
  { apply (conforms_call (Outb 0x80 EC_SC) _ _ (stays p)); [exact I|].
    intros x. exists p. split; [| reflexivity].
    destruct PP as [-> | [-> | ->]]; reflexivity. }
  eapply conforms_bind; [apply poll_loop_conforms, PP | intros ? ? ->].
  eapply (conforms_bind _ (stays p)); [| intros ? ? ->].
  { apply (conforms_call (Outb a EC_DATA) _ _ (stays p)); [exact I|].
    intros x. exists p. split; [| reflexivity].
    destruct PP as [-> | [-> | ->]]; reflexivity. }
  eapply conforms_bind; [apply poll_loop_conforms, PP | intros ? ? ->].
  apply (conforms_call (Inb EC_DATA) _ _ (fun p' v => p' = data_read p v));
    [exact I|].
  intros x. exists (data_read p x). split; [| reflexivity].
  destruct PP as [-> | [-> | ->]]; reflexivity.
Qed.

Lemma interpret_conforms reg value n :
  conforms n In_snapshot (interpret reg value) (stays In_snapshot).
Proof.
  unfold interpret.
  destruct (reg =? 0x50); [apply conforms_call; [exact I | intros ?; eexists; split; reflexivity]|].
  destruct (reg =? 0x51); [apply conforms_call; [exact I | intros ?; eexists; split; reflexivity]|].
  destruct (reg =? 0x52); [apply conforms_call; [exact I | intros ?; eexists; split; reflexivity]|].
  apply conforms_ret. reflexivity.
Qed.

Lemma dump_register_conforms i n :
  conforms n In_snapshot (dump_register i) (stays In_snapshot).
Proof.
  unfold dump_register.
  eapply conforms_bind; [apply ec_read_conforms; left; reflexivity|].
  intros ? v ->.
  eapply (conforms_bind _ (stays In_snapshot));
    [| intros ? ? ->; apply interpret_conforms].
  apply (conforms_call _ _ _ (stays In_snapshot)); [exact I|].
  intros x. eexists. split; reflexivity.
Qed.

Lemma ec_dump_selected_conforms n :
  conforms n Granted ec_dump_selected (stays In_snapshot).
Proof.
  unfold ec_dump_selected.
  eapply conforms_bind.
  - apply (conforms_call _ _ _ (stays In_snapshot)); [exact I|].
    intros x. eexists. split; reflexivity.
  - intros ? ? ->. unfold for_upto.
    apply (conforms_iter _ (fun p' _ => p' = In_snapshot)); [| reflexivity].
    intros m p' i ->.
    destruct (i <? _).
    + eapply conforms_bind; [apply dump_register_conforms|].
      intros ? ? ->. apply conforms_ret. reflexivity.
    + apply conforms_ret. reflexivity.
Qed.

Lemma acpi_check_conforms n :
  conforms n Launched acpi_check (stays At_join).
Proof.
  unfold acpi_check.
  eapply conforms_bind.
  - apply (conforms_call _ _ _ (stays In_diagnostic)); [exact I|].
    intros x. eexists. split; reflexivity.
  - intros ? ? ->.
    eapply conforms_bind;
      [apply ec_read_conforms; right; left; reflexivity|].
    intros ? v ->.
    apply (conforms_call _ _ _ (stays At_join)); [exact I|].
    intros x. exists At_join. split; [| reflexivity].
    simpl. now rewrite Z.eqb_refl.
Qed.

Lemma fatal_conforms {R} n (Q : phase -> R -> Prop) :
  conforms n Denied (perror "ioperm" ;; exit 1) Q.
Proof.
  eapply conforms_bind.
  - apply (conforms_call _ _ _ (stays Fatal)); [exact I|].
    intros x. eexists. split; reflexivity.
  - intros ? ? ->. unfold exit.
    destruct n; [exact I|]. cbn. split; [discriminate | intros []].
Qed.

Lemma ec_init_conforms n : conforms n Acquire_sc ec_init (stays Granted).
Proof.
  unfold ec_init.
  eapply conforms_bind.
  - apply (conforms_call (Ioperm EC_SC 1 1) _ _
             (fun p' r => p' = if truthy r then Denied else Acquire_data));
      [exact I|].
    intros x. eexists. split; reflexivity.
  - intros p' r1 ->. destruct (truthy r1); [apply fatal_conforms|].
    eapply conforms_bind.
    + apply (conforms_call (Ioperm EC_DATA 1 1) _ _
               (fun p' r => p' = if truthy r then Denied else Granted));
        [exact I|].
      intros x. eexists. split; reflexivity.
    + intros p' r2 ->. destruct (truthy r2); [apply fatal_conforms|].
      apply conforms_ret. reflexivity.
Qed.

(** main keeps to the startup sequence, and returns only past the join. *)
Lemma main_follows : follows Acquire_sc main.
Proof.
  intros n. unfold main.
  eapply conforms_bind; [apply ec_init_conforms | intros ? ? ->].
  eapply conforms_bind; [apply ec_dump_selected_conforms | intros ? ? ->].
  eapply conforms_bind.
  { apply (conforms_call (Pthread_create Ec_monitor_loop_routine) _ _
             (stays Launched)); [exact I|].
    intros x. eexists. split; reflexivity. }
  intros ? monitor_thread ->.
  eapply conforms_bind; [apply acpi_check_conforms | intros ? ? ->].
  eapply conforms_bind.
  { apply (conforms_call (Pthread_join monitor_thread) _ _
             (stays Past_join)); [exact I|].
    intros x. eexists. split; reflexivity. }
  intros ? ? ->. apply conforms_ret. reflexivity.
Qed.

Lemma monitor_tick_conforms n :
  conforms n Sampling monitor_tick (stays Sampling).
Proof.
  unfold monitor_tick.
  eapply conforms_bind;
    [apply ec_read_conforms; right; right; reflexivity|].
  intros ? temp ->.
  eapply conforms_bind.
  - destruct (temp >? 75).
    + apply (conforms_call _ _ _ (stays Sampling)); [exact I|].
      intros x. eexists. split; reflexivity.
    + apply (conforms_ret _ _ _ (stays Sampling)). reflexivity.
  - intros ? ? ->.
    apply (conforms_call _ _ _ (stays Sampling)); [exact I|].
    intros x. eexists. split; reflexivity.
Qed.

(** The sampler keeps sampling: it never returns, whatever is asked of the
    phase it would return in. *)
Lemma ec_monitor_loop_conforms n (Q : phase -> Z -> Prop) :
  conforms n Sampling ec_monitor_loop Q.
Proof.
  unfold ec_monitor_loop.
  eapply conforms_bind.
  - apply (conforms_call _ _ _ (stays Sampling)); [exact I|].
    intros x. eexists. split; reflexivity.
  - intros ? ? ->.
    eapply (conforms_bind _ (fun _ _ => False)); [| intros ? ? []].
    unfold while.
    apply (conforms_iter _ (fun p' _ => p' = Sampling)); [| reflexivity].
    intros m p' [] ->.
    eapply conforms_bind.
    + apply (conforms_ret true _ _ (fun p' c => p' = Sampling /\ c = true)).
      auto.
    + intros p' c [-> ->].
      eapply conforms_bind; [apply monitor_tick_conforms|].
      intros ? ? ->. apply conforms_ret. reflexivity.
Qed.

Lemma routine_follows r : follows Sampling (routine_body r).
Proof. intros n. destruct r. apply ec_monitor_loop_conforms. Qed.

(** ** The order of calls, as a table *)

Lemma delta_sampling v p' : delta Sampling v = Some p' -> p' = Sampling.
Proof.
  destruct v; simpl; try (destruct (_ || _)); try (destruct (sampler_line _));
    intros E; inversion E; auto.
Qed.

Lemma delta_past_join p v :
  delta p v = Some Past_join -> p = Past_join \/ exists j, v = EvJoin j.
Proof.
  destruct p; simpl; auto; destruct v; simpl;
    repeat match goal with
           | |- context [if ?b then _ else _] => destruct b
           | |- context [match ?r with Ec_monitor_loop_routine => _ end] =>
               destruct r
           | |- context [match ?l with [] => _ | _ :: _ => _ end] =>
               destruct l
           end; try discriminate; eauto.
Qed.

Lemma delta_exit p code :
  delta p (EvExit code) <> None ->
  p = Past_join \/ (p = Fatal /\ code = 1 /\ delta p (EvExit code) = Some Dead).
Proof.
  destruct p; simpl; try congruence; auto.
  destruct (Z.eqb_spec code 1); [subst; auto | congruence].
Qed.

Lemma delta_create p r j p' :
  delta p (EvCreate r j) = Some p' ->
  p = Past_join \/ (p = In_snapshot /\ p' = Launched).
Proof.
  destruct p; simpl; try discriminate; auto.
  destruct r. intros E. inversion E. auto.
Qed.

Lemma delta_pre_launch p v p' :
  delta p v = Some p' -> pre_launch p' = true ->
  pre_launch p = true /\ forall r j, v <> EvCreate r j.
Proof.
  destruct p; simpl; try discriminate; destruct v; simpl;
    repeat match goal with
           | |- context [if ?b then _ else _] => destruct b
           | |- context [match ?r with Ec_monitor_loop_routine => _ end] =>
               destruct r
           | |- context [match ?l with [] => _ | _ :: _ => _ end] =>
               destruct l
           end; try discriminate;
    intros E; inversion E; subst; simpl; try discriminate;
    intros _; split; auto; discriminate.
Qed.

(** Outside the phase past the join, the only writes are those of read
    transactions: 0x80 to the command port, and bytes to the data port. *)
Lemma delta_write p b q p' :
  delta p (EvOut b q) = Some p' -> p <> Past_join ->
  read_access (EvOut b q) = true.
Proof.
  destruct p; simpl; try discriminate; try congruence;
    destruct (_ || _); auto; discriminate.
Qed.

Lemma replay_app p l1 l2 :
  replay p (l1 ++ l2) =
  match replay p l1 with Some p' => replay p' l2 | None => None end.
Proof.
  revert p. induction l1 as [|v l1 IH]; intros p; simpl; auto.
  destruct (delta p v); auto.
Qed.

(** ** Lists of threads and logs *)

Lemma length_set_nth {A} (x : A) : forall l i,
  List.length (set_nth i x l) = List.length l.
Proof.
  induction l as [|y l IH]; intros [|i]; simpl; auto.
Qed.

Lemma nth_error_set_nth_eq {A} (x : A) : forall l i y,
  nth_error l i = Some y -> nth_error (set_nth i x l) i = Some x.
Proof.
  induction l as [|z l IH]; intros [|i] y E; simpl in *; try discriminate; eauto.
Qed.

Lemma nth_error_set_nth_neq {A} (x : A) : forall l i j,
  i <> j -> nth_error (set_nth i x l) j = nth_error l j.
Proof.
  induction l as [|z l IH]; intros [|i] [|j] N; simpl; auto; try congruence.
Qed.

Lemma thread_log_app i l1 l2 :
  thread_log i (l1 ++ l2) = thread_log i l1 ++ thread_log i l2.
Proof. unfold thread_log. now rewrite filter_app, map_app. Qed.

Lemma thread_log_own i v : thread_log i [(i, v)] = [v].
Proof. unfold thread_log. simpl. now rewrite Nat.eqb_refl. Qed.

Lemma thread_log_other i j v : i <> j -> thread_log j [(i, v)] = [].
Proof.
  intros N. unfold thread_log. simpl.
  destruct (Nat.eqb_spec i j); [contradiction | reflexivity].
Qed.

Lemma thread_log_absent i l :
  (forall j v, In (j, v) l -> j <> i) -> thread_log i l = [].
Proof.
  unfold thread_log. induction l as [|[j v] l IH]; intros A; simpl; auto.
  destruct (Nat.eqb_spec j i) as [->|N].
  - now elim (A i v (or_introl eq_refl)).
  - apply IH. intros j' v' I'. apply (A j' v'). now right.
Qed.

(** ** Every execution keeps the threads to the order of calls *)

Section ProcessFacts.
Context {W : Type} `{World W}.

Lemma answer_ev_of {X} (e : ecE X) (w : W) x w' v :
  answer e w = Some (x, w', v) ->
  v = ev_of e x /\ (forall j, v <> EvJoin j) /\ (forall r j, v <> EvCreate r j).
Proof.
  destruct e; simpl; try discriminate;
    try (destruct (w_inb p w)); try (destruct (w_ioperm from num turn_on w));
    intros E; inversion E; subst; repeat split; discriminate.
Qed.

Lemma follows_tau p (t t' : itree ecE Z) :
  observe t = TauF t' -> follows p t -> follows p t'.
Proof.
  intros Ot F n. specialize (F (S n)). cbn [conforms] in F.
  now rewrite Ot in F.
Qed.

Lemma follows_ret p (t : itree ecE Z) r :
  observe t = RetF r -> follows p t -> p = Past_join.
Proof.
  intros Ot F. specialize (F 1%nat). cbn [conforms] in F.
  now rewrite Ot in F.
Qed.

Lemma follows_vis p (t : itree ecE Z) {X} (e : ecE X) k :
  observe t = VisF e k -> follows p t ->
  exit_ok p e /\
  forall x, exists p', delta p (ev_of e x) = Some p' /\ follows p' (k x).
Proof.
  intros Ot F. split.
  - specialize (F 1%nat). cbn [conforms] in F. rewrite Ot in F. apply F.
  - intros x.
    pose proof (F 1%nat) as F1. cbn [conforms] in F1. rewrite Ot in F1.
    destruct F1 as [_ F1]. destruct (F1 x) as (p' & D & _).
    exists p'. split; auto. intros n.
    specialize (F (S n)). cbn [conforms] in F. rewrite Ot in F.
    destruct F as [_ F]. destruct (F x) as (p'' & D' & C).
    congruence.
Qed.

Lemma boot_consistent (w : W) : consistent (boot w).
Proof.
  constructor; simpl.
  - discriminate.
  - intros i v [].
  - intros [|i] t E; simpl in E.
    + inversion E; subst. exists Acquire_sc. repeat split; try discriminate.
      * intros N. now elim N.
      * intros _. apply main_follows.
    + destruct i; discriminate.
  - discriminate.
  - reflexivity.
Qed.

(** A thread that exists and has not been joined has not returned. *)
Lemma consistent_not_joinable (c : process W) j :
  consistent c -> halted c = None -> joinable (threads c) j = false.
Proof.
  intros C Hh. unfold joinable.
  destruct (nth_error (threads c) j) as [t|] eqn:N; auto.
  destruct (observe t) as [r | |] eqn:Ot; auto.
  destruct (cons_threads c C j t N) as (p & _ & NJ & _ & F).
  now elim NJ; apply (follows_ret p t r Ot), F.
Qed.

Lemma start_phase_later j : j <> 0%nat -> start_phase j = Sampling.
Proof. destruct j; [congruence | reflexivity]. Qed.

Lemma set_nth_nonempty {A} i (x : A) l : l <> [] -> set_nth i x l <> [].
Proof. destruct l, i; simpl; congruence. Qed.

(** A silent step of thread [i]. *)
Lemma resume_silent_consistent (c : process W) i t t' :
  consistent c -> halted c = None -> nth_error (threads c) i = Some t ->
  (forall p, follows p t -> follows p t') ->
  consistent (resume i t' (world c) [] c).
Proof.
  intros C Hh N Fw.
  assert (P' : forall j, phase_of (resume i t' (world c) [] c) j = phase_of c j).
  { intros j. unfold phase_of, resume. simpl. now rewrite app_nil_r. }
  constructor; simpl.
  - apply set_nth_nonempty, (cons_main c C).
  - intros j v I. rewrite length_set_nth. rewrite app_nil_r in I.
    now apply (cons_tids c C j v).
  - intros j tj Nj. rewrite P'. destruct (Nat.eq_dec i j) as [<- | Nji].
    + rewrite (nth_error_set_nth_eq _ _ _ _ N) in Nj. inversion Nj; subst.
      destruct (cons_threads c C i t N) as (p & P & PJ & PS & F).
      exists p. repeat split; auto.
    + rewrite nth_error_set_nth_neq in Nj by auto.
      apply (cons_threads c C j tj Nj).
  - intros h E. congruence.
  - intros q Pq PL. rewrite length_set_nth. rewrite P' in Pq.
    apply (cons_alone c C q Pq PL).
Qed.

(** A call of thread [i] that the world answers. *)
Lemma resume_call_consistent (c : process W) i t t' w' v :
  consistent c -> halted c = None -> nth_error (threads c) i = Some t ->
  (forall j, v <> EvJoin j) ->
  (forall p, follows p t -> exists p', delta p v = Some p' /\ follows p' t') ->
  consistent (resume i t' w' [(i, v)] c).
Proof.
  intros C Hh N NJ Fw.
  destruct (cons_threads c C i t N) as (p & P & PJ & PS & F).
  destruct (Fw p (F Hh)) as (p' & D & F').
  assert (Own : phase_of (resume i t' w' [(i, v)] c) i = Some p').
  { unfold phase_of, resume. simpl.
    rewrite thread_log_app, thread_log_own, replay_app.
    unfold phase_of in P. rewrite P. simpl. now rewrite D. }
  assert (Other : forall j, i <> j ->
            phase_of (resume i t' w' [(i, v)] c) j = phase_of c j).
  { intros j Nij. unfold phase_of, resume. simpl.
    now rewrite thread_log_app, thread_log_other, app_nil_r. }
  constructor; simpl.
  - apply set_nth_nonempty, (cons_main c C).
  - intros j v' I. rewrite length_set_nth. apply in_app_or in I.
    destruct I as [I | [I | []]]; [now apply (cons_tids c C j v') |].
    inversion I; subst. apply nth_error_Some. congruence.
  - intros j tj Nj. destruct (Nat.eq_dec i j) as [<- | Nij].
    + rewrite (nth_error_set_nth_eq _ _ _ _ N) in Nj. inversion Nj; subst.
      exists p'. split; [exact Own|]. split; [| split].
      * intros ->. destruct (delta_past_join _ _ D) as [E | [j E]];
          [contradiction | now apply (NJ j)].
      * intros I0. rewrite (PS I0) in D. apply (delta_sampling _ _ D).
      * intros _. exact F'.
    + rewrite nth_error_set_nth_neq in Nj by auto. rewrite Other by auto.
      apply (cons_threads c C j tj Nj).
  - intros h E. congruence.
  - intros q Pq PL. rewrite length_set_nth.
    destruct (Nat.eq_dec i 0%nat) as [-> | N0].
    + rewrite Own in Pq. inversion Pq; subst q.
      destruct (delta_pre_launch _ _ _ D PL) as [PL0 _].
      apply (cons_alone c C p P PL0).
    + rewrite Other in Pq by auto. apply (cons_alone c C q Pq PL).
Qed.

(** exit, called by thread [i]: it is main, refused permission. *)
Lemma exit_consistent (c : process W) i t code k :
  consistent c -> halted c = None -> nth_error (threads c) i = Some t ->
  observe t = VisF (Exit code) k ->
  consistent (control i (Exit code) k c) /\ i = 0%nat /\ code = 1.
Proof.
  intros C Hh N Ot.
  destruct (cons_threads c C i t N) as (p & P & PJ & PS & F).
  destruct (follows_vis p t _ k Ot (F Hh)) as [EO _]. simpl in EO.
  destruct (delta_exit _ _ EO) as [E | (-> & -> & D)]; [contradiction|].
  assert (i = 0%nat) as ->
    by (destruct (Nat.eq_dec i 0%nat) as [E0 | N0]; auto; specialize (PS N0); discriminate).
  assert (Own : phase_of (control 0%nat (Exit 1) k c) 0%nat = Some Dead).
  { unfold phase_of, control. simpl.
    rewrite thread_log_app, thread_log_own, replay_app.
    unfold phase_of in P. simpl in P. now rewrite P. }
  assert (Other : forall j, 0%nat <> j ->
            phase_of (control 0%nat (Exit 1) k c) j = phase_of c j).
  { intros j Nij. unfold phase_of, control. simpl.
    now rewrite thread_log_app, thread_log_other, app_nil_r. }
  split; [| auto]. constructor; simpl.
  - apply (cons_main c C).
  - intros j v' I. apply in_app_or in I.
    destruct I as [I | [I | []]]; [now apply (cons_tids c C j v') |].
    inversion I; subst. apply nth_error_Some. congruence.
  - intros j tj Nj. destruct (Nat.eq_dec 0%nat j) as [<- | Nij].
    + exists Dead. repeat split; try discriminate; auto. intros E. now elim E.
    + rewrite Other by auto.
      destruct (cons_threads c C j tj Nj) as (pj & Pj & PJj & PSj & Fj).
      exists pj. repeat split; auto; discriminate.
  - intros h E. inversion E. auto.
  - intros q Pq PL. apply (cons_alone c C Fatal P eq_refl).
Qed.

(** pthread_create, called by thread [i]: it is main, at the end of the
    snapshot, and the new thread is a sampler. *)
Lemma create_consistent (c : process W) i t r k :
  consistent c -> halted c = None -> nth_error (threads c) i = Some t ->
  observe t = VisF (Pthread_create r) k ->
  consistent (control i (Pthread_create r) k c).
Proof.
  intros C Hh N Ot. destruct r.
  destruct (cons_threads c C i t N) as (p & P & PJ & PS & F).
  destruct (follows_vis p t _ k Ot (F Hh)) as [_ K].
  destruct (K (List.length (threads c))) as (p' & D & F'). simpl in D.
  destruct (delta_create _ _ _ _ D) as [E | (-> & ->)]; [contradiction|].
  assert (i = 0%nat) as ->
    by (destruct (Nat.eq_dec i 0%nat) as [E0 | N0]; auto; specialize (PS N0); discriminate).
  set (j := List.length (threads c)) in *.
  assert (Own : phase_of (control 0%nat (Pthread_create Ec_monitor_loop_routine) k c) 0%nat = Some Launched).
  { unfold phase_of, control. simpl.
    rewrite thread_log_app, thread_log_own, replay_app.
    unfold phase_of in P. simpl in P. now rewrite P. }
  assert (Other : forall m, 0%nat <> m ->
            phase_of (control 0%nat (Pthread_create Ec_monitor_loop_routine) k c) m = phase_of c m).
  { intros m Nij. unfold phase_of, control. simpl.
    now rewrite thread_log_app, thread_log_other, app_nil_r. }
  assert (J0 : j <> 0%nat).
  { unfold j. pose proof (cons_main c C). destruct (threads c); simpl; congruence. }
  constructor.
  - cbn [control threads]. intros E. apply (f_equal (@List.length _)) in E.
    rewrite length_app in E. simpl in E. lia.
  - cbn [control threads log]. intros m v' I.
    rewrite length_app, length_set_nth. simpl.
    apply in_app_or in I.
    destruct I as [I | [I | []]]; [apply (cons_tids c C m v') in I; lia |].
    inversion I; subst. lia.
  - intros m tm Nm. cbn [control threads] in Nm.
    destruct (Nat.lt_ge_cases m j) as [L | L].
    + rewrite nth_error_app1 in Nm by (now rewrite length_set_nth).
      destruct (Nat.eq_dec 0%nat m) as [<- | Nij].
      * rewrite (nth_error_set_nth_eq _ _ _ _ N) in Nm. inversion Nm; subst.
        exists Launched. split; [exact Own|]. split; [discriminate|].
        split; [intros E; now elim E | intros _; exact F'].
      * rewrite nth_error_set_nth_neq in Nm by auto. rewrite Other by auto.
        cbn [control halted]. apply (cons_threads c C m tm Nm).
    + rewrite nth_error_app2 in Nm by (now rewrite length_set_nth).
      rewrite length_set_nth in Nm. fold j in Nm.
      destruct (m - j)%nat as [|d] eqn:Dm; [| destruct d; discriminate].
      simpl in Nm. inversion Nm; subst tm.
      assert (m = j) as -> by lia.
      exists Sampling. rewrite Other by auto. unfold phase_of.
      rewrite thread_log_absent.
      * rewrite start_phase_later by exact J0. simpl.
        split; [reflexivity|]. split; [discriminate|]. split; [auto|].
        intros _. apply (routine_follows Ec_monitor_loop_routine).
      * intros m v' I E. subst m. apply (cons_tids c C) in I. unfold j in I. lia.
  - cbn [control halted]. intros h E. congruence.
  - intros q Pq PL. rewrite Own in Pq. inversion Pq; subst. discriminate.
Qed.

(** Every step keeps the process consistent. *)
Lemma step_consistent i (c : process W) : consistent c -> consistent (step i c).
Proof.
  intros C. unfold step.
  destruct (halted c) eqn:Hh; auto.
  destruct (nth_error (threads c) i) as [t|] eqn:N; auto.
  destruct (cons_threads c C i t N) as (p & P & PJ & PS & F).
  destruct (observe t) as [r | t' | X e k] eqn:Ot.
  - now elim PJ; apply (follows_ret p t r Ot), F.
  - apply (resume_silent_consistent c i t t' C Hh N).
    intros q. apply follows_tau, Ot.
  - destruct (answer e (world c)) as [[[x w'] v]|] eqn:A.
    + destruct (answer_ev_of _ _ _ _ _ A) as (-> & NJ & _).
      apply (resume_call_consistent c i t (k x) w' _ C Hh N NJ).
      intros q Fq. apply (follows_vis q t e k Ot Fq).
    + destruct e; simpl in A;
        try discriminate A;
        try (destruct (w_inb p0 (world c)); discriminate A);
        try (destruct (w_ioperm from num turn_on (world c)); discriminate A).
      * apply (exit_consistent c i t code k C Hh N Ot).
      * apply (create_consistent c i t start k C Hh N Ot).
      * simpl. now rewrite (consistent_not_joinable c t0 C Hh).
Qed.

(** Every execution of the program keeps the process consistent. *)
Lemma exec_consistent sched : forall c : process W,
  consistent c -> consistent (exec sched c).
Proof.
  induction sched as [|i sched IH]; intros c C; simpl; auto.
  apply IH, step_consistent, C.
Qed.

Lemma run_consistent sched (w : W) : consistent (exec sched (boot w)).
Proof. apply exec_consistent, boot_consistent. Qed.

End ProcessFacts.

(** ** Transactions are not serialized *)

Lemma serialized_one_thread i : forall l open,
  (forall j v, In (j, v) l -> j = i) ->
  (open = None \/ exists s, open = Some (i, s)) ->
  serialized_from open l = true.
Proof.
  induction l as [|[j v] l IH]; intros open A O; simpl; auto.
  assert (j = i) as -> by (apply (A j v); now left).
  assert (A' : forall j v, In (j, v) l -> j = i)
    by (intros j' v' I'; apply (A j' v'); now right).
  destruct (is_port_access v); [| now apply IH].
  destruct O as [-> | [s ->]].
  - destruct (tx_next Quiet v); apply IH; eauto.
  - rewrite Nat.eqb_refl. destruct (tx_next s v); apply IH; eauto.
Qed.

(** The racing schedule interleaves the diagnostic read of main with the
    first read of the sampler, and main then prints the value of register
    0x00 as the flag of register 0x01. *)
Lemma racing_log :
  let c := exec racing_schedule (boot demo_ec) in
  serialized (log c) = false /\
  skipn 78 (log c) =
    [(0%nat, EvIn EC_SC 0); (0%nat, EvOut 0x80 EC_SC);
     (0%nat, EvIn EC_SC 0); (0%nat, EvOut 0x01 EC_DATA);
     (1%nat, EvPrintf fmt_monitor_start []);
     (1%nat, EvIn EC_SC 1); (1%nat, EvOut 0x80 EC_SC);
     (1%nat, EvIn EC_SC 1); (1%nat, EvOut 0x00 EC_DATA);
     (0%nat, EvIn EC_SC 1); (0%nat, EvIn EC_DATA 10);
     (0%nat, EvPrintf fmt_acpi_flag [10])] /\
  regs demo_ec 0x00 = 10 /\ regs demo_ec 0x01 = 11.
Proof. vm_compute. repeat split. Qed.

(** The claim of C3, that the port accesses of two transactions never
    interleave, fails on the racing schedule against the simulated
    controller. *)
Lemma transactions_interleave_on_racing_schedule :
  serialized (log (exec racing_schedule (boot demo_ec))) = false.
Proof. vm_compute. reflexivity. Qed.

(** C3, amended.  The program takes no lock.  As long as main is the only
    thread, that is up to the creation of the sampler, the port accesses of
    two transactions cannot interleave.  Once the sampler exists they can:
    on the racing schedule the diagnostic read of main and the first read of
    the sampler interleave, and main prints the value of register 0x00 as
    the flag read from register 0x01. *)
Theorem transactions_serialized_only_before_launch :
  (forall (W : Type) (H : World W) (w : W) sched,
     List.length (threads (exec sched (boot w))) = 1%nat ->
     serialized (log (exec sched (boot w))) = true)
  /\
  (let c := exec racing_schedule (boot demo_ec) in
   List.length (threads c) = 2%nat /\
   serialized (log c) = false /\
   In (0%nat, EvPrintf fmt_acpi_flag [regs demo_ec 0x00]) (log c) /\
   regs demo_ec 0x00 <> regs demo_ec 0x01).
Proof.
  split.
  - intros W H w sched L. apply (serialized_one_thread 0%nat); auto.
    intros j v I.
    apply (cons_tids _ (run_consistent sched w)) in I. lia.
  - destruct racing_log as (R1 & R2 & R3 & R4). cbv zeta in *.
    split; [vm_compute; reflexivity|]. split; [exact R1|].
    rewrite R3, R4. split; [| discriminate].
    rewrite <- (firstn_skipn 78 (log _)). apply in_or_app. right.
    rewrite R2. simpl. auto 15.
Qed.

(** ** The startup sequence, read off the log of main *)

Lemma truthy_false r : truthy r = false -> r = 0.
Proof. unfold truthy. destruct (Z.eqb_spec r 0); [auto | discriminate]. Qed.

Lemma truthy_true r : truthy r = true -> r <> 0.
Proof. unfold truthy. destruct (Z.eqb_spec r 0); [discriminate | auto]. Qed.

Lemma ioperm_args f n o q :
  (f =? q) && (n =? 1) && (o =? 1) = true -> f = q /\ n = 1 /\ o = 1.
Proof.
  intros E. apply andb_prop in E. destruct E as [E E3].
  apply andb_prop in E. destruct E as [E1 E2].
  apply Z.eqb_eq in E1, E2, E3. auto.
Qed.

Lemma forallb_snoc {A} (f : A -> bool) l x :
  forallb f l = true -> f x = true -> forallb f (l ++ [x]) = true.
Proof. intros A1 A2. rewrite forallb_app, A1. simpl. now rewrite A2. Qed.

(** One more call of main, made where it belongs, extends the startup
    sequence. *)
Lemma startup_order_step p l v p' :
  startup_order p l -> delta p v = Some p' -> p' <> Past_join ->
  startup_order p' (l ++ [v]).
Proof.
  destruct p; simpl; intros S D NJ.
  - (* Acquire_sc *)
    subst l. destruct v; try discriminate.
    destruct ((from =? EC_SC) && (num =? 1) && (turn_on =? 1)) eqn:T;
      [| discriminate].
    apply ioperm_args in T. destruct T as (-> & -> & ->).
    destruct (truthy r) eqn:R; inversion D; subst; simpl.
    + left. exists r. split; [now apply truthy_true | reflexivity].
    + now rewrite (truthy_false r R).
  - (* Acquire_data *)
    subst l. destruct v; try discriminate.
    destruct ((from =? EC_DATA) && (num =? 1) && (turn_on =? 1)) eqn:T;
      [| discriminate].
    apply ioperm_args in T. destruct T as (-> & -> & ->).
    destruct (truthy r) eqn:R; inversion D; subst; simpl.
    + right. exists r. split; [now apply truthy_true | reflexivity].
    + now rewrite (truthy_false r R).
  - (* Denied *)
    destruct v; try discriminate.
    destruct (String.eqb_spec s "ioperm"); [| discriminate].
    inversion D; subst. simpl. eauto.
  - (* Fatal *)
    destruct S as (l0 & R & ->). destruct v; try discriminate.
    destruct (Z.eqb_spec code 1); [| discriminate].
    inversion D; subst. simpl. exists l0. split; auto.
    rewrite <- ?app_assoc. reflexivity.
  - (* Dead *) discriminate.
  - (* Granted *)
    subst l. destruct v; try discriminate. destruct args; try discriminate.
    destruct (String.eqb_spec fmt fmt_dump_header); [| discriminate].
    inversion D; subst. simpl. exists []. auto.
  - (* In_snapshot *)
    destruct S as (s & -> & F).
    assert (K : (exists j, v = EvCreate Ec_monitor_loop_routine j /\ p' = Launched)
                \/ (snapshot_call v = true /\ p' = In_snapshot)).
    { destruct v; simpl in *;
        try (destruct (_ || _); inversion D; auto; fail);
        try discriminate.
      - destruct (snapshot_line fmt); inversion D; auto.
      - destruct start. inversion D. eauto. }
    destruct K as [(j & -> & ->) | (C & ->)]; simpl.
    + exists s, j. split; auto.
    + exists (s ++ [v]). split; [| now apply forallb_snoc].
      rewrite <- ?app_assoc. reflexivity.
  - (* Launched *)
    destruct S as (s & j & -> & F).
    destruct v; try discriminate. destruct args; try discriminate.
    destruct (String.eqb_spec fmt fmt_acpi_header); [| discriminate].
    inversion D; subst. simpl. exists s, j, []. split; auto.
    rewrite <- ?app_assoc. reflexivity.
  - (* In_diagnostic *)
    destruct S as (s & j & d & -> & F1 & F2).
    assert (K : (exists x, v = EvIn EC_DATA x /\ p' = Diagnosed x)
                \/ (diagnostic_call v = true /\ p' = In_diagnostic)).
    { destruct v; simpl in *; try discriminate.
      - destruct (Z.eqb_spec p EC_DATA) as [-> |]; [inversion D; eauto|].
        destruct (p =? EC_SC); inversion D; auto.
      - destruct (_ || _); inversion D; auto. }
    destruct K as [(x & -> & ->) | (C & ->)]; simpl.
    + exists s, j, d. split; [| split; auto].
      rewrite <- ?app_assoc. simpl. rewrite <- ?app_assoc. reflexivity.
    + exists s, j, (d ++ [v]). split; [| split; auto using forallb_snoc].
      rewrite <- ?app_assoc. simpl. rewrite <- ?app_assoc. reflexivity.
  - (* Diagnosed *)
    destruct S as (s & j & d & -> & F1 & F2).
    destruct v as [| | | | | fmt args | | |]; try discriminate.
    destruct args as [|y [|]]; try discriminate.
    destruct (String.eqb_spec fmt fmt_acpi_flag); [| discriminate].
    destruct (Z.eqb_spec y v0); [| discriminate].
    inversion D; subst. simpl. exists s, j, d, v0. split; [| split; auto].
    rewrite <- ?app_assoc. simpl. rewrite <- ?app_assoc. reflexivity.
  - (* At_join *)
    destruct v; try discriminate. inversion D; subst. now elim NJ.
  - (* Past_join *) inversion D; subst. now elim NJ.
  - (* Sampling *) contradiction.
Qed.

Lemma replay_past_join l : replay Past_join l = Some Past_join.
Proof. induction l; simpl; auto. Qed.

Lemma replay_startup_order : forall l2 l1 p p',
  startup_order p l1 -> replay p l2 = Some p' -> p' <> Past_join ->
  startup_order p' (l1 ++ l2).
Proof.
  induction l2 as [|v l2 IH]; intros l1 p p' S R NJ; simpl in R.
  - inversion R; subst. now rewrite app_nil_r.
  - destruct (delta p v) as [p1|] eqn:D; [| discriminate].
    replace (l1 ++ v :: l2) with ((l1 ++ [v]) ++ l2)
      by (now rewrite <- app_assoc).
    apply (IH _ p1); auto.
    apply (startup_order_step p); auto.
    intros ->. rewrite replay_past_join in R. inversion R. now elim NJ.
Qed.

(** A thread that is not past the join has no completed join in its
    log. *)
Lemma replay_no_join : forall l p p',
  replay p l = Some p' -> p' <> Past_join -> forall j, ~ In (EvJoin j) l.
Proof.
  induction l as [|v l IH]; intros p p' R NJ j I; simpl in *; [contradiction|].
  destruct (delta p v) as [p1|] eqn:D; [| discriminate].
  destruct I as [-> | I]; [| exact (IH _ _ R NJ j I)].
  assert (p1 = Past_join) as ->.
  { destruct p; simpl in D; try discriminate; inversion D; auto. }
  rewrite replay_past_join in R. inversion R. now elim NJ.
Qed.

(** ** Executions in which main is alone *)

Section AloneFacts.
Context {W : Type} `{World W}.

Lemma main_moves_main sched : main_moves (0%nat :: sched) = S (main_moves sched).
Proof. reflexivity. Qed.

Lemma step_halted i (c : process W) : halted c <> None -> step i c = c.
Proof. unfold step. destruct (halted c); congruence. Qed.

Lemma exec_halted sched : forall c : process W,
  halted c <> None -> exec sched c = c.
Proof.
  induction sched as [|i sched IH]; intros c Hh; simpl; auto.
  rewrite step_halted by auto. auto.
Qed.

Lemma step_absent i (c : process W) :
  List.length (threads c) = 1%nat -> step (S i) c = c.
Proof.
  intros L. unfold step. destruct (halted c); auto.
  destruct (threads c) as [|t [|t' ts]]; try discriminate.
  simpl. now destruct i.
Qed.

Lemma step_blocked i (c : process W) : blocked_at_join i c = true -> step i c = c.
Proof.
  unfold blocked_at_join, step. destruct (halted c); auto.
  destruct (nth_error (threads c) i) as [t|]; auto.
  destruct (observe t) as [r | t' | X e k]; try discriminate.
  destruct e; try discriminate. simpl.
  destruct (joinable (threads c) t0); [discriminate | reflexivity].
Qed.

Lemma exec_stuck i (c : process W) :
  step i c = c -> forall n, exec (repeat i n) c = c.
Proof. intros B. induction n as [|n IH]; simpl; [| rewrite B]; auto. Qed.

(** If main ends the process with its [n]-th move and is alone until then,
    every schedule that gives main [n] moves ends in the same state. *)
Lemma exec_alone : forall sched n (c : process W),
  (forall k, (k <= n)%nat ->
     List.length (threads (Nat.iter k (step 0%nat) c)) = 1%nat) ->
  halted (Nat.iter n (step 0%nat) c) <> None ->
  (n <= main_moves sched)%nat ->
  exec sched c = Nat.iter n (step 0%nat) c.
Proof.
  induction sched as [|i sched IH]; intros n c A Hh M.
  - unfold main_moves in M. simpl in M.
    assert (n = 0%nat) as -> by lia. reflexivity.
  - destruct i as [|i].
    + destruct n as [|n].
      * simpl in *. rewrite step_halted by auto. now apply exec_halted.
      * simpl exec. rewrite Nat.iter_succ_r. apply IH.
        -- intros k L. rewrite <- Nat.iter_succ_r. apply A. lia.
        -- now rewrite <- Nat.iter_succ_r.
        -- rewrite main_moves_main in M. lia.
    + simpl exec. rewrite step_absent by (apply (A 0%nat); lia).
      apply IH; auto.
Qed.

(** Permission refused for the command port: main has exited with its
    third move. *)
Lemma refused_sc_exec (w : W) r w1 :
  w_ioperm EC_SC 1 1 w = (r, w1) -> truthy r = true ->
  let c := Nat.iter 3 (step 0%nat) (boot w) in
  halted c = Some (Exit_called 1) /\
  log c = [(0%nat, EvIoperm EC_SC 1 1 r); (0%nat, EvPerror "ioperm");
           (0%nat, EvExit 1)] /\
  world c = w1 /\
  forall k, (k <= 3)%nat ->
    List.length (threads (Nat.iter k (step 0%nat) (boot w))) = 1%nat.
Proof.
  intros E R. cbv zeta.
  assert (C1 : exists t1,
    step 0%nat (boot w) =
      {| threads := [t1]; world := w1;
         log := [(0%nat, EvIoperm EC_SC 1 1 r)]; halted := None |} /\
    exists k1, observe t1 = VisF (Perror "ioperm") k1 /\
    exists k2, observe (k1 tt) = VisF (Exit 1) k2).
  { eexists. split.
    - unfold step, boot. simpl. rewrite E. reflexivity.
    - simpl. rewrite R. simpl. eexists. split; [reflexivity|].
      simpl. eexists. reflexivity. }
  destruct C1 as (t1 & C1 & k1 & O1 & k2 & O2).
  assert (C2 : step 0%nat (step 0%nat (boot w)) =
    {| threads := [k1 tt]; world := w1;
       log := [(0%nat, EvIoperm EC_SC 1 1 r); (0%nat, EvPerror "ioperm")];
       halted := None |}).
  { rewrite C1. unfold step. simpl. rewrite O1. reflexivity. }
  assert (C3 : step 0%nat (step 0%nat (step 0%nat (boot w))) =
    {| threads := [k1 tt]; world := w1;
       log := [(0%nat, EvIoperm EC_SC 1 1 r); (0%nat, EvPerror "ioperm");
               (0%nat, EvExit 1)];
       halted := Some (Exit_called 1) |}).
  { rewrite C2. unfold step. simpl. rewrite O2. reflexivity. }
  unfold Nat.iter. cbn [nat_rect]. rewrite C3. repeat split.
  intros [|[|[|[|k]]]] L; cbn [nat_rect]; rewrite ?C3, ?C2, ?C1;
    try reflexivity. lia.
Qed.

(** Permission given for the command port and refused for the data port:
    main has exited with its fourth move. *)
Lemma refused_data_exec (w : W) r1 w1 r2 w2 :
  w_ioperm EC_SC 1 1 w = (r1, w1) -> truthy r1 = false ->
  w_ioperm EC_DATA 1 1 w1 = (r2, w2) -> truthy r2 = true ->
  let c := Nat.iter 4 (step 0%nat) (boot w) in
  halted c = Some (Exit_called 1) /\
  log c = [(0%nat, EvIoperm EC_SC 1 1 r1); (0%nat, EvIoperm EC_DATA 1 1 r2);
           (0%nat, EvPerror "ioperm"); (0%nat, EvExit 1)] /\
  world c = w2 /\
  forall k, (k <= 4)%nat ->
    List.length (threads (Nat.iter k (step 0%nat) (boot w))) = 1%nat.
Proof.
  intros E1 R1 E2 R2. cbv zeta.
  assert (C1 : exists t1,
    step 0%nat (boot w) =
      {| threads := [t1]; world := w1;
         log := [(0%nat, EvIoperm EC_SC 1 1 r1)]; halted := None |} /\
    exists k0, observe t1 = VisF (Ioperm EC_DATA 1 1) k0 /\
    exists k1, observe (k0 r2) = VisF (Perror "ioperm") k1 /\
    exists k2, observe (k1 tt) = VisF (Exit 1) k2).
  { eexists. split.
    - unfold step, boot. simpl. rewrite E1. reflexivity.
    - simpl. rewrite R1. simpl. eexists. split; [reflexivity|].
      simpl. rewrite R2. simpl. eexists. split; [reflexivity|].
      simpl. eexists. reflexivity. }
  destruct C1 as (t1 & C1 & k0 & O0 & k1 & O1 & k2 & O2).
  assert (C2 : step 0%nat (step 0%nat (boot w)) =
    {| threads := [k0 r2]; world := w2;
       log := [(0%nat, EvIoperm EC_SC 1 1 r1);
               (0%nat, EvIoperm EC_DATA 1 1 r2)];
       halted := None |}).
  { rewrite C1. unfold step. simpl. rewrite O0. simpl. rewrite E2.
    reflexivity. }
  assert (C3 : step 0%nat (step 0%nat (step 0%nat (boot w))) =
    {| threads := [k1 tt]; world := w2;
       log := [(0%nat, EvIoperm EC_SC 1 1 r1);
               (0%nat, EvIoperm EC_DATA 1 1 r2); (0%nat, EvPerror "ioperm")];
       halted := None |}).
  { rewrite C2. unfold step. simpl. rewrite O1. reflexivity. }
  assert (C4 : step 0%nat (step 0%nat (step 0%nat (step 0%nat (boot w)))) =
    {| threads := [k1 tt]; world := w2;
       log := [(0%nat, EvIoperm EC_SC 1 1 r1);
               (0%nat, EvIoperm EC_DATA 1 1 r2); (0%nat, EvPerror "ioperm");
               (0%nat, EvExit 1)];
       halted := Some (Exit_called 1) |}).
  { rewrite C3. unfold step. simpl. rewrite O2. reflexivity. }
  unfold Nat.iter. cbn [nat_rect]. rewrite C4. repeat split.
  intros [|[|[|[|[|k]]]]] L; cbn [nat_rect]; rewrite ?C4, ?C3, ?C2, ?C1;
    try reflexivity. lia.
Qed.

End AloneFacts.

(** ** The world is what the log made of it *)

Section WorldFacts.
Context {W : Type} `{World W}.

Lemma answer_apply {X} (e : ecE X) (w : W) x w' v :
  answer e w = Some (x, w', v) -> w' = apply_ev w v.
Proof.
  destruct e; simpl; try discriminate.
  - destruct (w_inb p w) eqn:E. intros A. inversion A; subst. simpl.
    now rewrite E.
  - intros A. inversion A; subst. reflexivity.
  - destruct (w_ioperm from num turn_on w) eqn:E. intros A.
    inversion A; subst. simpl. now rewrite E.
  - intros A. inversion A; subst. reflexivity.
  - intros A. inversion A; subst. reflexivity.
  - intros A. inversion A; subst. reflexivity.
Qed.

Lemma step_world i (c : process W) :
  exists es, log (step i c) = log c ++ es /\
             world (step i c) = fold_left apply_ev (map snd es) (world c).
Proof.
  assert (Same : exists es, log c = log c ++ es /\
            world c = fold_left apply_ev (map snd es) (world c))
    by (exists []; now rewrite app_nil_r).
  unfold step. destruct (halted c); auto.
  destruct (nth_error (threads c) i) as [t|]; auto.
  destruct (observe t) as [r | t' | X e k].
  - destruct (Nat.eqb i 0); auto.
  - exists []. auto.
  - destruct (answer e (world c)) as [[[x w'] v]|] eqn:A.
    + exists [(i, v)]. simpl. split; auto. apply (answer_apply _ _ _ _ _ A).
    + destruct e; simpl; auto.
      * exists [(i, EvExit code)]. auto.
      * exists [(i, EvCreate start (List.length (threads c)))]. auto.
      * destruct (joinable (threads c) t0); auto.
        exists [(i, EvJoin t0)]. auto.
Qed.

Lemma exec_world sched : forall c : process W,
  exists es, log (exec sched c) = log c ++ es /\
             world (exec sched c) = fold_left apply_ev (map snd es) (world c).
Proof.
  induction sched as [|i sched IH]; intros c; simpl.
  - exists []. now rewrite app_nil_r.
  - destruct (step_world i c) as (e1 & L1 & W1).
    destruct (IH (step i c)) as (e2 & L2 & W2).
    exists (e1 ++ e2). rewrite L2, L1, W2, W1, map_app, fold_left_app.
    now rewrite app_assoc.
Qed.

(** The world of a process is the world it booted in, after the calls of
    its log. *)
Lemma world_of_log sched (w : W) :
  world (exec sched (boot w)) =
  fold_left apply_ev (map snd (log (exec sched (boot w)))) w.
Proof.
  destruct (exec_world sched (boot w)) as (es & L & E).
  rewrite L, E. reflexivity.
Qed.

End WorldFacts.

(** ** What every execution of the program does *)

Lemma in_thread_log i v l : In (i, v) l -> In v (thread_log i l).
Proof.
  intros I. unfold thread_log. apply in_map_iff. exists (i, v). split; auto.
  apply filter_In. split; auto. simpl. apply Nat.eqb_refl.
Qed.

Lemma log_of_one_thread i : forall l,
  (forall j v, In (j, v) l -> j = i) -> l = map (pair i) (thread_log i l).
Proof.
  unfold thread_log. induction l as [|[j v] l IH]; intros A; simpl; auto.
  assert (j = i) as -> by (apply (A j v); now left).
  rewrite Nat.eqb_refl. simpl. f_equal. apply IH.
  intros j' v' I'. apply (A j' v'). now right.
Qed.

(** The writes of a thread that is not past the join are writes of read
    transactions. *)
Lemma replay_writes : forall l p p',
  replay p l = Some p' -> p' <> Past_join ->
  forall b q, In (EvOut b q) l -> read_access (EvOut b q) = true.
Proof.
  induction l as [|v l IH]; intros p p' R NJ b q I; simpl in *; [contradiction|].
  destruct (delta p v) as [p1|] eqn:D; [| discriminate].
  assert (p <> Past_join).
  { intros ->. simpl in D. inversion D; subst.
    rewrite replay_past_join in R. inversion R. now elim NJ. }
  destruct I as [-> | I]; [| exact (IH _ _ R NJ b q I)].
  apply (delta_write p _ _ p1); auto.
Qed.

Lemma read_access_write b q :
  read_access (EvOut b q) = true -> (q = EC_SC /\ b = 0x80) \/ q = EC_DATA.
Proof.
  simpl. intros E. apply orb_prop in E. destruct E as [E | E].
  - apply andb_prop in E. destruct E as [E1 E2].
    apply Z.eqb_eq in E1, E2. auto.
  - apply Z.eqb_eq in E. auto.
Qed.

(** A call that is not the write of 0x81 or of another command leaves the
    registers of a quiet controller alone, and the controller quiet. *)
Lemma sim_apply_harmless (s : sim_ec) v :
  sim_quiet s -> harmless v ->
  sim_quiet (apply_ev s v) /\ regs (apply_ev s v) = regs s.
Proof.
  intros Q Hv. destruct v; simpl; auto.
  - unfold sim_inb. destruct (p =? EC_SC); [auto|].
    destruct (p =? EC_DATA); auto.
    destruct (outbuf s); auto. destruct (Nat.eqb (busy s) 0); auto.
  - specialize (Hv v p eq_refl). apply read_access_write in Hv.
    unfold sim_outb. destruct (negb (Nat.eqb (busy s) 0)); [auto|].
    destruct Hv as [[-> ->] | ->].
    + change (EC_SC =? EC_SC) with true. cbv iota.
      split; [right; reflexivity | reflexivity].
    + change (EC_DATA =? EC_SC) with false.
      change (EC_DATA =? EC_DATA) with true. cbv iota.
      destruct Q as [Q | Q]; rewrite Q.
      * split; [left; exact Q | reflexivity].
      * split; [left; reflexivity | reflexivity].
Qed.

Lemma sim_log_harmless : forall l (s : sim_ec),
  sim_quiet s -> Forall harmless l ->
  regs (fold_left apply_ev l s) = regs s.
Proof.
  induction l as [|v l IH]; intros s Q F; simpl; auto.
  inversion F as [|? ? Hv F']; subst.
  destruct (sim_apply_harmless s v Q Hv) as [Q' R].
  rewrite (IH _ Q' F'). exact R.
Qed.

Section Executions.
Context {W : Type} `{World W}.

(** Every thread of every execution is where its log says, and not past
    the join. *)
Lemma thread_phase sched (w : W) i v :
  In (i, v) (log (exec sched (boot w))) ->
  exists p, replay (start_phase i) (thread_log i (log (exec sched (boot w))))
            = Some p /\ p <> Past_join.
Proof.
  intros I. pose proof (run_consistent sched w) as C.
  pose proof (cons_tids _ C i v I) as L.
  apply nth_error_Some in L.
  destruct (nth_error (threads (exec sched (boot w))) i) as [t|] eqn:N;
    [| congruence].
  destruct (cons_threads _ C i t N) as (p & P & NJ & _). eauto.
Qed.

Lemma main_phase sched (w : W) :
  exists p, phase_of (exec sched (boot w)) 0%nat = Some p /\ p <> Past_join /\
            startup_order p (thread_log 0%nat (log (exec sched (boot w)))).
Proof.
  pose proof (run_consistent sched w) as C.
  destruct (threads (exec sched (boot w))) as [|t ts] eqn:T;
    [now elim (cons_main _ C)|].
  destruct (cons_threads _ C 0%nat t) as (p & P & NJ & _);
    [now rewrite T|].
  exists p. repeat split; auto.
  apply (replay_startup_order _ [] Acquire_sc); auto. reflexivity.
Qed.

Lemma writes_are_reads sched (w : W) i b q :
  In (i, EvOut b q) (log (exec sched (boot w))) ->
  read_access (EvOut b q) = true.
Proof.
  intros I. destruct (thread_phase sched w i _ I) as (p & P & NJ).
  apply (replay_writes _ _ _ P NJ). now apply in_thread_log.
Qed.

End Executions.

(** ** The sampler on its own *)

(** A function that keeps to the calls of the sampler neither exits nor
    makes a thread call: run on its own it returns or is still running. *)
Lemma sampling_run {W} `{World W} {R} n :
  forall (t : itree ecE R) Q (w : W) o w' tr,
  conforms n Sampling t Q -> run n t w = (o, w', tr) ->
  o = Spinning \/ exists r, o = Returned r /\ Q Sampling r.
Proof.
  induction n as [|n IH]; intros t Q w o w' tr C E; simpl in E.
  - inversion E. auto.
  - cbn [conforms] in C. destruct (observe t) as [r | t' | X e k].
    + inversion E; subst. eauto.
    + eauto.
    + destruct C as [EO C].
      destruct (answer e w) as [[[x w1] v]|] eqn:A.
      * destruct (run n (k x) w1) as [[o1 w2] tr1] eqn:E1.
        inversion E; subst.
        destruct (C x) as (p' & D & C').
        apply delta_sampling in D. subst p'. eauto.
      * destruct e; simpl in A;
          try discriminate A;
          try (destruct (w_inb p w); discriminate A);
          try (destruct (w_ioperm from num turn_on w); discriminate A).
        -- simpl in EO. now elim EO.
        -- destruct (C 0%nat) as (p' & D & _). discriminate.
        -- destruct (C tt) as (p' & D & _). discriminate.
Qed.

(** The sampler, run on its own in any world, is still running after any
    number of steps. *)
Lemma ec_monitor_loop_spins {W} `{World W} n (w : W) :
  fst (fst (run n ec_monitor_loop w)) = Spinning.
Proof.
  destruct (run n ec_monitor_loop w) as [[o w'] tr] eqn:E. simpl.
  destruct (sampling_run n _ (fun _ _ => False) w o w' tr
              (ec_monitor_loop_conforms n _) E) as [-> | (r & _ & [])].
  reflexivity.
Qed.

(** ** Startup, exit and the permanent join *)

(** C8.  If ioperm is refused for the command port, or given for it and
    refused for the data port, then as soon as main has made its three
    (four) moves the process has ended with exit status 1, and its whole log
    is the request(s), perror("ioperm") and exit(1): no port was accessed
    and no request was made twice.  And this is the only way the process
    ever ends: in every execution in any world, if the process has ended
    then it ended by exit(1), and its log is exactly a refused request, the
    perror and the exit. *)
Theorem permission_failure_is_fatal :
  forall (W : Type) (H : World W) (w : W),
    (truthy (fst (w_ioperm EC_SC 1 1 w)) = true ->
     forall sched, (3 <= main_moves sched)%nat ->
       halted (exec sched (boot w)) = Some (Exit_called 1) /\
       log (exec sched (boot w)) =
         [(0%nat, EvIoperm EC_SC 1 1 (fst (w_ioperm EC_SC 1 1 w)));
          (0%nat, EvPerror "ioperm"); (0%nat, EvExit 1)])
    /\
    (truthy (fst (w_ioperm EC_SC 1 1 w)) = false ->
     truthy (fst (w_ioperm EC_DATA 1 1 (snd (w_ioperm EC_SC 1 1 w)))) = true ->
     forall sched, (4 <= main_moves sched)%nat ->
       halted (exec sched (boot w)) = Some (Exit_called 1) /\
       log (exec sched (boot w)) =
         [(0%nat, EvIoperm EC_SC 1 1 (fst (w_ioperm EC_SC 1 1 w)));
          (0%nat, EvIoperm EC_DATA 1 1
                    (fst (w_ioperm EC_DATA 1 1 (snd (w_ioperm EC_SC 1 1 w)))));
          (0%nat, EvPerror "ioperm"); (0%nat, EvExit 1)])
    /\
    (forall sched h,
       halted (exec sched (boot w)) = Some h ->
       h = Exit_called 1 /\
       exists l0, refused_log l0 /\
         log (exec sched (boot w)) =
         map (pair 0%nat) (l0 ++ [EvPerror "ioperm"; EvExit 1])).
Proof.
  intros W H w. split; [| split].
  - intros R sched M.
    destruct (w_ioperm EC_SC 1 1 w) as [r w1] eqn:E. simpl in R.
    destruct (refused_sc_exec w r w1 E R) as (Hh & L & _ & A).
    rewrite (exec_alone sched 3 (boot w) A) by (rewrite ?Hh; auto; discriminate).
    cbn [fst snd]. split; assumption.
  - intros R1 R2 sched M.
    destruct (w_ioperm EC_SC 1 1 w) as [r1 w1] eqn:E1. simpl in R1, R2.
    destruct (w_ioperm EC_DATA 1 1 w1) as [r2 w2] eqn:E2. simpl in R2.
    destruct (refused_data_exec w r1 w1 r2 w2 E1 R1 E2 R2) as (Hh & L & _ & A).
    rewrite (exec_alone sched 4 (boot w) A) by (rewrite ?Hh; auto; discriminate).
    cbn [fst snd]. rewrite E2. cbn [fst snd]. split; assumption.
  - intros sched h Hh.
    pose proof (run_consistent sched w) as C.
    destruct (cons_halted _ C h Hh) as [-> D]. split; auto.
    pose proof (cons_alone _ C Dead D eq_refl) as L.
    destruct (main_phase sched w) as (p & P & NJ & S).
    rewrite D in P. inversion P; subst p. simpl in S.
    destruct S as (l0 & R & E). exists l0. split; auto.
    rewrite <- E. apply log_of_one_thread.
    intros j v I. apply (cons_tids _ C) in I. lia.
Qed.

Lemma permission_failure_is_fatal_witness :
  halted (exec [0; 0; 0]%nat (boot (sim_boot (fun _ => 0) 1 false)))
    = Some (Exit_called 1) /\
  log (exec [0; 0; 0]%nat (boot (sim_boot (fun _ => 0) 1 false))) =
    [(0%nat, EvIoperm EC_SC 1 1 (-1)); (0%nat, EvPerror "ioperm");
     (0%nat, EvExit 1)].
Proof.
  exact (proj1 (permission_failure_is_fatal sim_ec _
                  (sim_boot (fun _ => 0) 1 false))
               eq_refl [0; 0; 0]%nat (le_n 3)).
Defined.

(** C10.  In every execution in any world, every write to a port is a write
    of a read transaction: the byte 0x80 to the command port or a byte to
    the data port.  The command byte of a write transaction, 0x81, is never
    written to the command port.  Against the simulated controller the
    registers are the same after every execution as before it. *)
Theorem no_write_transaction :
  (forall (W : Type) (H : World W) (w : W) sched i b q,
     In (i, EvOut b q) (log (exec sched (boot w))) ->
     (q = EC_SC /\ b = 0x80) \/ q = EC_DATA)
  /\
  (forall (W : Type) (H : World W) (w : W) sched i,
     ~ In (i, EvOut 0x81 EC_SC) (log (exec sched (boot w))))
  /\
  (forall r lat g sched,
     regs (world (exec sched (boot (sim_boot r lat g)))) = r).
Proof.
  split; [| split].
  - intros W H w sched i b q I.
    apply read_access_write, (writes_are_reads sched w i), I.
  - intros W H w sched i I.
    apply (writes_are_reads sched w i) in I. discriminate.
  - intros r lat g sched. rewrite world_of_log.
    rewrite sim_log_harmless; [reflexivity | left; reflexivity |].
    apply Forall_forall. intros v I b q ->.
    apply in_map_iff in I. destruct I as ([i v] & E & I). simpl in E. subst v.
    apply (writes_are_reads sched (sim_boot r lat g) i), I.
Qed.

(* ================================================================== *)
(** * Further facts *)

(** ** The diagnostic read and the permission requests, run on their own *)

Section CallFacts.
Context {W : Type} `{World W}.

(** X1.  acpi_check in any world: an invocation that is over has returned, and
    has printed its header, made one completed read transaction of register
    0x01 and printed the value this read returned, in this order and with
    nothing else; so it wrote 0x80 to the command port and 0x01 to the data
    port and read the data port once.  Conversely every completed read of
    register 0x01 is the middle of a run of acpi_check. *)
Theorem acpi_check_report (w : W) :
  (forall n o w' tr,
     run n acpi_check w = (o, w', tr) -> finished o ->
     o = Returned tt /\
     exists v t,
       reads 0x01 v w w' t /\
       tr = EvPrintf fmt_acpi_header [] :: t ++ [EvPrintf fmt_acpi_flag [v]] /\
       filter is_write tr = [EvOut 0x80 EC_SC; EvOut 0x01 EC_DATA] /\
       filter is_data_read tr = [EvIn EC_DATA v] /\
       filter is_line tr =
         [EvPrintf fmt_acpi_header []; EvPrintf fmt_acpi_flag [v]])
  /\
  (forall v w' t,
     reads 0x01 v w w' t ->
     exists n, run n acpi_check w =
               (Returned tt, w',
                EvPrintf fmt_acpi_header [] :: t ++ [EvPrintf fmt_acpi_flag [v]])).
Proof.
  split.
  - intros n o w' tr E F. unfold acpi_check in E.
    eapply run_call_then_inv in E; [| apply answer_printf | auto].
    destruct E as (t & E & ->).
    destruct (run_bind_inv _ _ _ _ _ _ _ E F)
      as [(v & w1 & t1 & t2 & E1 & E2 & ->) | (o1 & E1 & F1 & NR & ->)].
    + eapply run_call_inv in E2; [| apply answer_printf | auto].
      destruct E2 as (-> & -> & ->). split; auto.
      assert (R : reads 0x01 v w w1 t1) by (now exists n).
      destruct (reads_projections _ _ _ _ _ R) as (L1 & W1 & D1).
      exists v, t1. split; [exact R|]. split; [reflexivity|].
      cbn [filter is_line is_write is_data_read].
      rewrite !filter_app, L1, W1, D1. repeat split.
    + destruct (ec_read_total _ _ _ _ _ _ E1 F1) as [v ->]. now elim (NR v).
  - intros v w' t [n E]. exists (2 + (n + 2))%nat. unfold acpi_check.
    eapply run_call_then; [apply answer_printf | | discriminate].
    eapply run_bind; [exact E | | discriminate].
    apply run_call, answer_printf.
Qed.

Lemma ec_init_run (w : W) (n : nat) :
  run (4 + n) ec_init w =
  let (r1, w1) := w_ioperm EC_SC 1 1 w in
  if r1 =? 0 then
    let (r2, w2) := w_ioperm EC_DATA 1 1 w1 in
    if r2 =? 0 then
      (Returned tt, w2, [EvIoperm EC_SC 1 1 r1; EvIoperm EC_DATA 1 1 r2])
    else
      (Exited 1, w2,
       [EvIoperm EC_SC 1 1 r1; EvIoperm EC_DATA 1 1 r2;
        EvPerror "ioperm"; EvExit 1])
  else
    (Exited 1, w1, [EvIoperm EC_SC 1 1 r1; EvPerror "ioperm"; EvExit 1]).
Proof.
  cbn [plus]. unfold ec_init. simpl.
  destruct (w_ioperm EC_SC 1 1 w) as [r1 w1]. unfold truthy.
  destruct (r1 =? 0); simpl; [| reflexivity].
  destruct (w_ioperm EC_DATA 1 1 w1) as [r2 w2].
  destruct (r2 =? 0); reflexivity.
Qed.

(** What a finished ec_init leaves: it did not stop at a thread call, and
    if it returned then both requests were answered with 0. *)
Lemma ec_init_finished (w : W) k o w1 tr :
  run k ec_init w = (o, w1, tr) -> finished o ->
  o <> Unscheduled /\
  (forall r, o = Returned r ->
     tr = granted_log /\
     w1 = snd (w_ioperm EC_DATA 1 1 (snd (w_ioperm EC_SC 1 1 w)))).
Proof.
  intros E F.
  pose proof (run_mono _ _ _ _ _ _ E F (4 + k)%nat ltac:(lia)) as E'.
  rewrite ec_init_run in E'.
  destruct (w_ioperm EC_SC 1 1 w) as [r1 w2]. simpl.
  destruct (Z.eqb_spec r1 0) as [-> |]; [| inversion E'; split; [| intros r]; discriminate].
  destruct (w_ioperm EC_DATA 1 1 w2) as [r2 w3]. simpl.
  destruct (Z.eqb_spec r2 0) as [-> |]; inversion E'; subst;
    (split; [discriminate | intros r Er; try discriminate Er]).
  auto.
Qed.

(** X2.  ec_init in any world: it is over within four steps, and more fuel
    changes nothing.  If the request for the command port is refused it has
    called perror and exit(1) and has not asked for the data port; if the
    request for the data port is refused it has called perror and exit(1);
    if both are given it has returned.  It makes no other call: every
    finished run of it is this one, accesses no port and makes no thread
    call. *)
Theorem ec_init_outcomes (w : W) :
  (forall n,
     run (4 + n) ec_init w =
     let (r1, w1) := w_ioperm EC_SC 1 1 w in
     if r1 =? 0 then
       let (r2, w2) := w_ioperm EC_DATA 1 1 w1 in
       if r2 =? 0 then
         (Returned tt, w2, [EvIoperm EC_SC 1 1 r1; EvIoperm EC_DATA 1 1 r2])
       else
         (Exited 1, w2,
          [EvIoperm EC_SC 1 1 r1; EvIoperm EC_DATA 1 1 r2;
           EvPerror "ioperm"; EvExit 1])
     else
       (Exited 1, w1, [EvIoperm EC_SC 1 1 r1; EvPerror "ioperm"; EvExit 1]))
  /\
  (forall k o w1 tr,
     run k ec_init w = (o, w1, tr) -> finished o ->
     run 4 ec_init w = (o, w1, tr) /\
     filter is_port_access tr = [] /\ o <> Unscheduled).
Proof.
  split; [intros n; apply ec_init_run|].
  intros k o w1 tr E F.
  pose proof (run_mono _ _ _ _ _ _ E F (4 + k)%nat ltac:(lia)) as E'.
  pose proof (ec_init_run w k) as Ek. pose proof (ec_init_run w 0) as E0.
  rewrite E' in Ek. rewrite <- Ek in E0. split; [exact E0|].
  split; [| apply (ec_init_finished _ _ _ _ _ E F)].
  destruct (w_ioperm EC_SC 1 1 w) as [r1 w2].
  destruct (r1 =? 0); [| now inversion Ek].
  destruct (w_ioperm EC_DATA 1 1 w2) as [r2 w3].
  destruct (r2 =? 0); now inversion Ek.
Qed.

(** What a finished ec_dump_selected leaves. *)
Lemma ec_dump_selected_inv (w : W) n o w' tr :
  run n ec_dump_selected w = (o, w', tr) -> finished o ->
  o = Returned tt /\
  exists vs t, tr = EvPrintf fmt_dump_header [] :: t /\
               snapshot registers vs w w' t.
Proof.
  intros E F. unfold ec_dump_selected in E.
  eapply run_call_then_inv in E; [| apply answer_printf | auto].
  destruct E as (t & E & ->).
  destruct (dump_loop_inv registers 0 n w o w' t eq_refl E F) as (-> & vs & SN).
  eauto.
Qed.

(** The thread calls are not in the log of a run. *)
Lemma run_no_create {R} n : forall (t : itree ecE R) (w : W) o w' tr,
  run n t w = (o, w', tr) -> filter is_create tr = [].
Proof.
  induction n as [|n IH]; intros t w o w' tr E; simpl in E.
  - now inversion E.
  - destruct (observe t) as [r | t' | X e k]; [now inversion E | eauto |].
    destruct (answer e w) as [[[x w1] v]|] eqn:A.
    + destruct (run n (k x) w1) as [[o1 w2] tr1] eqn:E1.
      inversion E; subst. simpl. rewrite (IH _ _ _ _ _ E1).
      destruct (answer_ev_of _ _ _ _ _ A) as (_ & _ & NC).
      destruct v; auto. now elim (NC start t0).
    + destruct e; simpl in E; now inversion E.
Qed.

End CallFacts.

(** ** Transactions against the simulated controller, from any state *)

(** A completed read of the simulated controller, whatever state it was
    started in. *)
Lemma sim_reads a v (s s' : sim_ec) t :
  reads a v s s' t ->
  v = to_u8 (regs s a) /\
  s' = {| regs := regs s; mode := Idle; outbuf := None; busy := 0;
          latency := latency s; granted := granted s |}.
Proof.
  intros [n E]. destruct (sim_ec_read a s) as (m & tr & E').
  pose proof (run_deterministic _ _ _ _ _ _ _ _ _ _ E ltac:(discriminate)
                E' ltac:(discriminate)) as D.
  inversion D. auto.
Qed.

(** A completed write of the simulated controller, whatever state it was
    started in. *)
Lemma sim_writes a v (s : sim_ec) n o s' tr :
  run n (ec_write a v) s = (o, s', tr) -> finished o ->
  o = Returned tt /\
  s' = {| regs := fun x => if x =? a then v else regs s x; mode := Idle;
          outbuf := outbuf s; busy := latency s; latency := latency s;
          granted := granted s |}.
Proof.
  intros E F. destruct (sim_ec_write a v s) as (m & tr' & E').
  pose proof (run_deterministic _ _ _ _ _ _ _ _ _ _ E F
                E' ltac:(discriminate)) as D.
  inversion D. auto.
Qed.

(** X3.  ec_read against the simulated controller started in any state: busy,
    with a stale byte in its output buffer, or in the middle of a command
    that was never completed.  The read returns, and returns the content of
    the register (as a byte); it leaves every register as it was and the
    controller idle with its output buffer empty; and a second read of the
    same register returns the same value. *)
Theorem ec_read_from_any_state (a : u8) (s : sim_ec) :
  (exists v s' t, reads a v s s' t) /\
  (forall n o s' t,
     run n (ec_read a) s = (o, s', t) -> finished o ->
     o = Returned (to_u8 (regs s a)) /\
     regs s' = regs s /\ mode s' = Idle /\ outbuf s' = None /\
     busy s' = 0%nat /\
     forall v2 s2 t2, reads a v2 s' s2 t2 -> v2 = to_u8 (regs s a)).
Proof.
  split.
  - destruct (sim_ec_read a s) as (n & t & E).
    exists (to_u8 (regs s a)). eexists. exists t. exists n. exact E.
  - intros n o s' t E F.
    destruct (ec_read_total _ _ _ _ _ _ E F) as [v ->].
    destruct (sim_reads a v s s' t (ex_intro _ n E)) as [-> ->].
    cbn [regs mode outbuf busy]. repeat split.
    intros v2 s2 t2 R2. now destruct (sim_reads _ _ _ _ _ R2) as [-> _].
Qed.

(** X4.  ec_write against the simulated controller started in any state: the
    write returns and changes register [a] to [v] and no other register, so
    a read of any register after it returns [v] for [a] and the old content
    for every other register; and two writes to different registers leave
    the same registers in either order. *)
Theorem ec_write_changes_one_register (a v : u8) (s : sim_ec) :
  (exists n s' tr, run n (ec_write a v) s = (Returned tt, s', tr)) /\
  (forall n o s' tr,
     run n (ec_write a v) s = (o, s', tr) -> finished o ->
     o = Returned tt /\
     (forall b, regs s' b = if b =? a then v else regs s b) /\
     (forall b x s2 t, reads b x s' s2 t ->
        x = to_u8 (if b =? a then v else regs s b))) /\
  (forall a2 v2 n1 n2 s1 s2 t1 t2,
     a2 <> a ->
     run n1 (ec_write a v ;; ec_write a2 v2) s = (Returned tt, s1, t1) ->
     run n2 (ec_write a2 v2 ;; ec_write a v) s = (Returned tt, s2, t2) ->
     forall b, regs s1 b = regs s2 b).
Proof.
  split; [| split].
  - destruct (sim_ec_write a v s) as (n & tr & E). eauto.
  - intros n o s' tr E F. destruct (sim_writes _ _ _ _ _ _ _ E F) as [-> ->].
    split; auto. split; [reflexivity|].
    intros b x s2 t R. now destruct (sim_reads _ _ _ _ _ R) as [-> _].
  - intros a2 v2 n1 n2 s1 s2 t1 t2 N E1 E2 b.
    destruct (run_bind_inv _ _ _ _ _ _ _ E1 ltac:(discriminate))
      as [(r & w1 & ta & tb & Ea & Eb & ->) | (o1 & _ & _ & _ & Ec)];
      [| destruct o1; discriminate Ec].
    destruct (run_bind_inv _ _ _ _ _ _ _ E2 ltac:(discriminate))
      as [(r' & w2 & tc & td & Ec & Ed & ->) | (o1 & _ & _ & _ & Ec)];
      [| destruct o1; discriminate Ec].
    destruct (sim_writes _ _ _ _ _ _ _ Ea ltac:(discriminate)) as [_ ->].
    destruct (sim_writes _ _ _ _ _ _ _ Eb ltac:(discriminate)) as [_ ->].
    destruct (sim_writes _ _ _ _ _ _ _ Ec ltac:(discriminate)) as [_ ->].
    destruct (sim_writes _ _ _ _ _ _ _ Ed ltac:(discriminate)) as [_ ->].
    cbn [regs].
    destruct (Z.eqb_spec b a2) as [-> | N2]; [| reflexivity].
    destruct (Z.eqb_spec a2 a); [contradiction | reflexivity].
Qed.

(** ** The snapshot and the sampler against the simulated controller *)

Lemma sim_snapshot : forall rs (s : sim_ec),
  exists s' t,
    snapshot rs (map (fun a => to_u8 (regs s a)) rs) s s' t /\
    regs s' = regs s.
Proof.
  induction rs as [|a rs IH]; intros s.
  - exists s, []. simpl. auto.
  - destruct (sim_ec_read a s) as (n & t1 & E1).
    destruct (IH {| regs := regs s; mode := Idle; outbuf := None; busy := 0;
                    latency := latency s; granted := granted s |})
      as (s' & t2 & SN & R).
    exists s'. eexists. split; [| exact R].
    cbn [snapshot map]. eexists. exists t1, t2.
    split; [exists n; exact E1|]. split; [exact SN | reflexivity].
Qed.

Lemma lines_of_table (f : u8 -> u8) : forall rs,
  flat_map (fun rv => EvPrintf fmt_register [fst rv; snd rv]
                      :: interpretation (fst rv) (snd rv))
           (combine rs (map f rs)) =
  flat_map (fun a => EvPrintf fmt_register [a; f a] :: interpretation a (f a)) rs.
Proof.
  induction rs as [|a rs IH]; simpl; [reflexivity|]. now rewrite IH.
Qed.

(** X5.  ec_dump_selected against the simulated controller started in any state:
    it returns, and the lines it prints show, for each of the ten addresses
    of the table in order, the content of that register as a byte, with the
    interpreted lines of 0x50, 0x51 and 0x52; the data port is read once
    per register; the registers are left as they were. *)
Theorem ec_dump_selected_on_sim (s : sim_ec) :
  let shown := fun a => to_u8 (regs s a) in
  (exists n s' tr, run n ec_dump_selected s = (Returned tt, s', tr)) /\
  (forall n o s' tr,
     run n ec_dump_selected s = (o, s', tr) -> finished o ->
     o = Returned tt /\ regs s' = regs s /\
     filter is_line tr =
       EvPrintf fmt_dump_header [] ::
       flat_map (fun a => EvPrintf fmt_register [a; shown a]
                          :: interpretation a (shown a)) registers /\
     filter is_data_read tr = map (fun a => EvIn EC_DATA (shown a)) registers).
Proof.
  intros shown.
  destruct (sim_snapshot registers s) as (s1 & t & SN & R).
  destruct (dump_loop_run registers _ 0 s s1 t eq_refl SN) as [m E0].
  assert (E1 : run (2 + m) ec_dump_selected s =
               (Returned tt, s1, EvPrintf fmt_dump_header [] :: t)).
  { unfold ec_dump_selected.
    eapply run_call_then; [apply answer_printf | exact E0 | discriminate]. }
  split; [eauto|].
  intros n o s' tr E F.
  pose proof (run_deterministic _ _ _ _ _ _ _ _ _ _ E F E1
                ltac:(discriminate)) as D.
  inversion D; subst o s' tr. split; auto. split; [exact R|].
  destruct (snapshot_projections _ _ _ _ _ SN) as (L & _ & Dr & _).
  cbn [filter is_line is_data_read]. rewrite L, Dr, lines_of_table, map_map.
  split; reflexivity.
Qed.

Section SleepFacts.
Context {W : Type} `{World W}.

Lemma filter_poll_sleep k (w : W) : filter is_sleep (poll_trace k w) = [].
Proof. revert w. induction k; simpl; auto. Qed.

Lemma reads_no_sleep a v (w w' : W) t : reads a v w w' t -> filter is_sleep t = [].
Proof.
  intros [n E].
  destruct (ec_read_finished a w n _ _ _ E ltac:(discriminate))
    as (k1 & k2 & k3 & _ & _ & _ & -> & _).
  repeat (rewrite ?filter_app; cbn [filter is_sleep]).
  now rewrite !filter_poll_sleep.
Qed.

Lemma warning_projections temp :
  filter is_line (warning temp) = warning temp /\
  filter is_sleep (warning temp) = [] /\
  filter is_write (warning temp) = [].
Proof. unfold warning. destruct (temp >? 75); auto. Qed.

End SleepFacts.

Lemma sim_ticks : forall n (s : sim_ec),
  exists s' tr,
    ticks n s s' tr /\ regs s' = regs s /\
    filter is_line tr = List.concat (repeat (warning (to_u8 (regs s 0x00))) n) /\
    filter is_sleep tr = repeat (EvSleep 1) n /\
    filter is_write tr =
      List.concat (repeat [EvOut 0x80 EC_SC; EvOut 0x00 EC_DATA] n).
Proof.
  induction n as [|n IH]; intros s.
  - exists s, []. simpl. auto.
  - destruct (sim_ec_read 0x00 s) as (m & t1 & E1).
    set (s1 := {| regs := regs s; mode := Idle; outbuf := None; busy := 0;
                  latency := latency s; granted := granted s |}) in *.
    assert (R : reads 0x00 (to_u8 (regs s 0x00)) s s1 t1) by (now exists m).
    destruct (monitor_tick_run _ _ _ _ R) as [m2 E2].
    destruct (IH s1) as (s' & t2 & T & Rg & L & Sl & Wr).
    destruct (reads_projections _ _ _ _ _ R) as (L1 & W1 & _).
    pose proof (reads_no_sleep _ _ _ _ _ R) as S1.
    destruct (warning_projections (to_u8 (regs s 0x00))) as (L2 & S2 & W2).
    exists s'. eexists. split; [| split; [exact Rg|]].
    + cbn [ticks]. exists s1. eexists. exists t2.
      split; [exists m2; exact E2|]. split; [exact T | reflexivity].
    + repeat (rewrite ?filter_app; cbn [filter is_line is_sleep is_write]).
      rewrite L1, S1, W1, L2, S2, W2, L, Sl, Wr.
      cbn [repeat List.concat app]. rewrite app_nil_r. auto.
Qed.

(** X6.  The sampler against the simulated controller started in any state makes
    tick after tick: for every [n] there is a point of its run at which it
    has printed its first line, made [n] read transactions of register 0x00
    and slept [n] times one second, and has printed the warning after each
    of these reads if the register holds more than 75 and after none of them
    otherwise; it has then changed no register and is still running. *)
Theorem ec_monitor_loop_on_sim (s : sim_ec) (n : nat) :
  exists m s' tr,
    run m ec_monitor_loop s =
      (Spinning, s', EvPrintf fmt_monitor_start [] :: tr) /\
    regs s' = regs s /\
    filter is_sleep tr = repeat (EvSleep 1) n /\
    filter is_write tr =
      List.concat (repeat [EvOut 0x80 EC_SC; EvOut 0x00 EC_DATA] n) /\
    filter is_line tr =
      if to_u8 (regs s 0x00) >? 75
      then repeat (EvPrintf fmt_warning [to_u8 (regs s 0x00)]) n
      else [].
Proof.
  destruct (sim_ticks n s) as (s' & tr & T & R & L & Sl & Wr).
  destruct (ec_monitor_loop_ticks n s s' tr T) as [m E].
  exists m, s', tr. repeat split; auto.
  rewrite L. unfold warning. destruct (to_u8 (regs s 0x00) >? 75).
  - clear. induction n; simpl; congruence.
  - clear. induction n; simpl; auto.
Qed.

(** ** What is printed is a byte *)

Section ByteFacts.
Context {W : Type} `{World W}.

Lemma to_u8_byte z : is_u8 (to_u8 z).
Proof. unfold is_u8, to_u8. apply Z.mod_pos_bound. lia. Qed.

Lemma reads_byte a v (w w' : W) t : reads a v w w' t -> is_u8 v.
Proof.
  intros [n E].
  destruct (ec_read_finished a w n _ _ _ E ltac:(discriminate))
    as (k1 & k2 & k3 & _ & _ & _ & _ & V & _).
  inversion V. apply to_u8_byte.
Qed.

Lemma reads_no_line a v (w w' : W) t fmt args :
  reads a v w w' t -> ~ In (EvPrintf fmt args) t.
Proof.
  intros R I. destruct (reads_projections _ _ _ _ _ R) as (L & _).
  assert (I' : In (EvPrintf fmt args) (filter is_line t))
    by (apply filter_In; auto).
  now rewrite L in I'.
Qed.

Lemma land_one_bit v : Z.land v 0x01 = 0 \/ Z.land v 0x01 = 1.
Proof.
  assert (E : Z.land v 0x01 = v mod 2) by (apply (Z.land_ones v 1); lia).
  pose proof (Z.mod_pos_bound v 2 ltac:(lia)). lia.
Qed.

Lemma interpretation_bytes r v fmt args :
  is_u8 v -> In (EvPrintf fmt args) (interpretation r v) ->
  Forall is_u8 args /\ (fmt = fmt_flag -> args = [0] \/ args = [1]).
Proof.
  intros V. unfold interpretation.
  destruct (r =? 0x50); [| destruct (r =? 0x51); [| destruct (r =? 0x52)]];
    simpl; intros I; try contradiction;
    destruct I as [I | []]; inversion I; subst.
  - split; [auto | discriminate].
  - split; [auto | discriminate].
  - destruct (land_one_bit v) as [-> | ->]; split; auto;
      repeat constructor; unfold is_u8; lia.
Qed.

Lemma snapshot_bytes : forall rs vs (w w' : W) tr,
  snapshot rs vs w w' tr -> Forall is_u8 rs ->
  forall fmt args, In (EvPrintf fmt args) tr ->
    Forall is_u8 args /\ (fmt = fmt_flag -> args = [0] \/ args = [1]).
Proof.
  induction rs as [|r rs IH]; intros vs w w' tr SN B fmt args I.
  - destruct vs; simpl in SN; [| contradiction]. destruct SN as [_ ->].
    contradiction.
  - destruct vs as [|v vs]; simpl in SN; [contradiction|].
    destruct SN as (w1 & t1 & t2 & R & SN & ->).
    inversion B as [|? ? Br Brs]; subst.
    pose proof (reads_byte _ _ _ _ _ R) as V.
    apply in_app_or in I. destruct I as [I | I];
      [now elim (reads_no_line _ _ _ _ _ fmt args R) |].
    destruct I as [I | I].
    + inversion I; subst. split; [auto | discriminate].
    + apply in_app_or in I. destruct I as [I | I].
      * now apply (interpretation_bytes r v).
      * now apply (IH _ _ _ _ SN Brs).
Qed.

Lemma registers_bytes : Forall is_u8 registers.
Proof. repeat constructor; unfold is_u8; lia. Qed.

(** X7.  In any world, every value a completed read transaction returns is a
    byte.  So every argument of every line that ec_dump_selected and
    acpi_check print lies in [0, 256), the Flag line of ec_dump_selected
    shows 0 or 1, and the value in a warning of the monitor lies in
    [76, 255]. *)
Theorem printed_values_are_bytes (w : W) :
  (forall a v w' t, reads a v w w' t -> 0 <= v < 256) /\
  (forall n o w' tr fmt args,
     run n ec_dump_selected w = (o, w', tr) -> finished o ->
     In (EvPrintf fmt args) tr ->
     Forall is_u8 args /\ (fmt = fmt_flag -> args = [0] \/ args = [1])) /\
  (forall n o w' tr fmt args,
     run n acpi_check w = (o, w', tr) -> finished o ->
     In (EvPrintf fmt args) tr -> Forall is_u8 args) /\
  (forall n o w' tr fmt args,
     run n monitor_tick w = (o, w', tr) -> finished o ->
     In (EvPrintf fmt args) tr ->
     fmt = fmt_warning /\ exists temp, args = [temp] /\ 75 < temp < 256).
Proof.
  split; [| split; [| split]].
  - intros a v w' t R. apply (reads_byte _ _ _ _ _ R).
  - intros n o w' tr fmt args E F I. unfold ec_dump_selected in E.
    eapply run_call_then_inv in E; [| apply answer_printf | auto].
    destruct E as (t & E & ->).
    destruct (dump_loop_inv registers 0 n w o w' t eq_refl E F) as (_ & vs & SN).
    destruct I as [I | I].
    + inversion I; subst. split; [constructor | discriminate].
    + apply (snapshot_bytes _ _ _ _ _ SN registers_bytes _ _ I).
  - intros n o w' tr fmt args E F I. unfold acpi_check in E.
    eapply run_call_then_inv in E; [| apply answer_printf | auto].
    destruct E as (t & E & ->).
    destruct I as [I | I]; [inversion I; subst; constructor |].
    destruct (run_bind_inv _ _ _ _ _ _ _ E F)
      as [(v & w1 & t1 & t2 & E1 & E2 & ->) | (o1 & E1 & F1 & NR & ->)].
    + eapply run_call_inv in E2; [| apply answer_printf | auto].
      destruct E2 as (-> & -> & ->).
      assert (R : reads 0x01 v w w1 t1) by (now exists n).
      apply in_app_or in I. destruct I as [I | [I | []]];
        [now elim (reads_no_line _ _ _ _ _ fmt args R) |].
      inversion I; subst.
      constructor; [apply (reads_byte _ _ _ _ _ R) | constructor].
    + destruct (ec_read_total _ _ _ _ _ _ E1 F1) as [v ->]. now elim (NR v).
  - intros n o w' tr fmt args E F I.
    destruct (monitor_tick_inv _ _ _ _ _ E F) as (_ & temp & t1 & R & ->).
    apply in_app_or in I. destruct I as [I | I];
      [now elim (reads_no_line _ _ _ _ _ fmt args R) |].
    apply in_app_or in I. destruct I as [I | [I | []]]; [| discriminate I].
    unfold warning in I. destruct (Z.gtb_spec temp 75) as [G | G];
      [| contradiction].
    destruct I as [I | []]. inversion I; subst. split; auto.
    exists temp. split; auto.
    pose proof (reads_byte _ _ _ _ _ R) as V. unfold is_u8 in V. lia.
Qed.

End ByteFacts.

(** ** Rules on the calls of a thread *)

Section RuleFacts.
Context {St : Type}.
Variable rule : St -> ev -> option St.
Variable quiet : St -> Prop.

Lemma obeys_observe {R} n q (t t' : itree ecE R) Q :
  observe t = observe t' -> obeys rule quiet n q t Q -> obeys rule quiet n q t' Q.
Proof. intros E. destruct n; simpl; [auto | now rewrite E]. Qed.

Lemma obeys_pred {R} n : forall q (t : itree ecE R) Q,
  obeys rule quiet (S n) q t Q -> obeys rule quiet n q t Q.
Proof.
  induction n as [|n IH]; intros q t Q C; [exact I|].
  cbn [obeys] in *. destruct (observe t) as [r | t' | X e k]; auto.
  - destruct C as [Qt C]. auto.
  - destruct C as [EO C]. split; auto.
    intros x. destruct (C x) as (q' & D & C'). eauto.
Qed.

Lemma obeys_bind {R T} (k : R -> itree ecE T) Q1 Q2 n :
  forall q (t : itree ecE R),
  obeys rule quiet n q t Q1 ->
  (forall q' r, Q1 q' r -> obeys rule quiet n q' (k r) Q2) ->
  obeys rule quiet n q (ITree.bind t k) Q2.
Proof.
  induction n as [|n IH]; intros q t C K; [exact I|].
  cbn [obeys] in C.
  destruct (observe t) as [r | t' | X e k0] eqn:Ot.
  - apply (obeys_observe _ _ (k r)); [now rewrite observe_bind, Ot | auto].
  - apply (obeys_observe _ _ (Tau (ITree.bind t' k)));
      [now rewrite observe_bind, Ot |].
    cbn [obeys observe _observe]. destruct C as [Qt C].
    split; [exact Qt|]. apply IH; auto.
    intros q' r A. apply obeys_pred, K, A.
  - apply (obeys_observe _ _ (Vis e (fun x => ITree.bind (k0 x) k)));
      [now rewrite observe_bind, Ot |].
    cbn [obeys observe _observe]. destruct C as [EO C]. split; auto.
    intros x. destruct (C x) as (q' & D & C'). exists q'. split; auto.
    apply IH; auto. intros q'' r A. apply obeys_pred, K, A.
Qed.

(** A loop keeps to the rule if every turn does, from any state the loop
    can be in, and these states are quiet: a loop takes a silent step
    between two turns. *)
Lemma obeys_iter {R J} (body : J -> itree ecE (J + R))
    (Inv : St -> J -> Prop) Q :
  (forall n q i, Inv q i ->
     obeys rule quiet n q (body i)
       (fun q' lr => match lr with inl i' => Inv q' i' | inr r => Q q' r end)) ->
  (forall q i, Inv q i -> quiet q) ->
  forall n q i, Inv q i -> obeys rule quiet n q (ITree.iter body i) Q.
Proof.
  intros B Qt. induction n as [|n IH]; intros q i V; [exact I|].
  apply (obeys_observe _ _
    (ITree.bind (body i) (fun lr : J + R =>
       match lr with inl l => Tau (ITree.iter body l) | inr r => Ret r end)));
    [reflexivity|].
  eapply obeys_bind; [apply B, V|].
  intros q' [i' | r] A; cbn [obeys observe _observe]; auto.
  split; [apply (Qt q' i' A) | apply IH, A].
Qed.

Lemma obeys_call {X} (e : ecE X) n q (Q : St -> X -> Prop) :
  exit_allowed rule q e ->
  (forall x, exists q', rule q (ev_of e x) = Some q' /\ Q q' x) ->
  obeys rule quiet n q (ITree.trigger e) Q.
Proof.
  intros EO D. destruct n; [exact I|]. cbn. split; auto.
  intros x. destruct (D x) as (q' & D' & A). exists q'. split; auto.
  destruct n; [exact I | exact A].
Qed.

Lemma obeys_ret {R} (r : R) n q (Q : St -> R -> Prop) :
  Q q r -> obeys rule quiet n q (Ret r) Q.
Proof. intros A. destruct n; [exact I | exact A]. Qed.

Lemma accepts_app q l1 l2 :
  accepts rule q (l1 ++ l2) =
  match accepts rule q l1 with Some q' => accepts rule q' l2 | None => None end.
Proof.
  revert q. induction l1 as [|v l1 IH]; intros q; simpl; auto.
  destruct (rule q v); auto.
Qed.

Lemma always_obeys_tau q (t t' : itree ecE Z) :
  observe t = TauF t' -> always_obeys rule quiet q t -> always_obeys rule quiet q t'.
Proof.
  intros Ot F n. specialize (F (S n)). cbn [obeys] in F.
  rewrite Ot in F. apply F.
Qed.

Lemma always_obeys_vis q (t : itree ecE Z) {X} (e : ecE X) k :
  observe t = VisF e k -> always_obeys rule quiet q t ->
  exit_allowed rule q e /\
  forall x, exists q', rule q (ev_of e x) = Some q' /\
                       always_obeys rule quiet q' (k x).
Proof.
  intros Ot F.
  assert (F' : forall n, exit_allowed rule q e /\
            forall x, exists q', rule q (ev_of e x) = Some q' /\
                                 obeys rule quiet n q' (k x) (fun _ _ => True)).
  { intros n. specialize (F (S n)). cbn [obeys] in F. now rewrite Ot in F. }
  split; [apply (F' 0%nat)|].
  intros x. destruct (F' 0%nat) as [_ F0]. destruct (F0 x) as (q' & D & _).
  exists q'. split; auto. intros n.
  destruct (F' n) as [_ Fn]. destruct (Fn x) as (q'' & D' & O). congruence.
Qed.

End RuleFacts.

(** ** Every execution keeps every thread to a rule its functions keep to *)

Lemma thread_log_mine i l : thread_log i (map (pair i) l) = l.
Proof.
  unfold thread_log. induction l as [|v l IH]; simpl; auto.
  rewrite Nat.eqb_refl. simpl. now rewrite IH.
Qed.

Lemma thread_log_yours i j l : i <> j -> thread_log j (map (pair i) l) = [].
Proof.
  intros N. apply thread_log_absent. intros k v I E. subst k.
  apply in_map_iff in I. destruct I as (x & I & _). inversion I. contradiction.
Qed.

Section WatchFacts.
Context {W : Type} `{World W} {St : Type}.
Variable rule : St -> ev -> option St.
Variable quiet : St -> Prop.
Variable q0 : tid -> St.
Hypothesis main_obeys : always_obeys rule quiet (q0 0%nat) main.
Hypothesis routine_obeys :
  forall r j, always_obeys rule quiet (q0 (S j)) (routine_body r).

Lemma boot_watched (w : W) : watched rule quiet q0 (boot w).
Proof.
  intros [|i] t N; simpl in N; [| destruct i; discriminate].
  inversion N; subst. exists (q0 0%nat). split; [reflexivity | auto].
Qed.

(** Thread [i] goes on after the calls [es]. *)
Lemma resume_watched (c : process W) i t t' w' es :
  watched rule quiet q0 c -> nth_error (threads c) i = Some t ->
  (forall q, (halted c = None -> always_obeys rule quiet q t) ->
     exists q', accepts rule q es = Some q' /\
                (halted c = None -> always_obeys rule quiet q' t')) ->
  watched rule quiet q0 (resume i t' w' (map (pair i) es) c).
Proof.
  intros Wc N Fw j tj Nj. unfold resume in *. cbn [threads log halted] in *.
  rewrite thread_log_app.
  destruct (Nat.eq_dec i j) as [<- | Nij].
  - rewrite (nth_error_set_nth_eq _ _ _ _ N) in Nj. inversion Nj; subst tj.
    destruct (Wc i t N) as (q & A & F).
    destruct (Fw q F) as (q' & A' & F').
    exists q'. split; [| exact F'].
    now rewrite thread_log_mine, accepts_app, A.
  - rewrite nth_error_set_nth_neq in Nj by auto.
    rewrite thread_log_yours, app_nil_r by auto.
    apply (Wc j tj Nj).
Qed.

Lemma step_watched i (c : process W) :
  consistent c -> watched rule quiet q0 c -> watched rule quiet q0 (step i c).
Proof.
  intros C Wc. unfold step.
  destruct (halted c) eqn:Hh; auto.
  destruct (nth_error (threads c) i) as [t|] eqn:N; auto.
  destruct (observe t) as [r | t' | X e k] eqn:Ot.
  - destruct (Nat.eqb i 0); auto.
    intros j tj Nj. cbn [threads log halted] in *.
    destruct (Wc j tj Nj) as (q & A & _). exists q. split; auto. discriminate.
  - apply (resume_watched c i t t' (world c) [] Wc N).
    intros q F. exists q. split; [reflexivity|].
    intros E. apply (always_obeys_tau rule quiet q t t' Ot), F, E.
  - destruct (answer e (world c)) as [[[x w'] v]|] eqn:A.
    + destruct (answer_ev_of _ _ _ _ _ A) as (-> & _).
      apply (resume_watched c i t (k x) w' [ev_of e x] Wc N).
      intros q F.
      destruct (always_obeys_vis rule quiet q t e k Ot (F Hh)) as [_ K].
      destruct (K x) as (q' & D & F'). exists q'. simpl. rewrite D. auto.
    + destruct e; simpl in A;
        try discriminate A;
        try (destruct (w_inb p (world c)); discriminate A);
        try (destruct (w_ioperm from num turn_on (world c)); discriminate A).
      * (* exit *)
        intros j tj Nj. cbn [control threads log halted] in *.
        rewrite thread_log_app.
        destruct (Nat.eq_dec i j) as [<- | Nij].
        -- rewrite N in Nj. inversion Nj; subst tj.
           destruct (Wc i t N) as (q & Aq & F).
           destruct (always_obeys_vis rule quiet q t _ k Ot (F Hh)) as [EO _].
           simpl in EO. rewrite thread_log_own, accepts_app, Aq. simpl.
           destruct (rule q (EvExit code)) as [q'|]; [| now elim EO].
           exists q'. split; auto. discriminate.
        -- rewrite thread_log_other, app_nil_r by auto.
           destruct (Wc j tj Nj) as (q & Aq & _). exists q. split; auto.
           discriminate.
      * (* pthread_create *)
        intros j tj Nj. cbn [control threads log halted] in *.
        rewrite thread_log_app.
        assert (Li : (i < List.length (threads c))%nat)
          by (apply nth_error_Some; congruence).
        destruct (Nat.lt_ge_cases j (List.length (threads c))) as [L | L].
        -- rewrite nth_error_app1 in Nj by (now rewrite length_set_nth).
           destruct (Nat.eq_dec i j) as [<- | Nij].
           ++ rewrite (nth_error_set_nth_eq _ _ _ _ N) in Nj.
              inversion Nj; subst tj.
              destruct (Wc i t N) as (q & Aq & F).
              destruct (always_obeys_vis rule quiet q t _ k Ot (F Hh)) as [_ K].
              destruct (K (List.length (threads c))) as (q' & D & F').
              simpl in D. exists q'.
              rewrite thread_log_own, accepts_app, Aq. simpl. rewrite D. auto.
           ++ rewrite nth_error_set_nth_neq in Nj by auto.
              rewrite thread_log_other, app_nil_r by auto.
              apply (Wc j tj Nj).
        -- rewrite nth_error_app2 in Nj by (now rewrite length_set_nth).
           rewrite length_set_nth in Nj.
           destruct (j - List.length (threads c))%nat as [|m] eqn:Dm;
             [| destruct m; discriminate].
           simpl in Nj. inversion Nj; subst tj.
           rewrite thread_log_other by lia.
           rewrite thread_log_absent.
           ++ exists (q0 j). split; [reflexivity|]. intros _.
              destruct j as [|j]; [lia | apply routine_obeys].
           ++ intros m v I E. subst m. apply (cons_tids c C) in I. lia.
      * (* pthread_join *)
        simpl. destruct (joinable (threads c) t0); auto.
        apply (resume_watched c i t (k tt) (world c) [EvJoin t0] Wc N).
        intros q F.
        destruct (always_obeys_vis rule quiet q t _ k Ot (F Hh)) as [_ K].
        destruct (K tt) as (q' & D & F'). exists q'. simpl in *.
        rewrite D. auto.
Qed.

Lemma exec_watched sched : forall c : process W,
  consistent c -> watched rule quiet q0 c -> watched rule quiet q0 (exec sched c).
Proof.
  induction sched as [|i sched IH]; intros c C Wc; simpl; auto.
  apply IH; [apply step_consistent, C | apply step_watched; auto].
Qed.

(** In every execution, the calls of every thread are calls the rule
    allows, in an order the rule allows. *)
Lemma run_watched sched (w : W) i :
  exists q,
    accepts rule (q0 i) (thread_log i (log (exec sched (boot w)))) = Some q.
Proof.
  pose proof (run_consistent sched w) as C.
  pose proof (exec_watched sched (boot w) (boot_consistent w) (boot_watched w))
    as Wc.
  destruct (nth_error (threads (exec sched (boot w))) i) as [t|] eqn:N.
  - destruct (Wc i t N) as (q & A & _). eauto.
  - rewrite thread_log_absent; [exists (q0 i); reflexivity|].
    intros j v I E. subst j. apply (cons_tids _ C) in I.
    apply nth_error_None in N. lia.
Qed.

End WatchFacts.

(** ** The functions make the expected calls only *)

Lemma call_expected {X} (e : ecE X) n :
  exit_allowed expected tt e ->
  (forall x, expected_call (ev_of e x) = true) ->
  obeys expected anywhere n tt (ITree.trigger e) (fun _ _ => True).
Proof.
  intros EO A. apply obeys_call; auto.
  intros x. exists tt. unfold expected. now rewrite A.
Qed.

Lemma poll_loop_expected again n :
  obeys expected anywhere n tt (poll_loop again) (fun _ _ => True).
Proof.
  unfold poll_loop, while.
  apply (obeys_iter _ _ _ (fun _ _ => True)); [| intros; exact I | exact I].
  intros m [] [] _.
  eapply (obeys_bind _ _ _ (fun _ _ => True)).
  - eapply (obeys_bind _ _ _ (fun _ _ => True)).
    + apply call_expected; [exact I | reflexivity].
    + intros [] s _. now apply obeys_ret.
  - intros [] [] _.
    + eapply (obeys_bind _ _ _ (fun _ _ => True)); [now apply obeys_ret|].
      intros [] [] _. now apply obeys_ret.
    + now apply obeys_ret.
Qed.

Lemma ec_read_expected a n :
  existsb (Z.eqb a) catalog = true ->
  obeys expected anywhere n tt (ec_read a) (fun _ _ => True).
Proof.
  intros A. unfold ec_read. rewrite ec_wait_ibf_poll, ec_wait_obf_poll.
  eapply (obeys_bind _ _ _ (fun _ _ => True));
    [apply poll_loop_expected | intros [] [] _].
  eapply (obeys_bind _ _ _ (fun _ _ => True));
    [apply call_expected; [exact I | reflexivity] | intros [] [] _].
  eapply (obeys_bind _ _ _ (fun _ _ => True));
    [apply poll_loop_expected | intros [] [] _].
  eapply (obeys_bind _ _ _ (fun _ _ => True)); [| intros [] [] _].
  { apply call_expected; [exact I|]. intros []. cbn [ev_of expected_call].
    change (EC_DATA =? EC_SC) with false. change (EC_DATA =? EC_DATA) with true.
    cbn [andb orb]. exact A. }
  eapply (obeys_bind _ _ _ (fun _ _ => True));
    [apply poll_loop_expected | intros [] [] _].
  apply call_expected; [exact I | reflexivity].
Qed.

Lemma table_in_catalog k :
  existsb (Z.eqb (nth k registers 0)) catalog = true.
Proof. do 10 (destruct k as [|k]; [reflexivity|]). destruct k; reflexivity. Qed.

Lemma interpret_expected reg value n :
  obeys expected anywhere n tt (interpret reg value) (fun _ _ => True).
Proof.
  unfold interpret.
  destruct (reg =? 0x50); [apply call_expected; [exact I | reflexivity]|].
  destruct (reg =? 0x51); [apply call_expected; [exact I | reflexivity]|].
  destruct (reg =? 0x52); [apply call_expected; [exact I | reflexivity]|].
  now apply obeys_ret.
Qed.

Lemma dump_register_expected i n :
  obeys expected anywhere n tt (dump_register i) (fun _ _ => True).
Proof.
  unfold dump_register.
  eapply (obeys_bind _ _ _ (fun _ _ => True));
    [apply ec_read_expected, table_in_catalog | intros [] v _].
  eapply (obeys_bind _ _ _ (fun _ _ => True));
    [apply call_expected; [exact I | reflexivity] | intros [] [] _].
  apply interpret_expected.
Qed.

Lemma ec_dump_selected_expected n :
  obeys expected anywhere n tt ec_dump_selected (fun _ _ => True).
Proof.
  unfold ec_dump_selected.
  eapply (obeys_bind _ _ _ (fun _ _ => True));
    [apply call_expected; [exact I | reflexivity] | intros [] [] _].
  unfold for_upto.
  apply (obeys_iter _ _ _ (fun _ _ => True)); [| intros; exact I | exact I].
  intros m [] i _. destruct (i <? _).
  - eapply (obeys_bind _ _ _ (fun _ _ => True));
      [apply dump_register_expected | intros [] [] _].
    now apply obeys_ret.
  - now apply obeys_ret.
Qed.

Lemma acpi_check_expected n :
  obeys expected anywhere n tt acpi_check (fun _ _ => True).
Proof.
  unfold acpi_check.
  eapply (obeys_bind _ _ _ (fun _ _ => True));
    [apply call_expected; [exact I | reflexivity] | intros [] [] _].
  eapply (obeys_bind _ _ _ (fun _ _ => True));
    [apply ec_read_expected; reflexivity | intros [] v _].
  apply call_expected; [exact I | reflexivity].
Qed.

Lemma fatal_expected {R} n (Q : unit -> R -> Prop) :
  obeys expected anywhere n tt (perror "ioperm" ;; exit 1) Q.
Proof.
  eapply (obeys_bind _ _ _ (fun _ _ => True));
    [apply call_expected; [exact I | reflexivity] | intros [] [] _].
  unfold exit. destruct n; [exact I|]. cbn. split; [discriminate | intros []].
Qed.

Lemma ec_init_expected n : obeys expected anywhere n tt ec_init (fun _ _ => True).
Proof.
  unfold ec_init.
  eapply (obeys_bind _ _ _ (fun _ _ => True));
    [apply call_expected; [exact I | reflexivity] | intros [] r1 _].
  destruct (truthy r1); [apply fatal_expected|].
  eapply (obeys_bind _ _ _ (fun _ _ => True));
    [apply call_expected; [exact I | reflexivity] | intros [] r2 _].
  destruct (truthy r2); [apply fatal_expected | now apply obeys_ret].
Qed.

Lemma main_expected : always_obeys expected anywhere tt main.
Proof.
  intros n. unfold main.
  eapply (obeys_bind _ _ _ (fun _ _ => True));
    [apply ec_init_expected | intros [] [] _].
  eapply (obeys_bind _ _ _ (fun _ _ => True));
    [apply ec_dump_selected_expected | intros [] [] _].
  eapply (obeys_bind _ _ _ (fun _ _ => True));
    [apply call_expected; [exact I | reflexivity] | intros [] j _].
  eapply (obeys_bind _ _ _ (fun _ _ => True));
    [apply acpi_check_expected | intros [] [] _].
  eapply (obeys_bind _ _ _ (fun _ _ => True));
    [apply call_expected; [exact I | reflexivity] | intros [] [] _].
  now apply obeys_ret.
Qed.

Lemma monitor_tick_expected n :
  obeys expected anywhere n tt monitor_tick (fun _ _ => True).
Proof.
  unfold monitor_tick.
  eapply (obeys_bind _ _ _ (fun _ _ => True));
    [apply ec_read_expected; reflexivity | intros [] temp _].
  eapply (obeys_bind _ _ _ (fun _ _ => True)); [| intros [] [] _].
  - destruct (temp >? 75);
      [apply call_expected; [exact I | reflexivity] | now apply obeys_ret].
  - apply call_expected; [exact I | reflexivity].
Qed.

Lemma routine_expected r (j : tid) :
  always_obeys expected anywhere tt (routine_body r).
Proof.
  destruct r. intros n. unfold routine_body, ec_monitor_loop.
  eapply (obeys_bind _ _ _ (fun _ _ => True));
    [apply call_expected; [exact I | reflexivity] | intros [] [] _].
  eapply (obeys_bind _ _ _ (fun _ _ => True));
    [| intros [] [] _; now apply obeys_ret].
  unfold while.
  apply (obeys_iter _ _ _ (fun _ _ => True)); [| intros; exact I | exact I].
  intros m [] [] _.
  eapply (obeys_bind _ _ _ (fun _ _ => True));
    [now apply obeys_ret | intros [] [] _].
  - eapply (obeys_bind _ _ _ (fun _ _ => True));
      [apply monitor_tick_expected | intros [] [] _].
    now apply obeys_ret.
  - now apply obeys_ret.
Qed.

Lemma accepts_expected : forall l q q',
  accepts expected q l = Some q' ->
  forall v, In v l -> expected_call v = true.
Proof.
  induction l as [|a l IH]; intros q q' A v I; [contradiction|].
  simpl in A. unfold expected in A at 1.
  destruct (expected_call a) eqn:Ea; [| discriminate].
  destruct I as [<- | I]; [exact Ea | exact (IH _ _ A v I)].
Qed.

(** No call of any execution is a call the source does not make. *)
Lemma log_expected {W} `{World W} sched (w : W) i v :
  In (i, v) (log (exec sched (boot w))) -> expected_call v = true.
Proof.
  intros I.
  destruct (run_watched expected anywhere (fun _ => tt) main_expected routine_expected
              sched w i) as [q A].
  apply (accepts_expected _ _ _ A). now apply in_thread_log.
Qed.

(** X8.  In every execution in any world, whatever the schedule: the only ports
    read are the command port 0x66 and the data port 0x62; the only byte
    written to the command port is 0x80, and every byte written to the data
    port is one of the twelve register addresses 0x00, 0x01, 0x50 .. 0x59;
    permission is asked for these two ports only, one port at a time; perror
    is called with the string ioperm only, exit with status 1 only, sleep
    with one second only. *)
Theorem only_expected_calls :
  forall (W : Type) (H : World W) (w : W) sched,
    let l := log (exec sched (boot w)) in
    (forall i p x, In (i, EvIn p x) l -> p = EC_SC \/ p = EC_DATA) /\
    (forall i b p, In (i, EvOut b p) l ->
       (p = EC_SC /\ b = 0x80) \/
       (p = EC_DATA /\
        In b [0x00; 0x01;
              0x50; 0x51; 0x52; 0x53; 0x54; 0x55; 0x56; 0x57; 0x58; 0x59])) /\
    (forall i f n o r, In (i, EvIoperm f n o r) l ->
       (f = EC_SC \/ f = EC_DATA) /\ n = 1 /\ o = 1) /\
    (forall i s, In (i, EvPerror s) l -> s = "ioperm"%string) /\
    (forall i code, In (i, EvExit code) l -> code = 1) /\
    (forall i s, In (i, EvSleep s) l -> s = 1).
Proof.
  intros W H w sched l. unfold l.
  split; [| split; [| split; [| split; [| split]]]].
  - intros i p x I. apply log_expected in I. simpl in I.
    apply orb_prop in I. destruct I as [I | I]; apply Z.eqb_eq in I; auto.
  - intros i b p I. apply log_expected in I. cbn [expected_call] in I.
    apply orb_prop in I. destruct I as [I | I];
      apply andb_prop in I; destruct I as [I1 I2]; apply Z.eqb_eq in I1.
    + apply Z.eqb_eq in I2. auto.
    + right. split; auto. apply existsb_exists in I2.
      destruct I2 as (a & Ia & E). apply Z.eqb_eq in E. subst a. exact Ia.
  - intros i f n o r I. apply log_expected in I. simpl in I.
    apply andb_prop in I. destruct I as [I I3].
    apply andb_prop in I. destruct I as [I1 I2].
    apply Z.eqb_eq in I2, I3. split; [| auto].
    apply orb_prop in I1. destruct I1 as [I1 | I1]; apply Z.eqb_eq in I1; auto.
  - intros i s I. apply log_expected in I. simpl in I.
    now apply String.eqb_eq in I.
  - intros i code I. apply log_expected in I. simpl in I.
    now apply Z.eqb_eq in I.
  - intros i s I. apply log_expected in I. simpl in I.
    now apply Z.eqb_eq in I.
Qed.

(** X9.  In every execution in any world, every call of printf passes exactly as
    many arguments as its format string has conversion specifications. *)
Theorem printf_arguments_match_format :
  forall (W : Type) (H : World W) (w : W) sched i fmt args,
    In (i, EvPrintf fmt args) (log (exec sched (boot w))) ->
    conversions fmt = List.length args.
Proof.
  intros W H w sched i fmt args I. apply log_expected in I. simpl in I.
  now apply Nat.eqb_eq in I.
Qed.

Lemma printf_arguments_match_format_witness :
  conversions fmt_register = List.length [0x50; 0x5A].
Proof.
  apply (printf_arguments_match_format sim_ec _ demo_ec until_launch 0%nat).
  vm_compute. repeat (first [left; reflexivity | right]).
Defined.

(** ** Every thread keeps to the handshake *)

Lemma call_unpolled {X} (e : ecE X) n q :
  (forall x, is_port_access (ev_of e x) = false) ->
  obeys shake_next anywhere n q (ITree.trigger e) (fun _ _ => True).
Proof.
  intros A. apply obeys_call.
  - destruct e; simpl; try exact I. discriminate.
  - intros x. exists Unpolled. split; [| exact I].
    specialize (A x). destruct e; simpl in *; try reflexivity; discriminate.
Qed.

(** A wait leaves the thread with the status byte that ended it. *)
Lemma poll_loop_shake again n q :
  obeys shake_next anywhere n q (poll_loop again)
    (fun q' _ => exists s, q' = Polled s /\ again s = false).
Proof.
  unfold poll_loop, while.
  apply (obeys_iter _ _ _ (fun _ _ => True)); [| intros; exact I | exact I].
  intros m q1 [] _.
  eapply (obeys_bind _ _ _ (fun q' c => exists s, q' = Polled s /\ c = again s)).
  - eapply (obeys_bind _ _ _ (fun q' s => q' = Polled s)).
    + apply obeys_call; [exact I|]. intros s. exists (Polled s).
      split; reflexivity.
    + intros q' s ->. apply obeys_ret. eauto.
  - intros q' c (s & -> & ->). destruct (again s) eqn:A.
    + eapply (obeys_bind _ _ _ (fun _ _ => True)); [now apply obeys_ret|].
      intros q2 [] _. now apply obeys_ret.
    + apply obeys_ret. eauto.
Qed.

Lemma write_after_poll b p n s :
  ibf_busy s = false ->
  obeys shake_next anywhere n (Polled s) (outb b p) (fun _ _ => True).
Proof.
  intros A. rewrite ibf_busy_bit in A.
  apply obeys_call; [exact I|]. intros []. exists Unpolled.
  simpl. now rewrite A.
Qed.

Lemma ec_read_shake a n q :
  obeys shake_next anywhere n q (ec_read a) (fun _ _ => True).
Proof.
  unfold ec_read. rewrite ec_wait_ibf_poll, ec_wait_obf_poll.
  eapply obeys_bind; [apply poll_loop_shake | intros q1 [] (s1 & -> & A1)].
  eapply (obeys_bind _ _ _ (fun _ _ => True));
    [now apply write_after_poll | intros q2 [] _].
  eapply obeys_bind; [apply poll_loop_shake | intros q3 [] (s2 & -> & A2)].
  eapply (obeys_bind _ _ _ (fun _ _ => True));
    [now apply write_after_poll | intros q4 [] _].
  eapply obeys_bind; [apply poll_loop_shake | intros q5 [] (s3 & -> & A3)].
  rewrite obf_empty_bit in A3. apply negb_false_iff in A3.
  apply obeys_call; [exact I|]. intros x. exists Unpolled.
  simpl. change (EC_DATA =? EC_SC) with false. cbv iota. now rewrite A3.
Qed.

Lemma interpret_shake reg value n q :
  obeys shake_next anywhere n q (interpret reg value) (fun _ _ => True).
Proof.
  unfold interpret.
  destruct (reg =? 0x50); [apply call_unpolled; reflexivity|].
  destruct (reg =? 0x51); [apply call_unpolled; reflexivity|].
  destruct (reg =? 0x52); [apply call_unpolled; reflexivity|].
  now apply obeys_ret.
Qed.

Lemma ec_dump_selected_shake n q :
  obeys shake_next anywhere n q ec_dump_selected (fun _ _ => True).
Proof.
  unfold ec_dump_selected.
  eapply (obeys_bind _ _ _ (fun _ _ => True));
    [apply call_unpolled; reflexivity | intros q1 [] _].
  unfold for_upto.
  apply (obeys_iter _ _ _ (fun _ _ => True)); [| intros; exact I | exact I].
  intros m q2 i _. destruct (i <? _); [| now apply obeys_ret].
  eapply (obeys_bind _ _ _ (fun _ _ => True)); [| intros q3 [] _; now apply obeys_ret].
  unfold dump_register.
  eapply (obeys_bind _ _ _ (fun _ _ => True));
    [apply ec_read_shake | intros q3 v _].
  eapply (obeys_bind _ _ _ (fun _ _ => True));
    [apply call_unpolled; reflexivity | intros q4 [] _].
  apply interpret_shake.
Qed.

Lemma acpi_check_shake n q :
  obeys shake_next anywhere n q acpi_check (fun _ _ => True).
Proof.
  unfold acpi_check.
  eapply (obeys_bind _ _ _ (fun _ _ => True));
    [apply call_unpolled; reflexivity | intros q1 [] _].
  eapply (obeys_bind _ _ _ (fun _ _ => True));
    [apply ec_read_shake | intros q2 v _].
  apply call_unpolled; reflexivity.
Qed.

Lemma fatal_shake {R} n q (Q : shake -> R -> Prop) :
  obeys shake_next anywhere n q (perror "ioperm" ;; exit 1) Q.
Proof.
  eapply (obeys_bind _ _ _ (fun _ _ => True));
    [apply call_unpolled; reflexivity | intros q1 [] _].
  unfold exit. destruct n; [exact I|]. cbn. split; [discriminate | intros []].
Qed.

Lemma main_shake : always_obeys shake_next anywhere Unpolled main.
Proof.
  intros n. unfold main.
  eapply (obeys_bind _ _ _ (fun _ _ => True)); [| intros q1 [] _].
  { unfold ec_init.
    eapply (obeys_bind _ _ _ (fun _ _ => True));
      [apply call_unpolled; reflexivity | intros q1 r1 _].
    destruct (truthy r1); [apply fatal_shake|].
    eapply (obeys_bind _ _ _ (fun _ _ => True));
      [apply call_unpolled; reflexivity | intros q2 r2 _].
    destruct (truthy r2); [apply fatal_shake | now apply obeys_ret]. }
  eapply (obeys_bind _ _ _ (fun _ _ => True));
    [apply ec_dump_selected_shake | intros q2 [] _].
  eapply (obeys_bind _ _ _ (fun _ _ => True));
    [apply call_unpolled; reflexivity | intros q3 j _].
  eapply (obeys_bind _ _ _ (fun _ _ => True));
    [apply acpi_check_shake | intros q4 [] _].
  eapply (obeys_bind _ _ _ (fun _ _ => True));
    [apply call_unpolled; reflexivity | intros q5 [] _].
  now apply obeys_ret.
Qed.

Lemma routine_shake r (j : tid) :
  always_obeys shake_next anywhere Unpolled (routine_body r).
Proof.
  destruct r. intros n. unfold routine_body, ec_monitor_loop.
  eapply (obeys_bind _ _ _ (fun _ _ => True));
    [apply call_unpolled; reflexivity | intros q1 [] _].
  eapply (obeys_bind _ _ _ (fun _ _ => True));
    [| intros q2 [] _; now apply obeys_ret].
  unfold while.
  apply (obeys_iter _ _ _ (fun _ _ => True)); [| intros; exact I | exact I].
  intros m q2 [] _.
  eapply (obeys_bind _ _ _ (fun _ _ => True));
    [now apply obeys_ret | intros q3 [] _; [| now apply obeys_ret]].
  eapply (obeys_bind _ _ _ (fun _ _ => True));
    [| intros q4 [] _; now apply obeys_ret].
  unfold monitor_tick.
  eapply (obeys_bind _ _ _ (fun _ _ => True));
    [apply ec_read_shake | intros q4 temp _].
  eapply (obeys_bind _ _ _ (fun _ _ => True)); [| intros q5 [] _].
  - destruct (temp >? 75);
      [apply call_unpolled; reflexivity | now apply obeys_ret].
  - apply call_unpolled; reflexivity.
Qed.

(** A thread that holds a status byte has just read it. *)
Lemma accepts_polled l q s :
  accepts shake_next q l = Some (Polled s) ->
  (l = [] /\ q = Polled s) \/ exists l0, l = l0 ++ [EvIn EC_SC s].
Proof.
  destruct l as [|a l] using rev_ind; simpl; intros A.
  - inversion A. auto.
  - right. exists l. rewrite accepts_app in A.
    destruct (accepts shake_next q l) as [q1|]; [| discriminate].
    simpl in A. destruct (shake_next q1 a) as [q2|] eqn:D; [| discriminate].
    inversion A; subst q2. clear A IHl.
    destruct a; simpl in D;
      try (destruct q1 as [|s0]; [discriminate | destruct (IBF s0); discriminate]);
      try discriminate.
    destruct (Z.eqb_spec p EC_SC) as [-> | N].
    + inversion D. reflexivity.
    + destruct q1 as [|s0]; [discriminate | destruct (OBF s0); discriminate].
Qed.

(** What the rule of the handshake says of a log it allows. *)
Lemma accepts_shake l1 v l2 q :
  accepts shake_next Unpolled (l1 ++ v :: l2) = Some q ->
  (is_write v = true ->
     exists l0 s, l1 = l0 ++ [EvIn EC_SC s] /\ IBF s = false) /\
  (forall x, v = EvIn EC_DATA x ->
     exists l0 s, l1 = l0 ++ [EvIn EC_SC s] /\ OBF s = true).
Proof.
  intros A. rewrite accepts_app in A.
  destruct (accepts shake_next Unpolled l1) as [q1|] eqn:A1; [| discriminate].
  simpl in A. destruct (shake_next q1 v) as [q2|] eqn:D; [| discriminate].
  clear A. split.
  - intros Wv. destruct v; try discriminate Wv. simpl in D.
    destruct q1 as [|s]; [discriminate|].
    destruct (IBF s) eqn:B; [discriminate|].
    destruct (accepts_polled _ _ _ A1) as [[_ E] | [l0 ->]]; [discriminate|].
    eauto.
  - intros x ->. simpl in D. change (EC_DATA =? EC_SC) with false in D.
    cbv iota in D. destruct q1 as [|s]; [discriminate|].
    destruct (OBF s) eqn:B; [| discriminate].
    destruct (accepts_polled _ _ _ A1) as [[_ E] | [l0 ->]]; [discriminate|].
    eauto.
Qed.

(** X10.  In every execution in any world, whatever the schedule, every thread
    keeps to the handshake as far as its own calls go: the call it made
    just before a write to a port was a read of the status port that showed
    IBF clear, and the call it made just before a read of the data port was
    a read of the status port that showed OBF set. *)
Theorem every_thread_keeps_the_handshake :
  forall (W : Type) (H : World W) (w : W) sched i l1 v l2,
    thread_log i (log (exec sched (boot w))) = l1 ++ v :: l2 ->
    (is_write v = true ->
       exists l0 s, l1 = l0 ++ [EvIn EC_SC s] /\ IBF s = false) /\
    (forall x, v = EvIn EC_DATA x ->
       exists l0 s, l1 = l0 ++ [EvIn EC_SC s] /\ OBF s = true).
Proof.
  intros W H w sched i l1 v l2 E.
  destruct (run_watched shake_next anywhere (fun _ => Unpolled) main_shake routine_shake
              sched w i) as [q A].
  rewrite E in A. apply (accepts_shake _ _ _ _ A).
Qed.

Lemma every_thread_keeps_the_handshake_witness :
  exists l0 s,
    [EvIoperm EC_SC 1 1 0; EvIoperm EC_DATA 1 1 0;
     EvPrintf fmt_dump_header []; EvIn EC_SC 0] = l0 ++ [EvIn EC_SC s] /\
    IBF s = false.
Proof.
  apply (every_thread_keeps_the_handshake sim_ec _ demo_ec
           [0; 0; 0; 0; 0]%nat 0%nat
           [EvIoperm EC_SC 1 1 0; EvIoperm EC_DATA 1 1 0;
            EvPrintf fmt_dump_header []; EvIn EC_SC 0]
           (EvOut 0x80 EC_SC) []).
  - vm_compute. reflexivity.
  - reflexivity.
Defined.

(** ** Every prefix of a log is the log of an execution *)

Section PrefixFacts.
Context {W : Type} `{World W}.

Lemma step_log i (c : process W) :
  exists es, log (step i c) = log c ++ es /\ (List.length es <= 1)%nat.
Proof.
  assert (Same : exists es, log c = log c ++ es /\ (List.length es <= 1)%nat)
    by (exists []; rewrite app_nil_r; simpl; auto).
  unfold step. destruct (halted c); auto.
  destruct (nth_error (threads c) i) as [t|]; auto.
  destruct (observe t) as [r | t' | X e k].
  - destruct (Nat.eqb i 0); auto.
  - exists []. simpl. auto.
  - destruct (answer e (world c)) as [[[x w'] v]|] eqn:A.
    + exists [(i, v)]. simpl. auto.
    + destruct e; simpl; auto.
      * exists [(i, EvExit code)]. simpl. auto.
      * exists [(i, EvCreate start (List.length (threads c)))]. simpl. auto.
      * destruct (joinable (threads c) t0); auto.
        exists [(i, EvJoin t0)]. simpl. auto.
Qed.

Lemma log_prefix sched : forall (c : process W) l1 x l2,
  log (exec sched c) = log c ++ l1 ++ x :: l2 ->
  exists s1, log (exec s1 c) = log c ++ l1 ++ [x].
Proof.
  induction sched as [|i sched IH]; intros c l1 x l2 E; simpl in E.
  - apply (f_equal (@List.length _)) in E.
    rewrite !length_app in E. simpl in E. lia.
  - destruct (step_log i c) as (es & L & B).
    destruct es as [|y es].
    + rewrite app_nil_r in L. rewrite <- L in E.
      destruct (IH _ _ _ _ E) as [s1 E1]. exists (i :: s1). simpl.
      now rewrite E1, L.
    + destruct es; [| simpl in B; lia].
      destruct l1 as [|z l1].
      * exists [i]. simpl. rewrite L.
        destruct (exec_world sched (step i c)) as (es' & L' & _).
        rewrite L', L, <- app_assoc in E. apply app_inv_head in E.
        simpl in E. inversion E. reflexivity.
      * destruct (exec_world sched (step i c)) as (es' & L' & _).
        pose proof E as E'.
        rewrite L', L, <- app_assoc in E'. apply app_inv_head in E'.
        simpl in E'. inversion E'; subst z.
        destruct (IH (step i c) l1 x l2) as [s1 E1].
        { rewrite E, L, <- app_assoc. reflexivity. }
        exists (i :: s1). simpl. rewrite E1, L, <- app_assoc. reflexivity.
Qed.

End PrefixFacts.

(** ** No port access before permission *)

Lemma refused_no_access l v :
  refused_log l -> In v l -> is_port_access v = false.
Proof.
  intros [(r & _ & ->) | (r & _ & ->)] I; simpl in I;
    repeat (destruct I as [<- | I]; [reflexivity|]); contradiction.
Qed.

(** Once main has accessed a port or is past the launch, its log starts
    with the two requests, both answered with 0. *)
Lemma startup_granted p l :
  startup_order p l -> p <> Past_join ->
  pre_launch p = false \/ (exists v, In v l /\ is_port_access v = true) ->
  exists rest, l = granted_log ++ rest.
Proof.
  intros S NJ A.
  destruct p; simpl in S; try contradiction; try (now elim NJ);
    try (destruct A as [PL | (v & I & PA)]; [discriminate PL|]).
  - subst l. contradiction.
  - subst l. destruct I as [<- | []]. discriminate PA.
  - rewrite (refused_no_access _ _ S I) in PA. discriminate.
  - destruct S as (l0 & R & ->). apply in_app_or in I.
    destruct I as [I | [<- | []]]; [| discriminate PA].
    rewrite (refused_no_access _ _ R I) in PA. discriminate.
  - destruct S as (l0 & R & ->). apply in_app_or in I.
    destruct I as [I | [<- | [<- | []]]]; try discriminate PA.
    rewrite (refused_no_access _ _ R I) in PA. discriminate.
  - subst l. exists []. reflexivity.
  - destruct S as (s & -> & _). eexists. reflexivity.
  - destruct S as (s & j & -> & _). eexists. reflexivity.
  - destruct S as (s & j & d & -> & _). eexists. reflexivity.
  - destruct S as (s & j & d & -> & _). eexists. reflexivity.
  - destruct S as (s & j & d & x & -> & _). eexists. reflexivity.
Qed.

(** X11.  In every execution in any world, whatever the schedule, when a thread
    reads or writes a port, main has asked for permission for the command
    port and for the data port and both requests were answered with 0:
    the calls of main before the access start with these two requests. *)
Theorem no_port_access_before_permission :
  forall (W : Type) (H : World W) (w : W) sched l1 i v l2,
    log (exec sched (boot w)) = l1 ++ (i, v) :: l2 ->
    is_port_access v = true ->
    exists rest,
      thread_log 0%nat l1 =
      EvIoperm EC_SC 1 1 0 :: EvIoperm EC_DATA 1 1 0 :: rest.
Proof.
  intros W H w sched l1 i v l2 E PA.
  destruct (log_prefix sched (boot w) l1 (i, v) l2 E) as [s1 E1].
  simpl in E1.
  pose proof (run_consistent s1 w) as C.
  destruct (main_phase s1 w) as (p & P & NJ & S).
  assert (Ii : In (i, v) (log (exec s1 (boot w))))
    by (rewrite E1; apply in_or_app; right; now left).
  rewrite E1, thread_log_app in S.
  destruct (Nat.eq_dec i 0%nat) as [-> | N].
  - rewrite thread_log_own in S.
    destruct (startup_granted _ _ S NJ) as [rest R].
    { right. exists v. split; auto. apply in_or_app. right. now left. }
    destruct rest as [|a rest] using rev_ind.
    + change (granted_log ++ []) with
        ([EvIoperm EC_SC 1 1 0] ++ [EvIoperm EC_DATA 1 1 0]) in R.
      apply app_inj_tail in R. destruct R as [_ ->]. discriminate PA.
    + rewrite app_assoc in R. apply app_inj_tail in R. destruct R as [R _].
      exists rest. exact R.
  - rewrite thread_log_other, app_nil_r in S by auto.
    destruct (startup_granted _ _ S NJ) as [rest R];
      [| exists rest; exact R].
    left. destruct (pre_launch p) eqn:PL; auto.
    pose proof (cons_alone _ C p P PL) as L1.
    apply (cons_tids _ C) in Ii. lia.
Qed.

Lemma no_port_access_before_permission_witness :
  exists rest,
    thread_log 0%nat
      [(0%nat, EvIoperm EC_SC 1 1 0); (0%nat, EvIoperm EC_DATA 1 1 0);
       (0%nat, EvPrintf fmt_dump_header [])] =
    EvIoperm EC_SC 1 1 0 :: EvIoperm EC_DATA 1 1 0 :: rest.
Proof.
  apply (no_port_access_before_permission sim_ec _ demo_ec
           [0; 0; 0; 0]%nat
           [(0%nat, EvIoperm EC_SC 1 1 0); (0%nat, EvIoperm EC_DATA 1 1 0);
            (0%nat, EvPrintf fmt_dump_header [])]
           0%nat (EvIn EC_SC 0) []).
  - vm_compute. reflexivity.
  - reflexivity.
Defined.

(** ** The threads of the process *)

Section ThreadFacts.
Context {W : Type} `{World W}.

(** The process has one thread more than it has logged creations, and the
    threads created are threads it has. *)
Lemma step_threads i (c : process W) :
  (List.length (threads c) =
     S (List.length (filter is_create (map snd (log c)))) /\
   forall a r j, In (a, EvCreate r j) (log c) ->
     (1 <= j < List.length (threads c))%nat) ->
  List.length (threads (step i c)) =
    S (List.length (filter is_create (map snd (log (step i c))))) /\
  forall a r j, In (a, EvCreate r j) (log (step i c)) ->
    (1 <= j < List.length (threads (step i c)))%nat.
Proof.
  intros [N T].
  assert (Call : forall t' w' v, is_create v = false ->
    List.length (threads (resume i t' w' [(i, v)] c)) =
      S (List.length (filter is_create
                        (map snd (log (resume i t' w' [(i, v)] c))))) /\
    forall a r j, In (a, EvCreate r j) (log (resume i t' w' [(i, v)] c)) ->
      (1 <= j < List.length (threads (resume i t' w' [(i, v)] c)))%nat).
  { intros t' w' v NC. unfold resume. cbn [threads log].
    rewrite length_set_nth, map_app, filter_app, length_app. simpl.
    rewrite NC. simpl. split; [lia|].
    intros a r j I. apply in_app_or in I.
    destruct I as [I | [I | []]]; [exact (T a r j I)|].
    inversion I; subst v. discriminate NC. }
  unfold step. destruct (halted c); auto.
  destruct (nth_error (threads c) i) as [t|]; auto.
  destruct (observe t) as [r | t' | X e k].
  - destruct (Nat.eqb i 0); auto.
  - unfold resume. cbn [threads log].
    rewrite length_set_nth, app_nil_r. auto.
  - destruct (answer e (world c)) as [[[x w'] v]|] eqn:A.
    + apply Call. destruct (answer_ev_of _ _ _ _ _ A) as (_ & _ & NC).
      destruct v; auto. now elim (NC start t0).
    + destruct e; simpl; auto.
      * rewrite map_app, filter_app, length_app. simpl. split; [lia|].
        intros a r j I. apply in_app_or in I.
        destruct I as [I | [I | []]]; [exact (T a r j I) | discriminate I].
      * rewrite !length_app, length_set_nth, map_app, filter_app, length_app.
        simpl. split; [lia|].
        intros a r j I. apply in_app_or in I.
        destruct I as [I | [I | []]].
        -- specialize (T a r j I). lia.
        -- inversion I; subst. lia.
      * destruct (joinable (threads c) t0); auto.
Qed.

Lemma exec_threads sched : forall c : process W,
  (List.length (threads c) =
     S (List.length (filter is_create (map snd (log c)))) /\
   forall a r j, In (a, EvCreate r j) (log c) ->
     (1 <= j < List.length (threads c))%nat) ->
  List.length (threads (exec sched c)) =
    S (List.length (filter is_create (map snd (log (exec sched c))))) /\
  forall a r j, In (a, EvCreate r j) (log (exec sched c)) ->
    (1 <= j < List.length (threads (exec sched c)))%nat.
Proof.
  induction sched as [|i sched IH]; intros c A; simpl; auto.
  apply IH, step_threads, A.
Qed.

End ThreadFacts.

Lemma creates_of_main : forall l : list (tid * ev),
  (forall i r j, In (i, EvCreate r j) l -> i = 0%nat) ->
  filter is_create (map snd l) = filter is_create (thread_log 0%nat l).
Proof.
  unfold thread_log. induction l as [|[i v] l IH]; intros A; simpl; auto.
  assert (A' : forall i r j, In (i, EvCreate r j) l -> i = 0%nat)
    by (intros i' r j I; apply (A i' r j); now right).
  destruct (Nat.eqb_spec i 0) as [-> | N]; simpl.
  - destruct (is_create v); [f_equal|]; auto.
  - destruct v; simpl; auto. now elim N; apply (A i start t); left.
Qed.

Lemma sampler_no_create : forall l p,
  replay Sampling l = Some p -> filter is_create l = [].
Proof.
  induction l as [|v l IH]; intros p R; cbn [replay filter] in *; auto.
  destruct (delta Sampling v) as [p1|] eqn:D; [| discriminate].
  pose proof (delta_sampling _ _ D). subst p1.
  destruct v; simpl in *; try discriminate D; eauto.
Qed.

Lemma snapshot_no_create : forall s,
  forallb snapshot_call s = true -> filter is_create s = [].
Proof.
  induction s as [|v s IH]; simpl; intros A; auto.
  apply andb_prop in A. destruct A as [A1 A2].
  destruct v; simpl in *; try discriminate A1; auto.
Qed.

Lemma diagnostic_no_create : forall d,
  forallb diagnostic_call d = true -> filter is_create d = [].
Proof.
  induction d as [|v d IH]; simpl; intros A; auto.
  apply andb_prop in A. destruct A as [A1 A2].
  destruct v; simpl in *; try discriminate A1; auto.
Qed.

Lemma refused_no_create l : refused_log l -> filter is_create l = [].
Proof. intros [(r & _ & ->) | (r & _ & ->)]; reflexivity. Qed.

(** main creates at most one thread. *)
Lemma startup_creates p l :
  startup_order p l -> p <> Past_join ->
  (List.length (filter is_create l) <= 1)%nat.
Proof.
  intros S NJ.
  destruct p; simpl in S; try contradiction; try (now elim NJ).
  - subst l. simpl. lia.
  - subst l. simpl. lia.
  - rewrite (refused_no_create _ S). simpl. lia.
  - destruct S as (l0 & R & ->).
    rewrite filter_app, (refused_no_create _ R). simpl. lia.
  - destruct S as (l0 & R & ->).
    rewrite filter_app, (refused_no_create _ R). simpl. lia.
  - subst l. simpl. lia.
  - destruct S as (s & -> & A). simpl.
    rewrite (snapshot_no_create _ A). simpl. lia.
  - destruct S as (s & j & -> & A). simpl.
    rewrite filter_app, (snapshot_no_create _ A). simpl. lia.
  - destruct S as (s & j & d & -> & A & B). simpl.
    rewrite filter_app, (snapshot_no_create _ A). simpl.
    rewrite (diagnostic_no_create _ B). simpl. lia.
  - destruct S as (s & j & d & -> & A & B). simpl.
    rewrite filter_app, (snapshot_no_create _ A). simpl.
    rewrite filter_app, (diagnostic_no_create _ B). simpl. lia.
  - destruct S as (s & j & d & x & -> & A & B). simpl.
    rewrite filter_app, (snapshot_no_create _ A). simpl.
    rewrite filter_app, (diagnostic_no_create _ B). simpl. lia.
Qed.

Section BoundFacts.
Context {W : Type} `{World W}.

Lemma threads_count sched (w : W) :
  let c := exec sched (boot w) in
  List.length (threads c) =
    S (List.length (filter is_create (map snd (log c)))) /\
  forall a r j, In (a, EvCreate r j) (log c) ->
    (1 <= j < List.length (threads c))%nat.
Proof.
  apply exec_threads. simpl. split; [reflexivity | intros a r j []].
Qed.

Lemma creations_by_main sched (w : W) i r j :
  In (i, EvCreate r j) (log (exec sched (boot w))) -> i = 0%nat.
Proof.
  intros I. destruct (thread_phase sched w i _ I) as (p & P & _).
  destruct i as [|i]; auto. simpl in P.
  pose proof (sampler_no_create _ _ P) as NC.
  apply in_thread_log in I.
  assert (I' : In (EvCreate r j)
                 (filter is_create
                    (thread_log (S i) (log (exec sched (boot w))))))
    by (apply filter_In; auto).
  now rewrite NC in I'.
Qed.

Lemma threads_le_two sched (w : W) :
  (List.length (threads (exec sched (boot w))) <= 2)%nat.
Proof.
  destruct (threads_count sched w) as [N _]. cbv zeta in N.
  rewrite N, (creates_of_main _ (creations_by_main sched w)).
  destruct (main_phase sched w) as (p & _ & NJ & S).
  pose proof (startup_creates _ _ S NJ). lia.
Qed.

End BoundFacts.

(** X12.  In every execution in any world, whatever the schedule, the process
    has one thread more than the creations in its log, and never more than
    two threads: main and at most one sampler.  Every call is made by thread
    0 or thread 1; a thread is only ever created by main, for the routine
    ec_monitor_loop, and it is thread 1. *)
Theorem at_most_two_threads :
  forall (W : Type) (H : World W) (w : W) sched,
    let c := exec sched (boot w) in
    List.length (threads c) =
      S (List.length (filter is_create (map snd (log c)))) /\
    (1 <= List.length (threads c) <= 2)%nat /\
    (forall i v, In (i, v) (log c) -> i = 0%nat \/ i = 1%nat) /\
    (forall i r j, In (i, EvCreate r j) (log c) ->
       i = 0%nat /\ r = Ec_monitor_loop_routine /\ j = 1%nat).
Proof.
  intros W H w sched c.
  pose proof (run_consistent sched w) as C. fold c in C.
  destruct (threads_count sched w) as [N T]. fold c in N, T.
  pose proof (threads_le_two sched w) as Two. fold c in Two.
  split; [exact N|]. split; [lia|]. split.
  - intros i v I. apply (cons_tids _ C) in I. lia.
  - intros i r j I. split; [exact (creations_by_main sched w i r j I)|].
    split; [now destruct r|]. specialize (T i r j I). lia.
Qed.

(** ** The sampler in every execution *)

Lemma unwatched_obeys {R} n : forall (t : itree ecE R),
  obeys sampler_next anywhere n Unwatched t (fun _ _ => True).
Proof.
  induction n as [|n IH]; intros t; [exact I|].
  cbn [obeys]. destruct (observe t) as [r | t' | X e k]; auto.
  - split; [exact I | apply IH].
  - split; [destruct e; simpl; try exact I; discriminate|].
    intros x. exists Unwatched. split; [reflexivity | apply IH].
Qed.

Lemma poll_loop_fetching again n :
  obeys sampler_next anywhere n Fetching (poll_loop again) (fun q _ => q = Fetching).
Proof.
  unfold poll_loop, while.
  apply (obeys_iter _ _ _ (fun q _ => q = Fetching)); [| intros; exact I | reflexivity].
  intros m q [] ->.
  eapply (obeys_bind _ _ _ (fun q _ => q = Fetching)).
  - eapply (obeys_bind _ _ _ (fun q _ => q = Fetching)).
    + apply obeys_call; [exact I|]. intros s. exists Fetching.
      split; reflexivity.
    + intros q s ->. now apply obeys_ret.
  - intros q [] ->.
    + eapply (obeys_bind _ _ _ (fun q _ => q = Fetching)); [now apply obeys_ret|].
      intros q [] ->. now apply obeys_ret.
    + now apply obeys_ret.
Qed.

Lemma ec_read_fetching n :
  obeys sampler_next anywhere n Fetching (ec_read 0x00) (fun q v => q = Fetched v).
Proof.
  unfold ec_read. rewrite ec_wait_ibf_poll, ec_wait_obf_poll.
  eapply obeys_bind; [apply poll_loop_fetching | intros q [] ->].
  eapply (obeys_bind _ _ _ (fun q _ => q = Fetching)); [| intros q [] ->].
  { apply obeys_call; [exact I|]. intros []. exists Fetching.
    split; reflexivity. }
  eapply obeys_bind; [apply poll_loop_fetching | intros q [] ->].
  eapply (obeys_bind _ _ _ (fun q _ => q = Fetching)); [| intros q [] ->].
  { apply obeys_call; [exact I|]. intros []. exists Fetching.
    split; reflexivity. }
  eapply obeys_bind; [apply poll_loop_fetching | intros q [] ->].
  apply obeys_call; [exact I|]. intros x. exists (Fetched x).
  split; reflexivity.
Qed.

Lemma monitor_tick_fetching n :
  obeys sampler_next anywhere n Fetching monitor_tick (fun q _ => q = Fetching).
Proof.
  unfold monitor_tick.
  eapply obeys_bind; [apply ec_read_fetching | intros q temp ->].
  eapply (obeys_bind _ _ _
            (fun q _ => q = if temp >? 75 then Warned else Fetched temp)).
  - destruct (temp >? 75) eqn:G.
    + apply obeys_call; [exact I|]. intros []. exists Warned.
      split; [| reflexivity]. simpl. now rewrite Z.eqb_refl, G.
    + now apply obeys_ret.
  - intros q [] ->. apply obeys_call; [exact I|]. intros []. exists Fetching.
    split; [| reflexivity]. destruct (temp >? 75) eqn:G; simpl; auto.
    now rewrite G.
Qed.

Lemma main_unwatched : always_obeys sampler_next anywhere (sampler_start 0%nat) main.
Proof. intros n. apply unwatched_obeys. Qed.

Lemma routine_sampler r j :
  always_obeys sampler_next anywhere (sampler_start (S j)) (routine_body r).
Proof.
  destruct r. intros n. unfold routine_body, ec_monitor_loop. simpl.
  eapply (obeys_bind _ _ _ (fun q _ => q = Fetching)); [| intros q [] ->].
  { apply obeys_call; [exact I|]. intros []. exists Fetching.
    split; reflexivity. }
  eapply (obeys_bind _ _ _ (fun _ _ => True));
    [| intros q [] _; now apply obeys_ret].
  unfold while.
  apply (obeys_iter _ _ _ (fun q _ => q = Fetching)); [| intros; exact I | reflexivity].
  intros m q [] ->.
  eapply (obeys_bind _ _ _ (fun q _ => q = Fetching));
    [now apply obeys_ret | intros q [] ->; [| now apply obeys_ret]].
  eapply obeys_bind; [apply monitor_tick_fetching | intros q [] ->].
  now apply obeys_ret.
Qed.

Lemma sampler_next_unwatched q v :
  sampler_next q v = Some Unwatched -> q = Unwatched.
Proof.
  destruct q; simpl; auto; destruct v; try discriminate;
    repeat match goal with
           | |- context [match ?l with [] => _ | _ :: _ => _ end] => destruct l
           | |- context [if ?b then _ else _] => destruct b
           end; discriminate.
Qed.

Lemma accepts_watched : forall l q q',
  accepts sampler_next q l = Some q' -> q <> Unwatched -> q' <> Unwatched.
Proof.
  induction l as [|v l IH]; intros q q' A N; simpl in A.
  - inversion A. now subst.
  - destruct (sampler_next q v) as [q1|] eqn:D; [| discriminate].
    apply (IH _ _ A). intros ->. apply N, (sampler_next_unwatched _ _ D).
Qed.

(** The state of the rule tells what the thread did last. *)
Lemma accepts_sampler_state l q :
  accepts sampler_next Fresh l = Some q ->
  match q with
  | Fresh => l = []
  | Fetched t => exists l0, l = l0 ++ [EvIn EC_DATA t]
  | Unwatched => False
  | _ => True
  end.
Proof.
  intros A.
  pose proof (accepts_watched _ _ _ A ltac:(discriminate)) as NU.
  destruct l as [|a l _] using rev_ind.
  - inversion A. reflexivity.
  - rewrite accepts_app in A.
    destruct (accepts sampler_next Fresh l) as [q1|] eqn:A1; [| discriminate].
    pose proof (accepts_watched _ _ _ A1 ltac:(discriminate)) as NU1.
    simpl in A. destruct (sampler_next q1 a) as [q2|] eqn:D; [| discriminate].
    inversion A; subst q2. clear A.
    destruct q; auto; try (now elim NU).
    + destruct q1; simpl in D; try (now elim NU1); destruct a; try discriminate;
        repeat match type of D with
               | context [match ?l with [] => _ | _ :: _ => _ end] => destruct l
               | context [if ?b then _ else _] => destruct b
               end; discriminate.
    + exists l. f_equal. f_equal.
      destruct q1; simpl in D; try (now elim NU1); destruct a; try discriminate;
        repeat match type of D with
               | context [match ?l with [] => _ | _ :: _ => _ end] => destruct l
               | context [if ?b =? ?c then _ else _] =>
                 destruct (Z.eqb_spec b c)
               | context [if ?b then _ else _] => destruct b
               end; try discriminate.
      inversion D. subst. reflexivity.
Qed.

Lemma accepts_after_fetch l0 t q :
  accepts sampler_next Fresh (l0 ++ [EvIn EC_DATA t]) = Some q -> q = Fetched t.
Proof.
  intros A. pose proof (accepts_watched _ _ _ A ltac:(discriminate)) as NU.
  rewrite accepts_app in A.
  destruct (accepts sampler_next Fresh l0) as [q1|] eqn:A1; [| discriminate].
  simpl in A. destruct q1; simpl in A; try discriminate.
  - change (EC_DATA =? EC_DATA) with true in A. now inversion A.
  - inversion A. subst. now elim NU.
Qed.

(** From a read of the data port to the next one the sampler sleeps. *)
Lemma accepts_sleep_between t m t2 l3 q :
  accepts sampler_next (Fetched t) (m ++ EvIn EC_DATA t2 :: l3) = Some q ->
  In (EvSleep 1) m.
Proof.
  intros A. destruct m as [|a m]; [discriminate A|].
  simpl in A. destruct a; try discriminate A.
  - destruct args as [|x [|y args]]; try discriminate A.
    destruct (String.eqb fmt fmt_warning && (x =? t) && (t >? 75));
      [| discriminate A].
    destruct m as [|b m]; [discriminate A|].
    simpl in A. destruct b; try discriminate A.
    destruct (Z.eqb_spec seconds 1) as [E |]; [| discriminate A].
    subst seconds. right. now left.
  - destruct (Z.eqb_spec seconds 1) as [E |]; [| discriminate A].
    subst seconds. now left.
Qed.

(** What the rule of the sampler says of a log it allows. *)
Lemma accepts_sampler l1 v l2 q :
  accepts sampler_next Fresh (l1 ++ v :: l2) = Some q ->
  (forall l0 t, l1 = l0 ++ [EvIn EC_DATA t] ->
     v = if t >? 75 then EvPrintf fmt_warning [t] else EvSleep 1) /\
  (forall fmt args, v = EvPrintf fmt args ->
     (l1 = [] /\ fmt = fmt_monitor_start /\ args = []) \/
     (exists l0 t, l1 = l0 ++ [EvIn EC_DATA t] /\
                   fmt = fmt_warning /\ args = [t] /\ 75 < t)) /\
  (forall b p, v = EvOut b p ->
     (p = EC_SC /\ b = 0x80) \/ (p = EC_DATA /\ b = 0x00)) /\
  (forall t m t2 l3,
     v = EvIn EC_DATA t -> l2 = m ++ EvIn EC_DATA t2 :: l3 ->
     In (EvSleep 1) m).
Proof.
  intros A. pose proof A as A0. rewrite accepts_app in A.
  destruct (accepts sampler_next Fresh l1) as [q1|] eqn:A1; [| discriminate].
  simpl in A. destruct (sampler_next q1 v) as [q2|] eqn:D; [| discriminate].
  clear A. split; [| split; [| split]].
  - intros l0 t ->. apply accepts_after_fetch in A1. subst q1. simpl in D.
    destruct v; try discriminate.
    + destruct args as [|x [|y args]]; try discriminate.
      destruct (String.eqb_spec fmt fmt_warning) as [-> | N];
        [| discriminate]. simpl in D.
      destruct (Z.eqb_spec x t) as [E | N]; [| discriminate]. simpl in D.
      subst x. destruct (t >? 75); [reflexivity | discriminate].
    + destruct (Z.eqb_spec seconds 1) as [-> | N]; [| discriminate].
      simpl in D. destruct (t >? 75); [discriminate | reflexivity].
  - intros fmt args ->. pose proof (accepts_sampler_state _ _ A1) as St.
    destruct q1; simpl in D; try discriminate; try contradiction.
    + left. destruct args; [| discriminate].
      destruct (String.eqb_spec fmt fmt_monitor_start) as [E | N];
        [auto | discriminate].
    + right. destruct St as [l0 ->]. exists l0, temp.
      destruct args as [|x [|y args]]; try discriminate.
      destruct (String.eqb_spec fmt fmt_warning) as [-> | N];
        [| discriminate]. simpl in D.
      destruct (Z.eqb_spec x temp) as [E | N]; [| discriminate]. simpl in D.
      destruct (Z.gtb_spec temp 75); [| discriminate]. subst x. auto.
  - intros b p ->. pose proof (accepts_sampler_state _ _ A1) as St.
    destruct q1; simpl in D; try discriminate; try contradiction.
    destruct ((p =? EC_SC) && (b =? 0x80) || (p =? EC_DATA) && (b =? 0x00))
      eqn:C; [| discriminate].
    apply orb_prop in C. destruct C as [C | C];
      apply andb_prop in C; destruct C as [C1 C2];
      apply Z.eqb_eq in C1, C2; auto.
  - intros t m t2 l3 -> ->.
    change (l1 ++ EvIn EC_DATA t :: m ++ EvIn EC_DATA t2 :: l3)
      with (l1 ++ [EvIn EC_DATA t] ++ m ++ EvIn EC_DATA t2 :: l3) in A0.
    rewrite app_assoc, accepts_app in A0.
    destruct (accepts sampler_next Fresh (l1 ++ [EvIn EC_DATA t]))
      as [q3|] eqn:A3; [| discriminate].
    apply accepts_after_fetch in A3. subst q3.
    apply (accepts_sleep_between _ _ _ _ _ A0).
Qed.

(** X13.  In every execution in any world, whatever the schedule and however the
    reads of the threads race: the call a sampler makes straight after a
    read of the data port is the warning with the value read if this value
    is above 75, and the sleep of one second otherwise; a sampler prints
    nothing but its first line, as its first call, and such warnings; the
    only register it asks for is 0x00; and from one read of the data port to
    the next it sleeps one second. *)
Theorem sampler_warns_exactly_above_threshold :
  forall (W : Type) (H : World W) (w : W) sched i l1 v l2,
    thread_log (S i) (log (exec sched (boot w))) = l1 ++ v :: l2 ->
    (forall l0 t, l1 = l0 ++ [EvIn EC_DATA t] ->
       v = if t >? 75 then EvPrintf fmt_warning [t] else EvSleep 1) /\
    (forall fmt args, v = EvPrintf fmt args ->
       (l1 = [] /\ fmt = fmt_monitor_start /\ args = []) \/
       (exists l0 t, l1 = l0 ++ [EvIn EC_DATA t] /\
                     fmt = fmt_warning /\ args = [t] /\ 75 < t)) /\
    (forall b p, v = EvOut b p ->
       (p = EC_SC /\ b = 0x80) \/ (p = EC_DATA /\ b = 0x00)) /\
    (forall t m t2 l3,
       v = EvIn EC_DATA t -> l2 = m ++ EvIn EC_DATA t2 :: l3 ->
       In (EvSleep 1) m).
Proof.
  intros W H w sched i l1 v l2 E.
  destruct (run_watched sampler_next anywhere sampler_start main_unwatched
              routine_sampler sched w (S i)) as [q A].
  rewrite E in A. apply (accepts_sampler _ _ _ _ A).
Qed.

Lemma sampler_warns_exactly_above_threshold_witness :
  EvPrintf fmt_warning [80] =
  (if 80 >? 75 then EvPrintf fmt_warning [80] else EvSleep 1).
Proof.
  refine (proj1 (sampler_warns_exactly_above_threshold sim_ec _
                   (sim_boot (fun _ => 80) 0 true)
                   (until_launch ++ repeat 1%nat 8)%nat 0%nat
                   [EvPrintf fmt_monitor_start [];
                    EvIn EC_SC 0; EvOut 0x80 EC_SC;
                    EvIn EC_SC 0; EvOut 0x00 EC_DATA;
                    EvIn EC_SC 1; EvIn EC_DATA 80]
                   (EvPrintf fmt_warning [80]) [] _)
            [EvPrintf fmt_monitor_start [];
             EvIn EC_SC 0; EvOut 0x80 EC_SC;
             EvIn EC_SC 0; EvOut 0x00 EC_DATA;
             EvIn EC_SC 1] 80 eq_refl).
  vm_compute. reflexivity.
Defined.

(** ** Before the launch the process is sequential *)

Section SoloFacts.
Context {W : Type} `{World W}.

(** A run that is still going has logged an initial part of what the
    finished run logs. *)
Lemma run_prefix {R} k : forall (t : itree ecE R) (w : W) n wk trk o w' tr,
  run k t w = (Spinning, wk, trk) ->
  run n t w = (o, w', tr) -> finished o ->
  exists rest, tr = trk ++ rest.
Proof.
  induction k as [|k IH]; intros t w n wk trk o w' tr Ek En F.
  - simpl in Ek. inversion Ek. exists tr. reflexivity.
  - destruct n as [|n]; [simpl in En; inversion En; subst; now elim F|].
    simpl in Ek, En.
    destruct (observe t) as [r | t' | X e k0]; [discriminate Ek | eauto |].
    destruct (answer e w) as [[[x w1] v]|].
    + destruct (run k (k0 x) w1) as [[o1 w2] tr1] eqn:E1.
      destruct (run n (k0 x) w1) as [[o2 w3] tr2] eqn:E2.
      inversion Ek; subst. inversion En; subst.
      destruct (IH _ _ _ _ _ _ _ _ E1 E2 F) as [rest ->].
      exists rest. reflexivity.
    + destruct e; simpl in Ek; discriminate Ek.
Qed.

(** A lone thread that stands at a pthread_join stands there for ever. *)
Lemma exec_blocked_alone sched : forall (c : process W) t j k,
  threads c = [t] -> halted c = None ->
  observe t = VisF (Pthread_join j) k ->
  exec sched c = c /\ blocked_at_join 0%nat c = true.
Proof.
  intros c t j k T Hh Ot.
  assert (J : joinable [t] j = false).
  { unfold joinable.
    destruct j as [|[|j]]; simpl; auto. now rewrite Ot. }
  assert (B : blocked_at_join 0%nat c = true).
  { unfold blocked_at_join. rewrite Hh, T. simpl. now rewrite Ot, J. }
  split; [| exact B].
  induction sched as [|i sched IH]; simpl; auto.
  destruct i as [|i].
  - now rewrite (step_blocked _ _ B).
  - now rewrite step_absent by (now rewrite T).
Qed.

(** A process of one thread, under any schedule: its log goes on with what
    the thread logs when it is run on its own for as many steps as the
    schedule gives it moves, and with nothing more unless the thread has
    come to a thread call.  If it has come to one, then either the log goes
    on with the creation of thread 1, or the thread stands at a
    pthread_join. *)
Lemma solo_exec : forall sched (c : process W) t o w' tr,
  threads c = [t] -> halted c = None ->
  run (main_moves sched) t (world c) = (o, w', tr) ->
  exists es,
    log (exec sched c) = log c ++ map (pair 0%nat) tr ++ es /\
    (o <> Unscheduled -> es = []) /\
    ((es = [] /\
      (o = Unscheduled -> blocked_at_join 0%nat (exec sched c) = true)) \/
     exists r rest, es = (0%nat, EvCreate r 1%nat) :: rest).
Proof.
  induction sched as [|i sched IH]; intros c t o w' tr T Hh E.
  - simpl in E. inversion E; subst. exists []. simpl.
    rewrite app_nil_r. split; [auto|]. split; [auto|].
    left. split; [auto | discriminate].
  - destruct i as [|i].
    + rewrite main_moves_main in E. simpl in E. simpl exec.
      unfold step. rewrite Hh, T. cbn [nth_error Nat.eqb].
      destruct (observe t) as [r | t' | X e k] eqn:Ot.
      * inversion E; subst. rewrite exec_halted by discriminate.
        exists []. simpl. rewrite app_nil_r. split; [auto|]. split; [auto|].
        left. split; [auto | discriminate].
      * destruct (IH (resume 0%nat t' (world c) [] c) t' o w' tr)
          as (es & L & A); auto.
        { unfold resume. simpl. now rewrite T. }
        exists es. split; [| exact A].
        eapply eq_trans; [exact L|].
        unfold resume. simpl. now rewrite app_nil_r.
      * destruct (answer e (world c)) as [[[x w1] v]|] eqn:An.
        -- destruct (run (main_moves sched) (k x) w1) as [[o1 w2] tr1] eqn:E1.
           inversion E; subst.
           destruct (IH (resume 0%nat (k x) w1 [(0%nat, v)] c) (k x) o w' tr1)
             as (es & L & A); auto.
           { unfold resume. simpl. now rewrite T. }
           exists es. split; [| exact A].
           eapply eq_trans; [exact L|].
           unfold resume. simpl. now rewrite <- app_assoc.
        -- destruct e; simpl in An;
             try discriminate An;
             try (destruct (w_inb p (world c)); discriminate An);
             try (destruct (w_ioperm from num turn_on (world c));
                  discriminate An);
             simpl in E; inversion E; subst.
           ++ rewrite exec_halted by discriminate. exists []. simpl.
              split; [auto|]. split; [auto|].
              left. split; [auto | discriminate].
           ++ destruct (exec_world sched
                (control 0%nat (Pthread_create start) k c)) as (es & L & _).
              exists ((0%nat, EvCreate start 1%nat) :: es).
              split; [| split; [congruence | right; eauto]].
              eapply eq_trans; [exact L|]. simpl. rewrite T.
              now rewrite <- app_assoc.
           ++ destruct (exec_blocked_alone (0%nat :: sched) c t t0 k T Hh Ot)
                as [S0 B].
              simpl in S0. unfold step in S0.
              rewrite Hh, T in S0. cbn [nth_error] in S0.
              rewrite Ot in S0. cbn [answer] in S0. rewrite S0.
              exists []. simpl. rewrite app_nil_r.
              split; [auto|]. split; [auto|]. left. auto.
    + simpl exec. rewrite step_absent by (now rewrite T).
      apply (IH c t o w' tr T Hh E).
Qed.

End SoloFacts.

(** X14.  Until main launches the sampler the schedule does not matter.  In every
    execution in any world, the log of the process starts with the calls
    main makes when it is run on its own for as many steps as the schedule
    gives it moves.  If main is then still running, or has called exit,
    this is the whole log; if main has come to pthread_create, the log goes
    on, if it goes on, with the creation of thread 1. *)
Theorem main_alone_is_sequential :
  forall (W : Type) (H : World W) (w : W) sched,
    let '(o, _, tr) := run (main_moves sched) main w in
    exists es,
      log (exec sched (boot w)) = map (pair 0%nat) tr ++ es /\
      (o <> Unscheduled -> es = []) /\
      (es = [] \/
       exists rest,
         es = (0%nat, EvCreate Ec_monitor_loop_routine 1%nat) :: rest).
Proof.
  intros W H w sched.
  destruct (run (main_moves sched) main w) as [[o w'] tr] eqn:E.
  destruct (solo_exec sched (boot w) main o w' tr eq_refl eq_refl E)
    as (es & L & A1 & A2).
  exists es. split; [exact L|]. split; [exact A1|].
  destruct A2 as [[-> _] | (r & rest & ->)]; [now left|].
  right. exists rest. now destruct r.
Qed.

(** ** The snapshot cannot be raced *)

Lemma map_snd_pair {A B} (i : A) (l : list B) : map snd (map (pair i) l) = l.
Proof. induction l as [|v l IH]; simpl; [| rewrite IH]; reflexivity. Qed.

(** main against the simulated controller, run on its own with permission
    given: it comes to pthread_create, with the snapshot of the registers
    in its log. *)
Lemma sim_startup (s : sim_ec) :
  granted s = true ->
  exists n s' t,
    run n main s =
      (Unscheduled, s', granted_log ++ EvPrintf fmt_dump_header [] :: t) /\
    filter is_line t =
      flat_map (fun a => EvPrintf fmt_register [a; to_u8 (regs s a)]
                         :: interpretation a (to_u8 (regs s a))) registers.
Proof.
  intros G.
  assert (E1 : run 4 ec_init s = (Returned tt, s, granted_log)).
  { unfold ec_init. simpl. unfold sim_ioperm. rewrite G. simpl.
    rewrite G. reflexivity. }
  destruct (sim_snapshot registers s) as (s1 & t & SN & R).
  destruct (dump_loop_run registers _ 0 s s1 t eq_refl SN) as [m E0].
  assert (E2 : run (2 + m) ec_dump_selected s =
               (Returned tt, s1, EvPrintf fmt_dump_header [] :: t)).
  { unfold ec_dump_selected.
    eapply run_call_then; [apply answer_printf | exact E0 | discriminate]. }
  exists (4 + ((2 + m) + 1))%nat, s1, t. split.
  - unfold main.
    eapply run_bind; [exact E1 | | discriminate].
    rewrite <- (app_nil_r (EvPrintf fmt_dump_header [] :: t)).
    eapply run_bind; [exact E2 | reflexivity | discriminate].
  - destruct (snapshot_projections _ _ _ _ _ SN) as (L & _).
    now rewrite L, lines_of_table.
Qed.

(** X15.  In every execution against the simulated controller with permission
    given, whatever the state the controller starts in and whatever the
    schedule: the lines printed so far are an initial part of the report of
    the snapshot, which shows for each of the ten registers its content, or
    they are this whole report followed by what is printed after it.  The
    sampler exists only once the snapshot is over, so no schedule makes
    the snapshot show a wrong value. *)
Theorem snapshot_is_never_corrupted (s : sim_ec) (sched : list tid) :
  granted s = true ->
  let lines := filter is_line (map snd (log (exec sched (boot s)))) in
  let report :=
    EvPrintf fmt_dump_header [] ::
    flat_map (fun a => EvPrintf fmt_register [a; to_u8 (regs s a)]
                       :: interpretation a (to_u8 (regs s a))) registers in
  (exists rest, report = lines ++ rest) \/
  (exists rest, lines = report ++ rest).
Proof.
  intros G lines report.
  destruct (sim_startup s G) as (N & s1 & t & EN & Lt).
  assert (LT : filter is_line
                 (granted_log ++ EvPrintf fmt_dump_header [] :: t) = report).
  { simpl. now rewrite Lt. }
  destruct (run (main_moves sched) main s) as [[o w'] tr] eqn:E.
  destruct (solo_exec sched (boot s) main o w' tr eq_refl eq_refl E)
    as (es & L & A1 & _).
  simpl in L. unfold lines. rewrite L, map_app, map_snd_pair, filter_app.
  assert (Done : finished o -> exists rest,
            filter is_line tr ++ filter is_line (map snd es) = report ++ rest).
  { intros F.
    pose proof (run_deterministic _ _ _ _ _ _ _ _ _ _ E F EN
                  ltac:(discriminate)) as D.
    assert (Etr : tr = granted_log ++ EvPrintf fmt_dump_header [] :: t)
      by congruence.
    rewrite Etr, LT. eauto. }
  destruct o; try (right; apply Done; discriminate).
  left. rewrite A1 by discriminate. simpl. rewrite app_nil_r.
  destruct (run_prefix _ _ _ _ _ _ _ _ _ E EN ltac:(discriminate))
    as [rest R].
  rewrite <- LT, R, filter_app. eauto.
Qed.

Lemma snapshot_is_never_corrupted_witness :
  let lines := filter is_line (map snd (log (exec until_launch (boot demo_ec)))) in
  let report :=
    EvPrintf fmt_dump_header [] ::
    flat_map (fun a => EvPrintf fmt_register [a; to_u8 (regs demo_ec a)]
                       :: interpretation a (to_u8 (regs demo_ec a))) registers in
  (exists rest, report = lines ++ rest) \/
  (exists rest, lines = report ++ rest).
Proof. apply (snapshot_is_never_corrupted demo_ec until_launch). reflexivity. Defined.

(** ** The log up to the launch *)

(** X16.  In every execution in any world, whatever the schedule: if the sampler
    has been created, then the log of the process up to its creation is the
    log of main alone and is, in this order and with nothing else, the two
    permission requests, both answered with 0, the header of the snapshot
    and one complete snapshot: one completed read transaction for each of
    the ten registers, each followed by its lines.  The creation comes
    straight after it, and the thread created is thread 1. *)
Theorem snapshot_precedes_launch :
  forall (W : Type) (H : World W) (w : W) sched i r j,
    In (i, EvCreate r j) (log (exec sched (boot w))) ->
    exists w2 vs t rest,
      snapshot registers vs
        (snd (w_ioperm EC_DATA 1 1 (snd (w_ioperm EC_SC 1 1 w)))) w2 t /\
      log (exec sched (boot w)) =
        map (pair 0%nat)
            (EvIoperm EC_SC 1 1 0 :: EvIoperm EC_DATA 1 1 0 ::
             EvPrintf fmt_dump_header [] :: t) ++
        (0%nat, EvCreate Ec_monitor_loop_routine 1%nat) :: rest.
Proof.
  intros W H w sched i r j I.
  destruct (run (main_moves sched) main w) as [[o w'] tr] eqn:E.
  destruct (solo_exec sched (boot w) main o w' tr eq_refl eq_refl E)
    as (es & L & A1 & A2).
  simpl in L.
  assert (Ies : In (i, EvCreate r j) es).
  { rewrite L in I. apply in_app_or in I. destruct I as [I | I]; auto.
    apply in_map_iff in I. destruct I as (v & Ev & I). inversion Ev; subst.
    assert (I' : In (EvCreate r j) (filter is_create tr))
      by (apply filter_In; auto).
    now rewrite (run_no_create _ _ _ _ _ _ E) in I'. }
  destruct A2 as [[-> _] | (r' & rest & ->)]; [contradiction|].
  assert (o = Unscheduled) as ->.
  { destruct o; auto; discriminate (A1 ltac:(discriminate)). }
  clear A1 Ies I. destruct r'.
  unfold main in E.
  destruct (run_bind_inv _ _ _ _ _ _ _ E ltac:(discriminate))
    as [([] & w1 & tr1 & tr2 & E1 & E2 & ->) | (o1 & E1 & F1 & NR & Ec)].
  - destruct (ec_init_finished _ _ _ _ _ E1 ltac:(discriminate)) as [_ G].
    destruct (G tt eq_refl) as [-> ->]. clear G.
    destruct (run_bind_inv _ _ _ _ _ _ _ E2 ltac:(discriminate))
      as [([] & w2 & tr3 & tr4 & E3 & E4 & ->) | (o1 & E3 & F1 & NR & Ec)].
    + destruct (ec_dump_selected_inv _ _ _ _ _ E3 ltac:(discriminate))
        as (_ & vs & t & -> & SN).
      assert (tr4 = []) as ->.
      { destruct (main_moves sched); simpl in E4; now inversion E4. }
      exists w2, vs, t, rest. split; [exact SN|].
      rewrite L, app_nil_r. reflexivity.
    + destruct (ec_dump_selected_inv _ _ _ _ _ E3 F1) as (-> & _).
      now elim (NR tt).
  - destruct (ec_init_finished _ _ _ _ _ E1 F1) as [NU _].
    destruct o1; try discriminate Ec. now elim NU.
Qed.

Lemma snapshot_precedes_launch_witness :
  exists w2 vs t rest,
    snapshot registers vs
      (snd (w_ioperm EC_DATA 1 1 (snd (w_ioperm EC_SC 1 1 demo_ec)))) w2 t /\
    log (exec until_launch (boot demo_ec)) =
      map (pair 0%nat)
          (EvIoperm EC_SC 1 1 0 :: EvIoperm EC_DATA 1 1 0 ::
           EvPrintf fmt_dump_header [] :: t) ++
      (0%nat, EvCreate Ec_monitor_loop_routine 1%nat) :: rest.
Proof.
  apply (snapshot_precedes_launch sim_ec _ demo_ec until_launch
           0%nat Ec_monitor_loop_routine 1%nat).
  vm_compute. repeat (first [left; reflexivity | right]).
Defined.

(** ** Startup completes against the simulated controller *)

Lemma delta_join p j p' :
  delta p (EvJoin j) = Some p' -> p = At_join \/ p = Past_join.
Proof. destruct p; simpl; try discriminate; auto. Qed.

Lemma in_thread_log_inv i v l : In v (thread_log i l) -> In (i, v) l.
Proof.
  unfold thread_log. intros I. apply in_map_iff in I.
  destruct I as ([j v'] & Ev & I). simpl in Ev. subst v'.
  apply filter_In in I. destruct I as [I J]. simpl in J.
  apply Nat.eqb_eq in J. now subst j.
Qed.

(** main stands at the join only once it has created the sampler. *)
Lemma blocked_after_launch {W} `{World W} sched (w : W) :
  blocked_at_join 0%nat (exec sched (boot w)) = true ->
  exists r j, In (0%nat, EvCreate r j) (log (exec sched (boot w))).
Proof.
  intros B. pose proof (run_consistent sched w) as C.
  unfold blocked_at_join in B.
  destruct (halted (exec sched (boot w))) eqn:Hh; [discriminate|].
  destruct (nth_error (threads (exec sched (boot w))) 0) as [t|] eqn:N;
    [| discriminate].
  destruct (observe t) as [r | t' | X e k] eqn:Ot; try discriminate.
  destruct e; try discriminate.
  destruct (cons_threads _ C 0%nat t N) as (p & P & NJ & _ & F).
  destruct (follows_vis p t _ k Ot (F Hh)) as [_ K].
  destruct (K tt) as (p' & D & _). simpl in D.
  destruct (delta_join _ _ _ D) as [-> | ->]; [| now elim NJ].
  destruct (main_phase sched w) as (p2 & P2 & _ & S).
  rewrite P in P2. inversion P2; subst p2. simpl in S.
  destruct S as (s & j & d & x & E & _).
  exists Ec_monitor_loop_routine, j. apply in_thread_log_inv. rewrite E.
  right. right. right. apply in_or_app. right. now left.
Qed.

(** X17.  Against the simulated controller with permission given, whatever state
    the controller starts in, the startup completes under every schedule:
    there is a number of moves such that, once the schedule has given main
    that many, whatever it has given to others, the process has not ended,
    the whole report of the snapshot is printed, with the content of every
    register, and the sampler has been created as thread 1, so the process
    has its two threads. *)
Theorem startup_completes_on_sim (s : sim_ec) :
  granted s = true ->
  exists n, forall sched, (n <= main_moves sched)%nat ->
    let c := exec sched (boot s) in
    halted c = None /\
    List.length (threads c) = 2%nat /\
    In (0%nat, EvCreate Ec_monitor_loop_routine 1%nat) (log c) /\
    exists rest,
      filter is_line (map snd (log c)) =
      (EvPrintf fmt_dump_header [] ::
       flat_map (fun a => EvPrintf fmt_register [a; to_u8 (regs s a)]
                          :: interpretation a (to_u8 (regs s a))) registers)
      ++ rest.
Proof.
  intros G. destruct (sim_startup s G) as (n & s1 & t & EN & Lt).
  exists n. intros sched M c.
  pose proof (run_mono _ _ _ _ _ _ EN ltac:(discriminate) _ M) as E.
  destruct (solo_exec sched (boot s) main _ _ _ eq_refl eq_refl E)
    as (es & L0 & _ & A2).
  assert (L : log c =
              map (pair 0%nat)
                  (granted_log ++ EvPrintf fmt_dump_header [] :: t) ++ es)
    by exact L0.
  clear L0.
  assert (Cr : exists rest,
            es = (0%nat, EvCreate Ec_monitor_loop_routine 1%nat) :: rest).
  { destruct A2 as [[-> B] | (r & rest & ->)]; [| destruct r; eauto].
    destruct (blocked_after_launch _ _ (B eq_refl)) as (r & j & I).
    fold c in I. rewrite L, app_nil_r in I. apply in_map_iff in I.
    destruct I as (v & Ev & I). inversion Ev; subst v.
    assert (I' : In (EvCreate r j)
                   (filter is_create
                      (granted_log ++ EvPrintf fmt_dump_header [] :: t)))
      by (apply filter_In; auto).
    now rewrite (run_no_create _ _ _ _ _ _ EN) in I'. }
  destruct Cr as [rest ->].
  assert (I : In (0%nat, EvCreate Ec_monitor_loop_routine 1%nat) (log c))
    by (rewrite L; apply in_or_app; right; now left).
  assert (Len : List.length (threads c) = 2%nat).
  { destruct (threads_count sched s) as [Nc _]. fold c in Nc.
    pose proof (threads_le_two sched s) as Two. fold c in Two.
    assert (I' : In (EvCreate Ec_monitor_loop_routine 1%nat)
                   (filter is_create (map snd (log c)))).
    { apply filter_In. split; [| reflexivity].
      apply in_map_iff. exists (0%nat, EvCreate Ec_monitor_loop_routine 1%nat).
      auto. }
    destruct (filter is_create (map snd (log c))); [contradiction|].
    simpl in Nc. lia. }
  split; [| split; [exact Len | split; [exact I|]]].
  - pose proof (run_consistent sched s) as C. fold c in C.
    destruct (halted c) as [h|] eqn:Hh; auto.
    destruct (cons_halted _ C h Hh) as [_ D].
    pose proof (cons_alone _ C Dead D eq_refl). lia.
  - rewrite L, map_app, map_snd_pair, filter_app.
    exists (filter is_line
              (map snd ((0%nat, EvCreate Ec_monitor_loop_routine 1%nat) :: rest))).
    f_equal. simpl. now rewrite Lt.
Qed.

Lemma startup_completes_on_sim_witness :
  exists n, forall sched, (n <= main_moves sched)%nat ->
    let c := exec sched (boot demo_ec) in
    halted c = None /\
    List.length (threads c) = 2%nat /\
    In (0%nat, EvCreate Ec_monitor_loop_routine 1%nat) (log c) /\
    exists rest,
      filter is_line (map snd (log c)) =
      (EvPrintf fmt_dump_header [] ::
       flat_map (fun a => EvPrintf fmt_register [a; to_u8 (regs demo_ec a)]
                          :: interpretation a (to_u8 (regs demo_ec a)))
                registers)
      ++ rest.
Proof. apply (startup_completes_on_sim demo_ec). reflexivity. Defined.

(** ** Every thread runs its code *)

Lemma stands_tau {R} (t0 : itree ecE R) l t :
  stands_after t0 l t -> forall t', observe t = TauF t' -> stands_after t0 l t'.
Proof.
  induction 1 as [t | t t1 l t2 Ot D IH | t X e k x l t2 Ot D IH]; intros t' O.
  - apply (stands_silent _ t'); [exact O | constructor].
  - apply (stands_silent _ t1); auto.
  - apply (stands_call _ _ e k); auto.
Qed.

Lemma stands_snoc {R} (t0 : itree ecE R) l t :
  stands_after t0 l t ->
  forall X (e : ecE X) k x,
    observe t = VisF e k -> stands_after t0 (l ++ [ev_of e x]) (k x).
Proof.
  induction 1 as [t | t t1 l t2 Ot D IH | t X0 e0 k0 x0 l t2 Ot D IH];
    intros X e k x O.
  - simpl. apply (stands_call _ _ e k); [exact O | constructor].
  - apply (stands_silent _ t1); eauto.
  - simpl. apply (stands_call _ _ e0 k0); eauto.
Qed.

Section CodeFacts.
Context {W : Type} `{World W}.

Lemma boot_in_code (w : W) : in_code (boot w).
Proof.
  intros _ [|i] t N; simpl in N; [| destruct i; discriminate].
  inversion N; subst. constructor.
Qed.

(** Thread [i] goes on in its code after the calls [es]. *)
Lemma resume_in_code (c : process W) i t t' w' es :
  in_code c -> halted c = None -> nth_error (threads c) i = Some t ->
  (forall t0 l, stands_after t0 l t -> stands_after t0 (l ++ es) t') ->
  in_code (resume i t' w' (map (pair i) es) c).
Proof.
  intros Ic Hh N Fw _ j tj Nj. unfold resume in *. cbn [threads log] in *.
  rewrite thread_log_app.
  destruct (Nat.eq_dec i j) as [<- | Nij].
  - rewrite (nth_error_set_nth_eq _ _ _ _ N) in Nj. inversion Nj; subst tj.
    rewrite thread_log_mine. apply Fw, (Ic Hh i t N).
  - rewrite nth_error_set_nth_neq in Nj by auto.
    rewrite thread_log_yours, app_nil_r by auto.
    apply (Ic Hh j tj Nj).
Qed.

Lemma step_in_code i (c : process W) :
  consistent c -> in_code c -> in_code (step i c).
Proof.
  intros C Ic. unfold step.
  destruct (halted c) eqn:Hh; auto.
  destruct (nth_error (threads c) i) as [t|] eqn:N; auto.
  destruct (observe t) as [r | t' | X e k] eqn:Ot.
  - destruct (Nat.eqb i 0); auto. intros E. discriminate E.
  - apply (resume_in_code c i t t' (world c) [] Ic Hh N).
    intros t0 l D. rewrite app_nil_r. apply (stands_tau _ _ _ D _ Ot).
  - destruct (answer e (world c)) as [[[x w'] v]|] eqn:A.
    + destruct (answer_ev_of _ _ _ _ _ A) as (-> & _).
      apply (resume_in_code c i t (k x) w' [ev_of e x] Ic Hh N).
      intros t0 l D. apply (stands_snoc _ _ _ D _ e k x Ot).
    + destruct e; simpl in A;
        try discriminate A;
        try (destruct (w_inb p (world c)); discriminate A);
        try (destruct (w_ioperm from num turn_on (world c)); discriminate A).
      * intros E. discriminate E.
      * (* pthread_create *)
        intros _ j tj Nj. cbn [control threads log] in *.
        rewrite thread_log_app.
        assert (Li : (i < List.length (threads c))%nat)
          by (apply nth_error_Some; congruence).
        destruct (Nat.lt_ge_cases j (List.length (threads c))) as [L | L].
        -- rewrite nth_error_app1 in Nj by (now rewrite length_set_nth).
           destruct (Nat.eq_dec i j) as [<- | Nij].
           ++ rewrite (nth_error_set_nth_eq _ _ _ _ N) in Nj.
              inversion Nj; subst tj. rewrite thread_log_own.
              apply (stands_snoc _ _ _ (Ic Hh i t N) _
                       (Pthread_create start) k (List.length (threads c)) Ot).
           ++ rewrite nth_error_set_nth_neq in Nj by auto.
              rewrite thread_log_other, app_nil_r by auto.
              apply (Ic Hh j tj Nj).
        -- rewrite nth_error_app2 in Nj by (now rewrite length_set_nth).
           rewrite length_set_nth in Nj.
           destruct (j - List.length (threads c))%nat as [|m] eqn:Dm;
             [| destruct m; discriminate].
           simpl in Nj. inversion Nj; subst tj.
           rewrite thread_log_other by lia.
           rewrite thread_log_absent.
           ++ destruct j as [|j]; [lia|]. destruct start. constructor.
           ++ intros m v I E. subst m. apply (cons_tids c C) in I. lia.
      * (* pthread_join *)
        simpl. destruct (joinable (threads c) t0); auto.
        apply (resume_in_code c i t (k tt) (world c) [EvJoin t0] Ic Hh N).
        intros t1 l D. apply (stands_snoc _ _ _ D _ (Pthread_join t0) k tt Ot).
Qed.

Lemma exec_in_code sched : forall c : process W,
  consistent c -> in_code c -> in_code (exec sched c).
Proof.
  induction sched as [|i sched IH]; intros c C Ic; simpl; auto.
  apply IH; [apply step_consistent, C | apply step_in_code; auto].
Qed.

(** In every execution every thread stands in its code: thread 0 in main,
    a thread that was created in ec_monitor_loop. *)
Lemma run_in_code sched (w : W) : in_code (exec sched (boot w)).
Proof. apply exec_in_code; [apply boot_consistent | apply boot_in_code]. Qed.

End CodeFacts.


(** ** The join is of the thread created, and comes at once *)

Lemma call_keeps {X} (e : ecE X) n c :
  (forall x, stage_next (Working c) (ev_of e x) = Some (Working c)) ->
  obeys stage_next may_idle n (Working c) (ITree.trigger e)
    (fun q' _ => q' = Working c).
Proof.
  intros A. apply obeys_call.
  - destruct e; simpl; try exact I. discriminate.
  - intros x. exists (Working c). split; [apply A | reflexivity].
Qed.

Ltac keeps_call := apply call_keeps; intros; reflexivity.

Lemma poll_loop_keeps again n c :
  obeys stage_next may_idle n (Working c) (poll_loop again)
    (fun q' _ => q' = Working c).
Proof.
  unfold poll_loop, while.
  apply (obeys_iter _ _ _ (fun q' _ => q' = Working c));
    [| intros q' _ ->; exact I | reflexivity].
  intros m q1 [] ->.
  eapply (obeys_bind _ _ _ (fun q' _ => q' = Working c)).
  - eapply (obeys_bind _ _ _ (fun q' _ => q' = Working c)); [keeps_call|].
    intros q' s ->. now apply obeys_ret.
  - intros q' [] ->.
    + eapply (obeys_bind _ _ _ (fun q' _ => q' = Working c));
        [now apply obeys_ret|].
      intros q' [] ->. now apply obeys_ret.
    + now apply obeys_ret.
Qed.

Lemma ec_read_keeps a n c :
  obeys stage_next may_idle n (Working c) (ec_read a)
    (fun q' _ => q' = Working c).
Proof.
  unfold ec_read. rewrite ec_wait_ibf_poll, ec_wait_obf_poll.
  eapply obeys_bind; [apply poll_loop_keeps | intros q' [] ->].
  eapply (obeys_bind _ _ _ (fun q' _ => q' = Working c));
    [keeps_call | intros q' [] ->].
  eapply obeys_bind; [apply poll_loop_keeps | intros q' [] ->].
  eapply (obeys_bind _ _ _ (fun q' _ => q' = Working c));
    [keeps_call | intros q' [] ->].
  eapply obeys_bind; [apply poll_loop_keeps | intros q' [] ->].
  keeps_call.
Qed.

Lemma ec_dump_selected_keeps n c :
  obeys stage_next may_idle n (Working c) ec_dump_selected
    (fun q' _ => q' = Working c).
Proof.
  unfold ec_dump_selected.
  eapply (obeys_bind _ _ _ (fun q' _ => q' = Working c));
    [keeps_call | intros q' [] ->].
  unfold for_upto.
  apply (obeys_iter _ _ _ (fun q' _ => q' = Working c));
    [| intros q' _ ->; exact I | reflexivity].
  intros m q' i ->. destruct (i <? _); [| now apply obeys_ret].
  eapply (obeys_bind _ _ _ (fun q' _ => q' = Working c));
    [| intros q' [] ->; now apply obeys_ret].
  unfold dump_register.
  eapply obeys_bind; [apply ec_read_keeps | intros q' v ->].
  eapply (obeys_bind _ _ _ (fun q' _ => q' = Working c));
    [keeps_call | intros q' [] ->].
  unfold interpret.
  destruct (_ =? 0x50); [keeps_call|].
  destruct (_ =? 0x51); [keeps_call|].
  destruct (_ =? 0x52); [keeps_call | now apply obeys_ret].
Qed.

(** acpi_check ends with the line of the diagnostic, and returns at once. *)
Lemma acpi_check_stage n j :
  obeys stage_next may_idle n (Working (Some j)) acpi_check
    (fun q' _ => q' = Joining j).
Proof.
  unfold acpi_check.
  eapply (obeys_bind _ _ _ (fun q' _ => q' = Working (Some j)));
    [keeps_call | intros q' [] ->].
  eapply obeys_bind; [apply ec_read_keeps | intros q' v ->].
  apply obeys_call; [exact I|]. intros []. exists (Joining j).
  split; reflexivity.
Qed.

Lemma fatal_keeps {R} n c (Q : stage -> R -> Prop) :
  obeys stage_next may_idle n (Working c) (perror "ioperm" ;; exit 1) Q.
Proof.
  eapply (obeys_bind _ _ _ (fun q' _ => q' = Working c));
    [keeps_call | intros q' [] ->].
  unfold exit. destruct n; [exact I|]. cbn. split; [discriminate | intros []].
Qed.

Lemma ec_init_keeps n c :
  obeys stage_next may_idle n (Working c) ec_init
    (fun q' _ => q' = Working c).
Proof.
  unfold ec_init.
  eapply (obeys_bind _ _ _ (fun q' _ => q' = Working c));
    [keeps_call | intros q' r1 ->].
  destruct (truthy r1); [apply fatal_keeps|].
  eapply (obeys_bind _ _ _ (fun q' _ => q' = Working c));
    [keeps_call | intros q' r2 ->].
  destruct (truthy r2); [apply fatal_keeps | now apply obeys_ret].
Qed.

(** main creates one thread, prints the line of the diagnostic after that,
    and then, with no step in between, joins the thread that its
    pthread_create gave it. *)
Lemma main_stages : always_obeys stage_next may_idle (Working None) main.
Proof.
  intros n. unfold main.
  eapply obeys_bind; [apply ec_init_keeps | intros q' [] ->].
  eapply obeys_bind; [apply ec_dump_selected_keeps | intros q' [] ->].
  eapply (obeys_bind _ _ _ (fun q' j => q' = Working (Some j))).
  { apply obeys_call; [exact I|]. intros j. exists (Working (Some j)).
    split; reflexivity. }
  intros q' monitor_thread ->.
  eapply obeys_bind; [apply acpi_check_stage | intros q' [] ->].
  eapply (obeys_bind _ _ _ (fun _ _ => True));
    [| intros q' [] _; now apply obeys_ret].
  apply obeys_call; [exact I|]. intros []. exists (Working None).
  split; [| exact I]. simpl. now rewrite Nat.eqb_refl.
Qed.

(** The sampler makes no thread call and prints no line of the
    diagnostic. *)
Lemma routine_stages r (j : tid) :
  always_obeys stage_next may_idle (Working None) (routine_body r).
Proof.
  destruct r. intros n. unfold routine_body, ec_monitor_loop.
  eapply (obeys_bind _ _ _ (fun q' _ => q' = Working None));
    [keeps_call | intros q' [] ->].
  eapply (obeys_bind _ _ _ (fun _ _ => True));
    [| intros q' [] _; now apply obeys_ret].
  unfold while.
  apply (obeys_iter _ _ _ (fun q' _ => q' = Working None));
    [| intros q' _ ->; exact I | reflexivity].
  intros m q' [] ->.
  eapply (obeys_bind _ _ _ (fun q' _ => q' = Working None));
    [now apply obeys_ret | intros q' [] ->; [| now apply obeys_ret]].
  eapply (obeys_bind _ _ _ (fun q' _ => q' = Working None));
    [| intros q' [] ->; now apply obeys_ret].
  unfold monitor_tick.
  eapply obeys_bind; [apply ec_read_keeps | intros q' temp ->].
  eapply (obeys_bind _ _ _ (fun q' _ => q' = Working None));
    [| intros q' [] ->].
  - destruct (temp >? 75); [keeps_call | now apply obeys_ret].
  - keeps_call.
Qed.

(** The thread a stage names was created by the thread itself. *)
Lemma accepts_created : forall l q q' j,
  accepts stage_next q l = Some q' -> named q' = Some j ->
  named q = Some j \/ exists r, In (EvCreate r j) l.
Proof.
  induction l as [|v l IH]; intros q q' j A Nm; simpl in A.
  - inversion A; subst. auto.
  - destruct (stage_next q v) as [q1|] eqn:D; [| discriminate].
    destruct (IH _ _ _ A Nm) as [N1 | [r I]]; [| right; exists r; now right].
    destruct q as [created | j0]; simpl in D.
    + destruct v; try (inversion D; subst q1; auto; fail).
      * destruct (String.eqb fmt fmt_acpi_flag).
        -- destruct created; inversion D; subst q1. auto.
        -- inversion D; subst q1. auto.
      * destruct created; inversion D; subst q1. simpl in N1.
        inversion N1; subst. right. exists start. now left.
    + destruct v; try discriminate.
      destruct (Nat.eqb t j0); inversion D; subst q1. discriminate.
Qed.

(** The one way into the phase of the join is the line of the diagnostic. *)
Lemma delta_at_join p v :
  delta p v = Some At_join ->
  exists x, p = Diagnosed x /\ v = EvPrintf fmt_acpi_flag [x].
Proof.
  intros D. destruct p; simpl in D; try discriminate;
    repeat (match type of D with
            | context [match ?b with _ => _ end] => destruct b eqn:?
            end; try discriminate).
  apply andb_prop in Heqb. destruct Heqb as [E1 E2].
  apply String.eqb_eq in E1. apply Z.eqb_eq in E2. subst. eauto.
Qed.

(** After the line of the diagnostic the stage is the join. *)
Lemma accepts_at_join : forall l q,
  replay Acquire_sc l = Some At_join ->
  accepts stage_next (Working None) l = Some q ->
  exists j, q = Joining j.
Proof.
  intros l. destruct l as [|v0 l0] using rev_ind; [discriminate|].
  clear IHl0. intros q R A.
  rewrite replay_app in R. rewrite accepts_app in A.
  destruct (replay Acquire_sc l0) as [p|]; [| discriminate].
  destruct (accepts stage_next (Working None) l0) as [q0|]; [| discriminate].
  simpl in R, A.
  destruct (delta p v0) as [p'|] eqn:D; [| discriminate].
  inversion R; subst p'.
  destruct (stage_next q0 v0) as [q1|] eqn:S; [| discriminate].
  inversion A; subst q1.
  destruct (delta_at_join _ _ D) as (x & -> & ->).
  destruct q0 as [[j|]|j]; simpl in S; inversion S. eauto.
Qed.

Lemma join_target_inv {W} i (c : process W) j :
  join_target i c = Some j ->
  halted c = None /\
  exists t k, nth_error (threads c) i = Some t /\
              observe t = VisF (Pthread_join j) k.
Proof.
  unfold join_target. destruct (halted c); [discriminate|].
  destruct (nth_error (threads c) i) as [t|]; [| discriminate].
  destruct (observe t) as [r | t' | X e k] eqn:Ot; try discriminate.
  destruct e; try discriminate. intros E. inversion E; subst. eauto.
Qed.

(** A tree that stands at a call has made no step while its log is empty. *)
Lemma stands_at_start {R} (t t' : itree ecE R) {X} (e : ecE X) k :
  observe t = VisF e k -> stands_after t [] t' -> t' = t.
Proof.
  intros Ot D. inversion D; subst; auto. congruence.
Qed.

Section JoinFacts.
Context {W : Type} `{World W}.

Lemma run_staged sched (w : W) :
  watched stage_next may_idle (fun _ => Working None) (exec sched (boot w)).
Proof.
  apply (exec_watched stage_next may_idle (fun _ => Working None)
           routine_stages sched (boot w) (boot_consistent w)
           (boot_watched stage_next may_idle (fun _ => Working None)
              main_stages w)).
Qed.

(** A thread in the stage of the join of [j] is main, and [j] is thread 1,
    which main created. *)
Lemma joining_created sched (w : W) i j :
  accepts stage_next (Working None)
    (thread_log i (log (exec sched (boot w)))) = Some (Joining j) ->
  i = 0%nat /\ j = 1%nat /\
  In (0%nat, EvCreate Ec_monitor_loop_routine 1%nat) (log (exec sched (boot w))).
Proof.
  intros A.
  destruct (accepts_created _ _ _ j A eq_refl) as [E | [r I]]; [discriminate|].
  apply in_thread_log_inv in I.
  pose proof (creations_by_main sched w _ _ _ I) as ->.
  destruct (threads_count sched w) as [_ T]. specialize (T _ _ _ I).
  pose proof (threads_le_two sched w) as Two.
  assert (j = 1%nat) as -> by lia.
  destruct r. auto.
Qed.

(** Only main ever stands at a pthread_join, and then to join thread 1, the
    thread it created, with the line of the diagnostic out. *)
Lemma join_on_created sched (w : W) i j :
  join_target i (exec sched (boot w)) = Some j ->
  i = 0%nat /\ j = 1%nat /\
  phase_of (exec sched (boot w)) 0%nat = Some At_join /\
  In (0%nat, EvCreate Ec_monitor_loop_routine 1%nat) (log (exec sched (boot w))).
Proof.
  intros J. destruct (join_target_inv _ _ _ J) as (Hh & t & k & N & Ot).
  destruct (run_staged sched w i t N) as (q & A & F).
  destruct (always_obeys_vis stage_next may_idle q t _ k Ot (F Hh)) as [_ K].
  destruct (K tt) as (q' & D & _).
  destruct q as [created | j0]; simpl in D; [discriminate|].
  destruct (Nat.eqb_spec j j0) as [E |]; [| discriminate]. subst j0.
  destruct (joining_created sched w i j A) as (-> & -> & I).
  repeat split; auto.
  destruct (cons_threads _ (run_consistent sched w) 0%nat t N)
    as (p & P & NJ & _ & Fo).
  destruct (follows_vis p t _ k Ot (Fo Hh)) as [_ Kp].
  destruct (Kp tt) as (p' & Dp & _).
  destruct (delta_join _ _ _ Dp) as [-> | ->]; [exact P | now elim NJ].
Qed.

(** Once the line of the diagnostic is out, main stands at the pthread_join
    of thread 1: it has taken no step after the line, and the join is its
    next call. *)
Lemma main_at_join sched (w : W) :
  phase_of (exec sched (boot w)) 0%nat = Some At_join ->
  join_target 0%nat (exec sched (boot w)) = Some 1%nat.
Proof.
  intros P. pose proof (run_consistent sched w) as C.
  assert (Hh : halted (exec sched (boot w)) = None).
  { destruct (halted (exec sched (boot w))) as [h|] eqn:Hh; auto.
    destruct (cons_halted _ C h Hh) as [_ D]. congruence. }
  destruct (nth_error (threads (exec sched (boot w))) 0) as [t|] eqn:N.
  2:{ pose proof (cons_main _ C) as M.
      destruct (threads (exec sched (boot w))); [now elim M | discriminate]. }
  destruct (cons_threads _ C 0%nat t N) as (p & P' & _ & _ & Fo).
  rewrite P in P'. inversion P'; subst p.
  destruct (run_staged sched w 0%nat t N) as (q & A & F).
  destruct (accepts_at_join _ _ P A) as [j ->].
  destruct (joining_created sched w 0%nat j A) as (_ & -> & _).
  unfold join_target. rewrite Hh, N.
  destruct (observe t) as [r | t' | X e k] eqn:Ot.
  - pose proof (follows_ret _ _ _ Ot (Fo Hh)). discriminate.
  - specialize (F Hh 1%nat). cbn [obeys] in F. rewrite Ot in F.
    destruct F as [[] _].
  - destruct (always_obeys_vis stage_next may_idle _ t e k Ot (F Hh))
      as [EO K].
    destruct e; simpl in EO; try (now elim EO);
      try (destruct (K 0) as (q' & D & _); discriminate D);
      try (destruct (K tt) as (q' & D & _); discriminate D);
      try (destruct (K 0%nat) as (q' & D & _); discriminate D).
    destruct (K tt) as (q' & D & _). simpl in D.
    destruct (Nat.eqb_spec t0 1) as [E |]; [| discriminate]. now subst.
Qed.

(** At the join main is blocked: a step of main changes nothing. *)
Lemma main_blocked sched (w : W) :
  phase_of (exec sched (boot w)) 0%nat = Some At_join ->
  step 0%nat (exec sched (boot w)) = exec sched (boot w).
Proof.
  intros P. pose proof (main_at_join sched w P) as J.
  destruct (join_target_inv _ _ _ J) as (Hh & t & k & N & Ot).
  apply step_blocked. unfold blocked_at_join. rewrite Hh, N, Ot.
  now rewrite (consistent_not_joinable _ 1%nat (run_consistent sched w) Hh).
Qed.

(** A thread that was created is thread 1, runs ec_monitor_loop and was
    created by main. *)
Lemma created_is_sampler sched (w : W) i r j :
  In (i, EvCreate r j) (log (exec sched (boot w))) ->
  i = 0%nat /\ r = Ec_monitor_loop_routine /\ j = 1%nat /\
  List.length (threads (exec sched (boot w))) = 2%nat.
Proof.
  intros I. pose proof (creations_by_main sched w _ _ _ I) as ->.
  destruct (threads_count sched w) as [_ T]. specialize (T _ _ _ I).
  pose proof (threads_le_two sched w) as Two.
  destruct r. repeat split; lia.
Qed.

End JoinFacts.

(** C9.  In every execution in any world, the log of main is a stage of the
    startup sequence: the two permission requests (abort on a refusal);
    then the header of the snapshot and the calls of the snapshot; then the
    one creation of the sampler; then the header of the diagnostic, the
    port accesses of its one read transaction and the line with the value
    read; and main never gets past the join.  main
    never returns, no pthread_join ever completes and no thread can be
    joined, because no thread ever returns; so with permission given the
    process never ends.  The routine of the sampler, run on its own in any
    world, is still running after any number of steps: its loop has no
    exit.  While the process has not ended, thread 0 stands in the code of
    main after the calls of its log, and every other thread stands in the
    code of ec_monitor_loop after the calls of its own: the thread that is
    launched runs the sampler.  A thread is only created by main, for the
    routine ec_monitor_loop, as thread 1, and the process then has its two
    threads.  A thread that stands at a pthread_join is main, with the line
    of the diagnostic out, and the thread it is to join is thread 1, the
    one it created.  Conversely, once the line of the diagnostic is out,
    main stands at the pthread_join of thread 1 without a step in between,
    thread 1 is there and stands in ec_monitor_loop, and a step of main
    changes nothing: main is blocked.  Against the simulated controller
    main, scheduled alone, goes through all the stages in this order and
    then stands at the join of thread 1 for ever, while thread 1 is
    ec_monitor_loop, not yet started. *)
Theorem coordinator_sequence :
  (forall (W : Type) (H : World W) (w : W) sched,
     let c := exec sched (boot w) in
     (exists p, phase_of c 0%nat = Some p /\ p <> Past_join /\
                startup_order p (thread_log 0%nat (log c))) /\
     (forall code, halted c <> Some (Main_returned code)) /\
     (forall i j, ~ In (i, EvJoin j) (log c)) /\
     (halted c = None -> forall j, joinable (threads c) j = false) /\
     ((forall i f n o r, In (i, EvIoperm f n o r) (log c) -> r = 0) ->
      halted c = None) /\
     (forall n, fst (fst (run n ec_monitor_loop w)) = Spinning) /\
     (halted c = None ->
      (forall t, nth_error (threads c) 0 = Some t ->
                 stands_after main (thread_log 0%nat (log c)) t) /\
      (forall j t, nth_error (threads c) (S j) = Some t ->
                   stands_after ec_monitor_loop
                     (thread_log (S j) (log c)) t)) /\
     (forall i r j, In (i, EvCreate r j) (log c) ->
        i = 0%nat /\ r = Ec_monitor_loop_routine /\ j = 1%nat /\
        List.length (threads c) = 2%nat) /\
     (forall i j, join_target i c = Some j ->
        i = 0%nat /\ j = 1%nat /\ phase_of c 0%nat = Some At_join /\
        In (0%nat, EvCreate Ec_monitor_loop_routine 1%nat) (log c)) /\
     (phase_of c 0%nat = Some At_join ->
        join_target 0%nat c = Some 1%nat /\
        (exists t1, nth_error (threads c) 1 = Some t1 /\
                    stands_after ec_monitor_loop
                      (thread_log 1%nat (log c)) t1) /\
        step 0%nat c = c))
  /\
  (let c := exec main_only_schedule (boot demo_ec) in
   thread_log 0%nat (log c) =
     granted_log ++ EvPrintf fmt_dump_header [] ::
     flat_map (fun a =>
       [EvIn EC_SC 0; EvOut 0x80 EC_SC; EvIn EC_SC 0; EvOut a EC_DATA;
        EvIn EC_SC 1; EvIn EC_DATA (a + 10);
        EvPrintf fmt_register [a; a + 10]] ++ interpretation a (a + 10))
       registers ++
     EvCreate Ec_monitor_loop_routine 1%nat :: EvPrintf fmt_acpi_header [] ::
     [EvIn EC_SC 0; EvOut 0x80 EC_SC; EvIn EC_SC 0; EvOut 0x01 EC_DATA;
      EvIn EC_SC 1; EvIn EC_DATA 11; EvPrintf fmt_acpi_flag [11]] /\
   phase_of c 0%nat = Some At_join /\
   List.length (threads c) = 2%nat /\
   (forall n, exec (repeat 0%nat n) c = c) /\
   join_target 0%nat c = Some 1%nat /\
   thread_log 1%nat (log c) = [] /\
   nth_error (threads c) 1 = Some ec_monitor_loop).
Proof.
  assert (Sampler : forall (W : Type) (H : World W) (w : W) sched,
            let c := exec sched (boot w) in
            phase_of c 0%nat = Some At_join ->
            exists t1, nth_error (threads c) 1 = Some t1 /\
                       stands_after ec_monitor_loop
                         (thread_log 1%nat (log c)) t1).
  { intros W H w sched c P.
    pose proof (main_at_join sched w P) as J. fold c in J.
    destruct (join_on_created sched w _ _ J) as (_ & _ & _ & I).
    destruct (join_target_inv _ _ _ J) as (Hh & _).
    destruct (created_is_sampler sched w _ _ _ I) as (_ & _ & _ & L).
    fold c in L.
    destruct (nth_error (threads c) 1) as [t1|] eqn:N.
    - exists t1. split; auto.
      apply (run_in_code sched w Hh 1%nat t1 N).
    - apply nth_error_None in N. lia. }
  split.
  - intros W H w sched c. pose proof (run_consistent sched w) as C. fold c in C.
    split; [apply main_phase|].
    split; [| split; [| split; [| split; [| split; [| split;
      [| split; [| split]]]]]]].
    + intros code Hh. destruct (cons_halted _ C _ Hh). discriminate.
    + intros i j I. destruct (thread_phase sched w i _ I) as (p & P & NJ).
      apply (replay_no_join _ _ _ P NJ j). now apply in_thread_log.
    + intros Hh j. now apply consistent_not_joinable.
    + intros G. destruct (halted c) as [h|] eqn:Hh; auto.
      destruct (main_phase sched w) as (p & P & NJ & S). fold c in P, S.
      destruct (cons_halted _ C h Hh) as [_ D].
      rewrite D in P. inversion P; subst p. simpl in S.
      destruct S as (l0 & R & E).
      assert (A : forall v, In v l0 -> In (0%nat, v) (log c)).
      { intros v I.
        assert (I' : In v (thread_log 0%nat (log c)))
          by (rewrite E; apply in_or_app; now left).
        unfold thread_log in I'. apply in_map_iff in I'.
        destruct I' as ([j v'] & Ev & I'). simpl in Ev. subst v'.
        apply filter_In in I'. destruct I' as [I' J]. simpl in J.
        apply Nat.eqb_eq in J. now subst j. }
      destruct R as [(r & R & ->) | (r & R & ->)]; elim R.
      * apply (G 0%nat EC_SC 1 1 r), A. now left.
      * apply (G 0%nat EC_DATA 1 1 r), A. right. now left.
    + intros n. apply ec_monitor_loop_spins.
    + intros Hh. split.
      * intros t N. apply (run_in_code sched w Hh 0%nat t N).
      * intros j t N. apply (run_in_code sched w Hh (S j) t N).
    + intros i r j I. apply (created_is_sampler sched w i r j I).
    + intros i j J. apply (join_on_created sched w i j J).
    + intros P. split; [apply (main_at_join sched w P)|].
      split; [apply (Sampler W H w sched P) | apply (main_blocked sched w P)].
  - cbv zeta.
    assert (P : phase_of (exec main_only_schedule (boot demo_ec)) 0%nat =
                Some At_join) by (vm_compute; reflexivity).
    assert (L1 : thread_log 1%nat (log (exec main_only_schedule (boot demo_ec)))
                 = []) by (vm_compute; reflexivity).
    split; [vm_compute; reflexivity|].
    split; [exact P|].
    split; [vm_compute; reflexivity|].
    split; [intros n; apply exec_stuck, (main_blocked _ _ P)|].
    split; [apply (main_at_join _ _ P)|].
    split; [exact L1|].
    destruct (Sampler _ _ demo_ec main_only_schedule P) as (t1 & N & D).
    cbv zeta in N, D. rewrite L1 in D. rewrite N. f_equal.
    apply (stands_at_start ec_monitor_loop t1
             (Printf fmt_monitor_start []) _ eq_refl D).
Qed.
